(** * gocapnweb: the RPC session core of rpc.go, embedded in Rocq

    The development follows rpc.go function by function: the JSON value
    trees the session works on, path traversal, pipeline-reference
    resolution with lazy dispatch, and the push / pull / release / abort
    handlers driven by HandleMessage.

    What the embedding keeps and what it leaves out:
    - values are the trees encoding/json decodes into interface{}, and the
      results of the target are such trees too;
    - Go's int is Z, and int(f) on a float64 is truncation;
    - the session state is passed explicitly, together with the state of
      the target and the list of Dispatch calls made;
    - resolvePipelineReferences recurses into the args of pending
      operations, so it takes fuel, and running out of fuel is an outcome of
      its own, different from every error;
    - the messages of a session are handled one at a time, so the RWMutex
      is not modelled, and what is written to the log is not part of the
      state. *)

From Stdlib Require Import ZArith QArith.QArith_base Lia Ascii.
From stdpp Require Import base option list gmap strings pretty.

Close Scope Q_scope.
Open Scope Z_scope.
Set Warnings "-register-all".

(** ** JSON values as Go's encoding/json decodes them into interface{} *)

(** A JSON number decodes to a float64; every finite float64 is a
    rational, which is all the session core needs of it. *)
Definition float64 := Q.

(** Go's conversion int(f): the fractional part is discarded (truncation
    towards zero).  Go's int is modelled by Z; for a float beyond the
    range of int, where Go leaves the result of the conversion to the
    implementation, this is the exact integer part. *)
Definition int_of_float64 (f : float64) : Z :=
  Z.quot (Qnum f) (Z.pos (Qden f)).

(** An int stored in an interface{}; encoding/json prints it as a JSON
    number. *)
Definition float64_of_int (n : Z) : float64 := inject_Z n.

(** interface{} holding decoded JSON: nil, bool, float64, string,
    []interface{} and map[string]interface{}.  A map is kept as the list of
    its entries; every iteration order of Go's range over a map is the
    list order of one such list.  These are the types the session core
    tests for.  A handler can also return a value of another Go type (a
    []string, a map[string]string, a struct, a channel): such a value is
    not in Value, so the results of Dispatch are here the results built
    from these six types, every one of which encoding/json can encode. *)
Inductive Value : Type :=
| JNull
| JBool (b : bool)
| JNumber (f : float64)
| JString (s : string)
| JArray (v : list Value)
| JObject (v : list (string * Value)).

(** json.RawMessage: the bytes of one JSON document, represented by the
    value tree they denote. *)
Definition RawMessage := Value.

(** The assertion value.([]interface{}). *)
Definition is_array (x : Value) : bool :=
  match x with JArray _ => true | _ => false end.

(** obj[k] on a map[string]interface{}: the zero value nil when the key is
    missing. *)
Fixpoint map_index (obj : list (string * Value)) (k : string) : Value :=
  match obj with
  | [] => JNull
  | (k', x) :: obj' => if String.eqb k' k then x else map_index obj' k
  end.

(** ** Errors *)

(** The error values rpc.go creates with fmt.Errorf, the errors of
    encoding/json and the errors a handler of the target returns.  The
    error that wraps a json.Unmarshal failure of the whole message is
    InvalidMessageFormat, whatever the wrapped detail. *)
Inductive error : Type :=
| StringKeyOnNonObject
| IndexOutOfBounds
| NumericKeyOnNonArray
| InvalidPathKeyType
| NonExistentExport (refExportID : Z)
| InvalidMessageFormat
| EmptyMessage
| InvalidMessageType
| MethodNotFound (method : string)
| JsonError (msg : string)
| TargetError (msg : string).

(** err.Error() *)
Definition Error (e : error) : string :=
  match e with
  | StringKeyOnNonObject => "cannot traverse string key on non-object"
  | IndexOutOfBounds => "array index out of bounds"
  | NumericKeyOnNonArray => "cannot traverse numeric key on non-array"
  | InvalidPathKeyType => "invalid path key type"
  | NonExistentExport refExportID =>
      "pipeline reference to non-existent export: " +:+ pretty refExportID
  | InvalidMessageFormat => "invalid message format"
  | EmptyMessage => "empty message"
  | InvalidMessageType => "invalid message type"
  | MethodNotFound method => "method not found: " +:+ method
  | JsonError msg => msg
  | TargetError msg => msg
  end.

(** Go's (T, error) result pair. *)
Inductive Result (A : Type) : Type :=
| Ok (a : A)
| Err (e : error).
Arguments Ok {A} a.
Arguments Err {A} e.

(** encoding/json on value trees: marshalling a tree and decoding the
    bytes again cannot fail, so the error returns that follow them in
    rpc.go are kept but never taken. *)
Definition json_Marshal (x : Value) : Result RawMessage := Ok x.
Definition json_Unmarshal (data : RawMessage) : Result Value := Ok data.

(** ** traversePath *)

Fixpoint traversePath (current : Value) (path : list Value) : Result Value :=
  match path with
  | [] => Ok current
  | key :: path' =>
      match key with
      | JString k =>
          match current with
          | JObject obj => traversePath (map_index obj k) path'
          | _ => Err StringKeyOnNonObject
          end
      | JNumber k =>
          match current with
          | JArray arr =>
              let idx := int_of_float64 k in
              if (idx <? 0) || (Z.of_nat (length arr) <=? idx)
              then Err IndexOutOfBounds
              else traversePath (default JNull (arr !! Z.to_nat idx)) path'
          | _ => Err NumericKeyOnNonArray
          end
      | _ => Err InvalidPathKeyType
      end
  end.

(** ** Session state *)

Record Operation : Type := mkOperation {
  Method : string;
  Args : RawMessage
}.

Record SessionData : Type := mkSessionData {
  PendingResults : gmap Z Value;
  PendingOperations : gmap Z Operation;
  NextExportID : Z
}.

Definition NewSessionData : SessionData :=
  {| PendingResults := ∅; PendingOperations := ∅; NextExportID := 1 |}.

(** OnOpen resets the three fields. *)
Definition OnOpen (sessionData : SessionData) : SessionData :=
  {| PendingResults := ∅; PendingOperations := ∅; NextExportID := 1 |}.

(** ** handlePush *)

(** The nested type tests of handlePush on a push body: at least three
    elements with "pipeline" first, a number second, a non-empty list
    third whose head is a string.  The fourth element, when present, gives
    the arguments, and "[]" is the default. *)
Definition pipeline_call (pushArray : list Value) : option Operation :=
  match pushArray with
  | p0 :: p1 :: p2 :: rest =>
      match p0 with
      | JString tag =>
          if String.eqb tag "pipeline" then
            match p1 with
            | JNumber importIDFloat =>
                match p2 with
                | JArray (JString method :: _) =>
                    Some {| Method := method;
                            Args := match rest with
                                    | p3 :: _ => p3
                                    | [] => JArray []
                                    end |}
                | _ => None
                end
            | _ => None
            end
          else None
      | _ => None
      end
  | _ => None
  end.

(** handlePush also reports the local exportID it allocated, None on the
    early return. *)
Definition handlePush (sessionData : SessionData) (pushData : Value)
  : option Z * SessionData :=
  match pushData with
  | JArray ((_ :: _) as pushArray) =>
      let exportID := NextExportID sessionData in
      let sessionData :=
        {| PendingResults := PendingResults sessionData;
           PendingOperations := PendingOperations sessionData;
           NextExportID := exportID + 1 |} in
      match pipeline_call pushArray with
      | Some operation =>
          (Some exportID,
           {| PendingResults := PendingResults sessionData;
              PendingOperations :=
                <[exportID := operation]> (PendingOperations sessionData);
              NextExportID := NextExportID sessionData |})
      | None => (Some exportID, sessionData)
      end
  | _ => (None, sessionData)
  end.

(** ** The target and the state a handler runs in *)

(** One call of Target.Dispatch, with the export id it was made for. *)
Record Call : Type := mkCall {
  call_export : Z;
  call_method : string;
  call_args : RawMessage
}.

(** What a handler can change: the session's tables and counter, the
    target's own state (World), and, for stating how often the target is
    called, the list of Dispatch calls made so far, oldest first. *)
Record Machine {World : Type} : Type := mkMachine {
  session : SessionData;
  target : World;
  calls : list Call
}.

Arguments mkMachine {World} session target calls.

Abbreviation pendingResults st := (PendingResults (session st)).
Abbreviation pendingOperations st := (PendingOperations (session st)).

Section Session.

(** The user-supplied RpcTarget.  Its handlers are arbitrary Go code, so a
    call may read and change a state of its own. *)
Context {World : Type}.
Variable Dispatch : string → RawMessage → World → Result Value * World.


Definition with_session (f : SessionData → SessionData) (st : Machine (World:=World))
  : Machine (World:=World) :=
  {| session := f (session st); target := target st; calls := calls st |}.

(** A Go function that may recurse without bound either returns, with its
    (T, error) pair and the state as it left it, or is still running when
    the fuel is used up. *)
Inductive outcome (A : Type) : Type :=
| OutOfFuel
| Done (r : Result A) (st : Machine (World:=World)).
Arguments OutOfFuel {A}.
Arguments Done {A} r st.

Definition M (A : Type) : Type := Machine (World:=World) → outcome A.

Definition ret {A} (a : A) : M A := λ st, Done (Ok a) st.
Definition fail {A} (e : error) : M A := λ st, Done (Err e) st.
Definition lift {A} (r : Result A) : M A := λ st, Done r st.

(** x, err := m; if err != nil { return nil, err }; k x *)
Definition bind {A B} (m : M A) (k : A → M B) : M B :=
  λ st, match m st with
        | OutOfFuel => OutOfFuel
        | Done (Err e) st' => Done (Err e) st'
        | Done (Ok a) st' => k a st'
        end.

Notation "'let*' x ':=' m 'in' k" := (bind m (λ x, k))
  (at level 10, x name, m at level 100, k at level 200).

(** result, err := sessionData.Target.Dispatch(method, args), made for the
    operation of exportID. *)
Definition call_target (exportID : Z) (method : string) (args : RawMessage)
    (st : Machine (World:=World)) : Result Value * Machine (World:=World) :=
  let (r, w) := Dispatch method args (target st) in
  (r, {| session := session st;
         target := w;
         calls := calls st ++ [mkCall exportID method args] |}).

Definition dispatch (exportID : Z) (method : string) (args : RawMessage) : M Value :=
  λ st, let (r, st') := call_target exportID method args st in Done r st'.

(** for i, elem := range v { r, err := f(elem); ...; resolved[i] = r } *)
Fixpoint mapM {A B} (f : A → M B) (l : list A) : M (list B) :=
  match l with
  | [] => ret []
  | x :: l' =>
      let* y := f x in
      let* ys := mapM f l' in
      ret (y :: ys)
  end.

(** ** resolvePipelineReferences *)

(** The test for ["pipeline", exportId, ...]: at least two elements, the
    string "pipeline" first and a number second. *)
Definition pipeline_ref (v : list Value) : option Z :=
  match v with
  | v0 :: v1 :: _ =>
      match v0 with
      | JString pipelineStr =>
          if String.eqb pipelineStr "pipeline" then
            match v1 with
            | JNumber refExportIDFloat => Some (int_of_float64 refExportIDFloat)
            | _ => None
            end
          else None
      | _ => None
      end
  | _ => None
  end.

(** "If there's a path, traverse it": v[2] when it is a list. *)
Definition traverse_ref_path (v : list Value) (result : Value) : Result Value :=
  match v with
  | _ :: _ :: JArray pathArray :: _ => traversePath result pathArray
  | _ => Ok result
  end.

(** "Cache the result": both edits are made under one Lock. *)
Definition cache_result (refExportID : Z) (result : Value) (sessionData : SessionData)
  : SessionData :=
  {| PendingResults := <[refExportID := result]> (PendingResults sessionData);
     PendingOperations := delete refExportID (PendingOperations sessionData);
     NextExportID := NextExportID sessionData |}.

Fixpoint resolvePipelineReferences (fuel : nat) (value : Value) : M Value :=
  match fuel with
  | O => λ _, OutOfFuel
  | S fuel =>
      match value with
      | JArray v =>
          match pipeline_ref v with
          | Some refExportID =>
              λ st,
              match pendingResults st !! refExportID with
              | Some result => Done (traverse_ref_path v result) st
              | None =>
                  match pendingOperations st !! refExportID with
                  | Some operation =>
                      (let* args := lift (json_Unmarshal (Args operation)) in
                       let* resolvedArgs := resolvePipelineReferences fuel args in
                       let* resolvedArgsBytes := lift (json_Marshal resolvedArgs) in
                       let* result :=
                         dispatch refExportID (Method operation) resolvedArgsBytes in
                       λ st, Done (traverse_ref_path v result)
                                  (with_session (cache_result refExportID result) st)) st
                  | None => Done (Err (NonExistentExport refExportID)) st
                  end
              end
          | None =>
              let* resolved := mapM (resolvePipelineReferences fuel) v in
              ret (JArray resolved)
          end
      | JObject v =>
          let* resolved :=
            mapM (λ kv, let* resolvedVal := resolvePipelineReferences fuel kv.2 in
                        ret (kv.1, resolvedVal)) v in
          ret (JObject resolved)
      | _ => ret value
      end
  end.

(** ** handlePull *)

Definition createErrorResponse (exportID : Z) (errorType message : string)
  : list Value :=
  [JString "reject"; JNumber (float64_of_int exportID);
   JArray [JString "error"; JString errorType; JString message]].

(** "Check if the stored result is an error": a list of at least two
    elements whose first is the string "error". *)
Definition is_error_array (result : Value) : bool :=
  match result with
  | JArray (errArray0 :: _ :: _) =>
      match errArray0 with
      | JString errType => String.eqb errType "error"
      | _ => false
      end
  | _ => false
  end.

Definition delete_result (exportID : Z) (sessionData : SessionData) : SessionData :=
  {| PendingResults := delete exportID (PendingResults sessionData);
     PendingOperations := PendingOperations sessionData;
     NextExportID := NextExportID sessionData |}.

Definition delete_operation (exportID : Z) (sessionData : SessionData) : SessionData :=
  {| PendingResults := PendingResults sessionData;
     PendingOperations := delete exportID (PendingOperations sessionData);
     NextExportID := NextExportID sessionData |}.

Definition store_result (exportID : Z) (result : Value) (sessionData : SessionData)
  : SessionData :=
  {| PendingResults := <[exportID := result]> (PendingResults sessionData);
     PendingOperations := PendingOperations sessionData;
     NextExportID := NextExportID sessionData |}.

(** handlePull's error result is always nil, so its outcome is always an
    Ok response. *)
Definition handlePull (fuel : nat) (exportID : Z) : M (list Value) :=
  λ st,
  match pendingResults st !! exportID with
  | Some result =>
      let st := with_session (delete_result exportID) st in
      if is_error_array result then
        Done (Ok [JString "reject"; JNumber (float64_of_int exportID); result]) st
      else
        match result with
        | JArray _ =>
            Done (Ok [JString "resolve"; JNumber (float64_of_int exportID);
                      JArray [result]]) st
        | _ =>
            Done (Ok [JString "resolve"; JNumber (float64_of_int exportID);
                      result]) st
        end
  | None =>
      match pendingOperations st !! exportID with
      | Some operation =>
          match json_Unmarshal (Args operation) with
          | Err err =>
              Done (Ok (createErrorResponse exportID "ArgumentError" (Error err))) st
          | Ok args =>
              match resolvePipelineReferences fuel args st with
              | OutOfFuel => OutOfFuel
              | Done (Err err) st =>
                  Done (Ok (createErrorResponse exportID "PipelineError" (Error err))) st
              | Done (Ok resolvedArgs) st =>
                  match json_Marshal resolvedArgs with
                  | Err err =>
                      Done (Ok (createErrorResponse exportID "SerializationError"
                                  (Error err))) st
                  | Ok resolvedArgsBytes =>
                      let (r, st) :=
                        call_target exportID (Method operation) resolvedArgsBytes st in
                      let st := with_session (delete_operation exportID) st in
                      match r with
                      | Err err =>
                          Done (Ok (createErrorResponse exportID "MethodError"
                                      (Error err))) st
                      | Ok result =>
                          let st := with_session (store_result exportID result) st in
                          match result with
                          | JArray _ =>
                              Done (Ok [JString "resolve";
                                        JNumber (float64_of_int exportID);
                                        JArray [result]]) st
                          | _ =>
                              Done (Ok [JString "resolve";
                                        JNumber (float64_of_int exportID);
                                        result]) st
                          end
                      end
                  end
              end
          end
      | None =>
          Done (Ok [JString "reject"; JNumber (float64_of_int exportID);
                    JArray [JString "error"; JString "ExportNotFound";
                            JString "Export ID not found"]]) st
      end
  end.

(** ** handleRelease, handleAbort *)

(** Both only write to the log, which is not part of the state. *)
Definition handleRelease (sessionData : SessionData) (exportID refcount : Z)
  : SessionData := sessionData.

Definition handleAbort (sessionData : SessionData) (errorData : Value)
  : SessionData := sessionData.

(** ** HandleMessage *)

(** json.Unmarshal([]byte(message), &msg) with msg a []interface{}: a text
    that is not JSON (None) and a document that is not a list are errors;
    the document null leaves the nil slice. *)
Definition unmarshal_message (message : option Value) : Result (list Value) :=
  match message with
  | Some (JArray msg) => Ok msg
  | Some JNull => Ok []
  | _ => Err InvalidMessageFormat
  end.

(** The (string, error) pair: Ok None is the empty string, "no response". *)
Definition HandleMessage (fuel : nat) (message : option Value) : M (option Value) :=
  match unmarshal_message message with
  | Err err => fail err
  | Ok [] => fail EmptyMessage
  | Ok (JString messageType :: payload) =>
      if String.eqb messageType "push" then
        match payload with
        | pushData :: _ =>
            λ st, Done (Ok None) (with_session (λ sd, (handlePush sd pushData).2) st)
        | [] => ret None
        end
      else if String.eqb messageType "pull" then
        match payload with
        | JNumber exportIDFloat :: _ =>
            let* response := handlePull fuel (int_of_float64 exportIDFloat) in
            let* responseBytes := lift (json_Marshal (JArray response)) in
            ret (Some responseBytes)
        | _ => ret None
        end
      else if String.eqb messageType "release" then
        match payload with
        | JNumber exportIDFloat :: JNumber refcountFloat :: _ =>
            λ st, Done (Ok None)
                       (with_session
                          (λ sd, handleRelease sd (int_of_float64 exportIDFloat)
                                               (int_of_float64 refcountFloat)) st)
        | _ => ret None
        end
      else if String.eqb messageType "abort" then
        match payload with
        | errorData :: _ =>
            λ st, Done (Ok None) (with_session (λ sd, handleAbort sd errorData) st)
        | [] => ret None
        end
      else ret None
  | Ok (_ :: _) => fail InvalidMessageType
  end.

(** ** The transports' message loop (server.go) *)

(** Both endpoints feed the messages of a session to HandleMessage in
    order; an error is logged and the loop continues, a non-empty response
    is sent (WebSocket) or collected (HTTP batch). *)
Fixpoint serve (fuel : nat) (messages : list (option Value))
    (st : Machine (World:=World)) : option (list Value * Machine (World:=World)) :=
  match messages with
  | [] => Some ([], st)
  | message :: messages' =>
      match HandleMessage fuel message st with
      | OutOfFuel => None
      | Done r st' =>
          match serve fuel messages' st' with
          | None => None
          | Some (responses, st'') =>
              Some (match r with
                    | Ok (Some response) => response :: responses
                    | _ => responses
                    end, st'')
          end
      end
  end.

Definition is_ok {A} (r : Result A) : bool :=
  match r with Ok _ => true | Err _ => false end.

(** The runs of the range loop: every element succeeds, or the loop
    returns at the first element that fails. *)
Inductive mapM_run {A B} (f : A → M B)
  : list A → Machine (World:=World) → Result (list B) →
    Machine (World:=World) → Prop :=
| mapM_run_nil st : mapM_run f [] st (Ok []) st
| mapM_run_ok x l st y st1 ys st2 :
    f x st = Done (Ok y) st1 →
    mapM_run f l st1 (Ok ys) st2 →
    mapM_run f (x :: l) st (Ok (y :: ys)) st2
| mapM_run_here x l st e st1 :
    f x st = Done (Err e) st1 →
    mapM_run f (x :: l) st (Err e) st1
| mapM_run_later x l st y st1 e st2 :
    f x st = Done (Ok y) st1 →
    mapM_run f l st1 (Err e) st2 →
    mapM_run f (x :: l) st (Err e) st2.

End Session.

Arguments OutOfFuel {World A}.
Arguments Done {World A} r st.

Notation "'let*' x ':=' m 'in' k" := (bind m (λ x, k))
  (at level 10, x name, m at level 100, k at level 200).

(** ** Notions the properties are stated with *)

(** The wire messages of the protocol. *)
Definition push_message (pushData : Value) : option Value :=
  Some (JArray [JString "push"; pushData]).
Definition pull_message (exportID : Z) : option Value :=
  Some (JArray [JString "pull"; JNumber (float64_of_int exportID)]).
Definition resolve_response (exportID : Z) (payload : Value) : list Value :=
  [JString "resolve"; JNumber (float64_of_int exportID); payload].
Definition reject_response (exportID : Z) (errorValue : Value) : list Value :=
  [JString "reject"; JNumber (float64_of_int exportID); errorValue].
Definition export_not_found (exportID : Z) : list Value :=
  reject_response exportID
    (JArray [JString "error"; JString "ExportNotFound"; JString "Export ID not found"]).

(** The array-escaping rule: a list is wrapped in a one-element list. *)
Definition escape_array (result : Value) : Value :=
  if is_array result then JArray [result] else result.

Definition is_reject (response : list Value) : Prop :=
  ∃ rest, response = JString "reject" :: rest.
Definition is_resolve (response : list Value) : Prop :=
  ∃ rest, response = JString "resolve" :: rest.

(** A pipeline reference ["pipeline", id] or ["pipeline", id, path]. *)
Definition pipeline (refExportID : Z) (path : list Value) : Value :=
  JArray [JString "pipeline"; JNumber (float64_of_int refExportID); JArray path].

(** The push body ["pipeline", importId, [method], args]. *)
Definition call_body (method : string) (args : Value) : Value :=
  JArray [JString "pipeline"; JNumber (float64_of_int 0);
          JArray [JString method]; args].


(** The spec's two kinds of path-walking failure, and the errors of
    traversePath they name. *)
Inductive PathErrorKind : Type := PathOutOfBounds | BadPath.

Definition path_error_kind (e : error) : option PathErrorKind :=
  match e with
  | IndexOutOfBounds => Some PathOutOfBounds
  | StringKeyOnNonObject | NumericKeyOnNonArray | InvalidPathKeyType => Some BadPath
  | _ => None
  end.

(** The export ids of the pipeline references the resolver meets in a
    tree.  It looks neither inside a reference nor inside a cached result. *)
Fixpoint refs (value : Value) : list Z :=
  match value with
  | JArray v =>
      match pipeline_ref v with
      | Some refExportID => [refExportID]
      | None => flat_map refs v
      end
  | JObject v => flat_map (λ kv, refs kv.2) v
  | _ => []
  end.

(** Each export id is in at most one of the two tables. *)
Definition tables_disjoint (sessionData : SessionData) : Prop :=
  ∀ i, ¬ (is_Some (PendingOperations sessionData !! i) ∧
          is_Some (PendingResults sessionData !! i)).

(** Every id in a table is a positive id below the counter. *)
Definition ids_below_next (sessionData : SessionData) : Prop :=
  ∀ i, is_Some (PendingOperations sessionData !! i) ∨
       is_Some (PendingResults sessionData !! i) →
       1 ≤ i < NextExportID sessionData.

Definition session_invariant (sessionData : SessionData) : Prop :=
  1 ≤ NextExportID sessionData ∧
  tables_disjoint sessionData ∧
  ids_below_next sessionData.

(** The args of every pending operation refer to smaller ids only, as
    they do when a client refers to calls it has pushed before. *)
Definition refs_to_earlier (sessionData : SessionData) : Prop :=
  ∀ i operation, PendingOperations sessionData !! i = Some operation →
    0 < i ∧ ∀ j, j ∈ refs (Args operation) → j < i.

Section Runs.

Context {World : Type}.
Variable Dispatch : string → RawMessage → World → Result Value * World.

(** The Dispatch calls made between two states of one run. *)
Definition new_calls (st st' : Machine (World:=World)) : list Call :=
  drop (length (calls st)) (calls st').

Definition dispatched (st st' : Machine (World:=World)) : list Z :=
  call_export <$> new_calls st st'.

(** What a run of the resolver that made the calls cs can have done to
    the state; ok tells whether it returned without error. *)
Record progress (ok : bool) (st : Machine (World:=World)) (cs : list Call)
    (st' : Machine (World:=World)) : Prop := mkProgress {
  pr_calls : calls st' = calls st ++ cs;
  pr_next : NextExportID (session st') = NextExportID (session st);
  pr_pending : ∀ i operation,
    pendingOperations st' !! i = Some operation →
    pendingOperations st !! i = Some operation;
  pr_results : ∀ i result,
    pendingResults st !! i = Some result → pendingResults st' !! i = Some result;
  pr_frame : ∀ i, i ∉ call_export <$> cs →
    pendingOperations st' !! i = pendingOperations st !! i ∧
    pendingResults st' !! i = pendingResults st !! i;
  pr_was_pending : ∀ i, i ∈ call_export <$> cs →
    is_Some (pendingOperations st !! i) ∧ pendingResults st !! i = None;
  pr_moved : ok = true → ∀ i, i ∈ call_export <$> cs →
    pendingOperations st' !! i = None ∧ is_Some (pendingResults st' !! i);
  pr_once : ∀ i, i ∈ call_export <$> cs →
    pendingOperations st' !! i = None ∨ pendingResults st' !! i = None
}.

(** Resolving value in st can lead the resolver to the pending operation
    of j, through references to pending operations that have no result
    yet. *)
Inductive reaches (st : Machine (World:=World)) : Value → Z → Prop :=
| reaches_here value j operation :
    j ∈ refs value →
    pendingOperations st !! j = Some operation →
    pendingResults st !! j = None →
    reaches st value j
| reaches_step value k operation j :
    k ∈ refs value →
    pendingOperations st !! k = Some operation →
    pendingResults st !! k = None →
    reaches st (Args operation) j →
    reaches st value j.

(** A set of pending operations without results, each of which refers to
    one of the set. *)
Definition blocked (st : Machine (World:=World)) (K : Z → Prop) : Prop :=
  ∀ k, K k → ∃ operation,
    pendingOperations st !! k = Some operation ∧
    pendingResults st !! k = None ∧
    ∃ k', K k' ∧ k' ∈ refs (Args operation).

(** The references of value to pending operations are to ids below n. *)
Definition refs_bounded (n : nat) (value : Value) (st : Machine (World:=World))
  : Prop :=
  ∀ j, j ∈ refs value → is_Some (pendingOperations st !! j) →
       (Z.to_nat j < n)%nat.

(** The id is in neither table, and a pull of it yields ExportNotFound. *)
Definition unknown_after (exportID : Z) (st : Machine (World:=World)) : Prop :=
  pendingOperations st !! exportID = None ∧
  pendingResults st !! exportID = None ∧
  ∀ fuel, handlePull Dispatch fuel exportID st
          = Done (Ok (export_not_found exportID)) st.

(** One message handled by the session. *)
Definition message_step (st st' : Machine (World:=World)) : Prop :=
  ∃ fuel message r, HandleMessage Dispatch fuel message st = Done r st'.

(** The states of a session's life: it starts from NewSessionData or
    OnOpen, handles messages one after the other, and while it handles a
    pull it runs the resolver. *)
Inductive session_state : Machine (World:=World) → Prop :=
| life_new w cs : session_state (mkMachine NewSessionData w cs)
| life_open st : session_state st → session_state (with_session OnOpen st)
| life_message st st' :
    session_state st → message_step st st' → session_state st'
| life_resolve st fuel value r st' :
    session_state st →
    resolvePipelineReferences Dispatch fuel value st = Done r st' →
    session_state st'.

End Runs.

(** ** BaseRpcTarget *)

(** A registered handler, func(json.RawMessage) (interface{}, error): Go
    code that may read and change the state World it closes over. *)
Definition Handler (World : Type) : Type :=
  RawMessage → World → Result Value * World.

(** The methods map of a BaseRpcTarget. *)
Definition BaseRpcTarget (World : Type) : Type := gmap string (Handler World).

Definition NewBaseRpcTarget {World : Type} : BaseRpcTarget World := ∅.

Definition Method_register {World : Type} (t : BaseRpcTarget World)
    (name : string) (handler : Handler World) : BaseRpcTarget World :=
  <[name := handler]> t.

Definition BaseRpcTarget_Dispatch {World : Type} (t : BaseRpcTarget World)
    (method : string) (args : RawMessage) (w : World) : Result Value * World :=
  match t !! method with
  | Some handler => handler args w
  | None => (Err (MethodNotFound method), w)
  end.

(** ** A target to run the examples with *)

(** A BaseRpcTarget in the style of examples/helloworld: hello greets,
    getNotes returns a list, get returns a record and echo returns its
    only argument.  Every handler counts the call in the target's state. *)
Definition example_handler (f : RawMessage → Result Value) : Handler nat :=
  λ args n, (f args, S n).

Definition example_target : BaseRpcTarget nat :=
  Method_register
    (Method_register
       (Method_register
          (Method_register NewBaseRpcTarget "hello"
             (example_handler (λ args,
                match args with
                | JArray [] => Ok (JString "Hello, World!")
                | JArray (JString name :: _) =>
                    Ok (JString ("Hello, " +:+ name +:+ "!"))
                | _ => Err (JsonError "json: cannot unmarshal into []string")
                end)))
          "getNotes"
          (example_handler (λ _, Ok (JArray [JString "a"; JString "b"]))))
       "get"
       (example_handler (λ _,
          Ok (JObject [("a", JArray [JNumber (inject_Z 10); JNumber (inject_Z 20);
                                     JNumber (inject_Z 30)])]))))
    "echo"
    (example_handler (λ args,
       match args with
       | JArray [x] => Ok x
       | _ => Ok args
       end)).

Definition example_Dispatch : string → RawMessage → nat → Result Value * nat :=
  BaseRpcTarget_Dispatch example_target.

Definition example_start : Machine := mkMachine NewSessionData 0%nat [].

(** The pushes of the examples. *)
Definition example_hello : Value := call_body "hello" (JArray [JString "World"]).
Definition example_notes : Value := call_body "getNotes" (JArray []).
Definition example_get : Value := call_body "get" (JArray []).
Definition example_dangling : Value := call_body "echo" (JArray [pipeline 42 []]).
Definition example_self : Value := call_body "echo" (JArray [pipeline 1 []]).
Definition example_dangling_self : Value :=
  call_body "echo" (JArray [pipeline 42 []; pipeline 1 []]).
Definition example_diamond : Value :=
  call_body "echo"
    (JArray [JArray [pipeline 1 [JString "a"; JNumber (float64_of_int 0)];
                     pipeline 1 [JString "a"; JNumber (float64_of_int 1)]]]).

(** The session after one push of body. *)
Definition example_pushed (method : string) (args : Value) : Machine :=
  mkMachine {| PendingResults := ∅;
               PendingOperations := {[1 := mkOperation method args]};
               NextExportID := 2 |} 0%nat [].

(** After the push of hello and one pull of id 1. *)
Definition example_hello_pulled : Machine :=
  mkMachine {| PendingResults := {[1 := JString "Hello, World!"]};
               PendingOperations := ∅;
               NextExportID := 2 |} 1%nat
            [mkCall 1 "hello" (JArray [JString "World"])].

(** After the pushes of get and of the diamond, and after the pull of 2. *)
Definition example_diamond_pushed : Machine :=
  mkMachine {| PendingResults := ∅;
               PendingOperations :=
                 {[1 := mkOperation "get" (JArray []);
                   2 := mkOperation "echo"
                          (JArray [JArray
                             [pipeline 1 [JString "a"; JNumber (float64_of_int 0)];
                              pipeline 1 [JString "a"; JNumber (float64_of_int 1)]]])]};
               NextExportID := 3 |} 0%nat [].

Definition example_diamond_pulled : Machine :=
  mkMachine {| PendingResults :=
                 {[1 := JObject [("a", JArray [JNumber (inject_Z 10);
                                               JNumber (inject_Z 20);
                                               JNumber (inject_Z 30)])];
                   2 := JArray [JNumber (inject_Z 10); JNumber (inject_Z 20)]]};
               PendingOperations := ∅;
               NextExportID := 3 |} 2%nat
            [mkCall 1 "get" (JArray []);
             mkCall 2 "echo"
               (JArray [JArray [JNumber (inject_Z 10); JNumber (inject_Z 20)]])].

(** * Further notions: the rest of rpc.go, server.go and the examples *)

(** y is x itself or lies somewhere inside x. *)
Inductive subvalue (y : Value) : Value → Prop :=
| subvalue_here : subvalue y y
| subvalue_array v x : x ∈ v → subvalue y x → subvalue y (JArray v)
| subvalue_object (fields : list (string * Value)) k x :
    (k, x) ∈ fields → subvalue y x → subvalue y (JObject fields).

(** The messages HandleMessage acts on: a push whose body is a non-empty
    list, and a pull whose second element is a number. *)
Definition effective (message : option Value) : bool :=
  match message with
  | Some (JArray (JString messageType :: payload)) =>
      if String.eqb messageType "push" then
        match payload with
        | JArray (_ :: _) :: _ => true
        | _ => false
        end
      else if String.eqb messageType "pull" then
        match payload with
        | JNumber _ :: _ => true
        | _ => false
        end
      else false
  | _ => false
  end.

(** The export id a message pulls. *)
Definition pulled_id (message : option Value) : option Z :=
  match message with
  | Some (JArray (JString messageType :: JNumber exportIDFloat :: _)) =>
      if String.eqb messageType "pull"
      then Some (int_of_float64 exportIDFloat) else None
  | _ => None
  end.

(** The export id a response answers: the second element of a
    three-element list tagged "resolve" or "reject". *)
Definition response_id (response : Value) : option Z :=
  match response with
  | JArray [JString tag; JNumber exportIDFloat; _] =>
      if String.eqb tag "resolve" || String.eqb tag "reject"
      then Some (int_of_float64 exportIDFloat) else None
  | _ => None
  end.

(** The call was made for an operation that was pending without a result
    in st, with the method that was pushed for it. *)
Definition call_of_pending {World : Type} (st : Machine (World:=World)) (c : Call)
  : Prop :=
  ∃ operation,
    pendingOperations st !! call_export c = Some operation ∧
    pendingResults st !! call_export c = None ∧
    call_method c = Method operation.


(** ** examples/bluesky: sanitizeJSON *)

(** newKey: a key whose first byte is '$' gets '_' in its place. *)
Definition sanitize_key (key : string) : string :=
  match key with
  | String c rest => if Ascii.eqb c "$"%char then String "_"%char rest else key
  | EmptyString => key
  end.

(** result[k] = x on a map kept as the list of its entries: the entry of
    k is replaced where it is, a new key is added at the end. *)
Fixpoint map_store (result : list (string * Value)) (k : string) (x : Value)
  : list (string * Value) :=
  match result with
  | [] => [(k, x)]
  | (k', y) :: result' =>
      if String.eqb k' k then (k, x) :: result'
      else (k', y) :: map_store result' k x
  end.

(** The range over the map visits the entries in the order of the list. *)
Fixpoint sanitizeJSON (data : Value) : Value :=
  match data with
  | JObject v =>
      JObject (fold_left (λ result kv,
                            map_store result (sanitize_key kv.1) (sanitizeJSON kv.2))
                         v [])
  | JArray v => JArray (map sanitizeJSON v)
  | _ => data
  end.

(** The key starts with '$'. *)
Definition dollar_key (key : string) : bool :=
  match key with
  | String c _ => Ascii.eqb c "$"%char
  | EmptyString => false
  end.

(** The keys of all the objects in a tree. *)
Fixpoint keys (data : Value) : list string :=
  match data with
  | JObject v => flat_map (λ kv, kv.1 :: keys kv.2) v
  | JArray v => flat_map keys v
  | _ => []
  end.

(** No key of the tree starts with '$', and no object of the tree has a
    key twice (as no Go map has). *)
Fixpoint clean (data : Value) : bool :=
  match data with
  | JObject v =>
      forallb (λ kv, negb (dollar_key kv.1) && clean kv.2) v
      && bool_decide (NoDup (v.*1))
  | JArray v => forallb clean v
  | _ => true
  end.

(** ** examples/helloworld: the hello method *)

(** The name encoding/json gives the kind of a JSON value in an
    UnmarshalTypeError. *)
Definition json_kind (x : Value) : string :=
  match x with
  | JNull => "null"
  | JBool _ => "bool"
  | JNumber _ => "number"
  | JString _ => "string"
  | JArray _ => "array"
  | JObject _ => "object"
  end.

(** json.Unmarshal(args, &argArray) with argArray a []string: null leaves
    the nil slice; a list is decoded element by element, a string to
    itself and null to the empty string; every other value is an
    UnmarshalTypeError, of which the first is returned. *)
Definition unmarshal_string (x : Value) : Result string :=
  match x with
  | JString s => Ok s
  | JNull => Ok ""
  | _ => Err (JsonError ("json: cannot unmarshal " +:+ json_kind x
                         +:+ " into Go value of type string"))
  end.

Fixpoint unmarshal_string_list (v : list Value) : Result (list string) :=
  match v with
  | [] => Ok []
  | x :: v' =>
      match unmarshal_string x, unmarshal_string_list v' with
      | Ok s, Ok l => Ok (s :: l)
      | Err e, _ => Err e
      | Ok _, Err e => Err e
      end
  end.

Definition unmarshal_strings (args : RawMessage) : Result (list string) :=
  match args with
  | JNull => Ok []
  | JArray v => unmarshal_string_list v
  | _ => Err (JsonError ("json: cannot unmarshal " +:+ json_kind args
                         +:+ " into Go value of type []string"))
  end.

(** The handler NewHelloServer registers; it has no state of its own. *)
Definition hello (args : RawMessage) : Result Value :=
  match unmarshal_strings args with
  | Err err => Err err
  | Ok argArray =>
      match argArray with
      | [] => Ok (JString "Hello, World!")
      | name :: _ => Ok (JString ("Hello, " +:+ name +:+ "!"))
      end
  end.

Definition NewHelloServer {World : Type} : BaseRpcTarget World :=
  Method_register NewBaseRpcTarget "hello" (λ args w, (hello args, w)).

(** ** The counter as a Go int *)

(** Go's int on a 64-bit platform: the integers from int_min to int_max,
    with arithmetic that wraps around at both ends. *)
Definition int_min : Z := - 2 ^ 63.
Definition int_max : Z := 2 ^ 63 - 1.
Definition int_wrap (z : Z) : Z := (z - int_min) mod 2 ^ 64 + int_min.

(** handlePush with NextExportID as the int it is: the increment wraps
    around, and the function returns nothing.  Below int_max it is
    handlePush; the session core above counts in Z, which is the same
    until the counter of a session reaches int_max. *)
Definition handlePush_int (sessionData : SessionData) (pushData : Value)
  : SessionData :=
  match pushData with
  | JArray ((_ :: _) as pushArray) =>
      let exportID := NextExportID sessionData in
      let sessionData :=
        {| PendingResults := PendingResults sessionData;
           PendingOperations := PendingOperations sessionData;
           NextExportID := int_wrap (exportID + 1) |} in
      match pipeline_call pushArray with
      | Some operation =>
          {| PendingResults := PendingResults sessionData;
             PendingOperations :=
               <[exportID := operation]> (PendingOperations sessionData);
             NextExportID := NextExportID sessionData |}
      | None => sessionData
      end
  | _ => sessionData
  end.

(** * Facts *)

(** ** Numbers *)

Lemma int_of_float64_of_int (n : Z) : int_of_float64 (float64_of_int n) = n.
Proof. unfold int_of_float64, float64_of_int. simpl. apply Z.quot_1_r. Qed.

Section Facts.

Context {World : Type}.
Variable Dispatch : string → RawMessage → World → Result Value * World.

Local Abbreviation resolve := (resolvePipelineReferences Dispatch).
Local Abbreviation Machine := (Machine (World:=World)).

Implicit Types (st : Machine) (cs : list Call) (v : list Value).

(** ** Reading the monad *)

Lemma bind_Done {A B} (m : M A) (k : A → M B) st r st' :
  bind m k st = Done r st' ↔
  (∃ e, m st = Done (Err e) st' ∧ r = Err e) ∨
  (∃ a st1, m st = Done (Ok a) st1 ∧ k a st1 = Done r st').
Proof.
  unfold bind. destruct (m st) as [|[a|e] st1]; split; intros H.
  - discriminate.
  - destruct H as [(e & H & _)|(a & st1 & H & _)]; discriminate.
  - right. eauto.
  - destruct H as [(e & H & _)|(a' & st1' & H & Hk)]; [discriminate|]. congruence.
  - left. exists e. split; congruence.
  - destruct H as [(e' & H & ->)|(a' & st1' & H & _)]; [congruence|discriminate].
Qed.

Lemma mapM_Done {A B} (f : A → M B) l st r st' :
  mapM f l st = Done r st' ↔ mapM_run f l st r st'.
Proof.
  split.
  - revert st r st'. induction l as [|x l IH]; intros st r st' H; simpl in H.
    + inversion H; subst. constructor.
    + apply bind_Done in H as [(e & Hx & ->)|(y & st1 & Hx & H)].
      * by apply mapM_run_here.
      * apply bind_Done in H as [(e & Hl & ->)|(ys & st2 & Hl & H)].
        -- eapply mapM_run_later; eauto.
        -- inversion H; subst. eapply mapM_run_ok; eauto.
  - induction 1 as [st|x l st y st1 ys st2 Hx _ IH|x l st e st1 Hx
                   |x l st y st1 e st2 Hx _ IH]; simpl.
    + done.
    + unfold bind at 1. rewrite Hx. unfold bind at 1. by rewrite IH.
    + unfold bind at 1. by rewrite Hx.
    + unfold bind at 1. rewrite Hx. unfold bind at 1. by rewrite IH.
Qed.

(** A run of the loop with f is a run with any g that returns what f
    returns. *)
Lemma mapM_run_mono {A B} (f g : A → M B) l st r st' :
  (∀ x st r st', x ∈ l → f x st = Done r st' → g x st = Done r st') →
  mapM_run f l st r st' → mapM_run g l st r st'.
Proof.
  intros Hfg Hrun. induction Hrun.
  - constructor.
  - eapply mapM_run_ok; [apply Hfg; [left|done]|].
    apply IHHrun. intros. apply Hfg; [by right|done].
  - eapply mapM_run_here. apply Hfg; [left|done].
  - eapply mapM_run_later; [apply Hfg; [left|done]|].
    apply IHHrun. intros. apply Hfg; [by right|done].
Qed.

(** One call of resolvePipelineReferences, with the early returns of the
    source written out. *)
Lemma resolve_S fuel value st :
  resolve (S fuel) value st =
  match value with
  | JArray v =>
      match pipeline_ref v with
      | Some refExportID =>
          match pendingResults st !! refExportID with
          | Some result => Done (traverse_ref_path v result) st
          | None =>
              match pendingOperations st !! refExportID with
              | Some operation =>
                  match resolve fuel (Args operation) st with
                  | OutOfFuel => OutOfFuel
                  | Done (Err e) st1 => Done (Err e) st1
                  | Done (Ok resolvedArgs) st1 =>
                      match call_target Dispatch refExportID (Method operation)
                              resolvedArgs st1 with
                      | (Err e, st2) => Done (Err e) st2
                      | (Ok result, st2) =>
                          Done (traverse_ref_path v result)
                               (with_session (cache_result refExportID result) st2)
                      end
                  end
              | None => Done (Err (NonExistentExport refExportID)) st
              end
          end
      | None =>
          match mapM (resolve fuel) v st with
          | OutOfFuel => OutOfFuel
          | Done (Err e) st' => Done (Err e) st'
          | Done (Ok resolved) st' => Done (Ok (JArray resolved)) st'
          end
      end
  | JObject v =>
      match mapM (λ kv, let* resolvedVal := resolve fuel kv.2 in
                        ret (kv.1, resolvedVal)) v st with
      | OutOfFuel => OutOfFuel
      | Done (Err e) st' => Done (Err e) st'
      | Done (Ok resolved) st' => Done (Ok (JObject resolved)) st'
      end
  | _ => Done (Ok value) st
  end.
Proof.
  destruct value as [| b | f | s | v | v]; simpl; try done.
  - destruct (pipeline_ref v) as [refExportID|].
    + destruct (pendingResults st !! refExportID); [done|].
      destruct (pendingOperations st !! refExportID) as [operation|]; [|done].
      unfold bind, lift, json_Unmarshal, json_Marshal, dispatch.
      destruct (resolve fuel (Args operation) st) as [|[a|e] st1]; try done.
      by destruct (call_target _ _ _ _ _) as [[result|e] st2].
    + unfold bind. by destruct (mapM _ v st) as [|[a|e] st1].
Qed.

Lemma resolve_field_Done fuel (kv : string * Value) st r st' :
  (let* resolvedVal := resolve fuel kv.2 in ret (kv.1, resolvedVal)) st = Done r st' →
  ∃ r0, resolve fuel kv.2 st = Done r0 st' ∧ is_ok r0 = is_ok r.
Proof.
  intros [(e & H & ->)|(a & st1 & H & H1)]%bind_Done.
  - by exists (Err e).
  - inversion H1; subst. by exists (Ok a).
Qed.

(** ** What a run of the resolver does to the state *)

Lemma progress_refl ok st : progress ok st [] st.
Proof.
  split; try done; try (intros; simpl in *; set_solver).
  by rewrite app_nil_r.
Qed.

Lemma progress_weaken ok st cs st' :
  progress ok st cs st' → progress false st cs st'.
Proof. intros []. split; try done. Qed.

Lemma progress_trans ok st cs1 st1 cs2 st2 :
  progress true st cs1 st1 → progress ok st1 cs2 st2 →
  progress ok st (cs1 ++ cs2) st2.
Proof.
  intros H1 H2. split.
  - rewrite (pr_calls _ _ _ _ H2), (pr_calls _ _ _ _ H1). by rewrite app_assoc.
  - rewrite (pr_next _ _ _ _ H2). apply (pr_next _ _ _ _ H1).
  - intros i op Hi. eapply (pr_pending _ _ _ _ H1), (pr_pending _ _ _ _ H2), Hi.
  - intros i x Hi. eapply (pr_results _ _ _ _ H2), (pr_results _ _ _ _ H1), Hi.
  - intros i Hi. rewrite fmap_app, elem_of_app in Hi.
    destruct (pr_frame _ _ _ _ H1 i) as [E1 E2]; [tauto|].
    destruct (pr_frame _ _ _ _ H2 i) as [E3 E4]; [tauto|].
    split; congruence.
  - intros i Hi. rewrite fmap_app, elem_of_app in Hi. destruct Hi as [Hi|Hi].
    + by apply (pr_was_pending _ _ _ _ H1).
    + destruct (pr_was_pending _ _ _ _ H2 i Hi) as [[op Hop] Hres]. split.
      * exists op. by apply (pr_pending _ _ _ _ H1).
      * destruct (pendingResults st !! i) as [x|] eqn:Hx; [|done].
        apply (pr_results _ _ _ _ H1) in Hx. congruence.
  - intros Hok i Hi. rewrite fmap_app, elem_of_app in Hi. destruct Hi as [Hi|Hi].
    + destruct (pr_moved _ _ _ _ H1 eq_refl i Hi) as [Hop [x Hx]]. split.
      * destruct (pendingOperations st2 !! i) as [op|] eqn:Hop2; [|done].
        apply (pr_pending _ _ _ _ H2) in Hop2. congruence.
      * exists x. by apply (pr_results _ _ _ _ H2).
    + by apply (pr_moved _ _ _ _ H2).
  - intros i Hi. rewrite fmap_app, elem_of_app in Hi. destruct Hi as [Hi|Hi].
    + destruct (pr_moved _ _ _ _ H1 eq_refl i Hi) as [Hop _]. left.
      destruct (pendingOperations st2 !! i) as [op|] eqn:Hop2; [|done].
      apply (pr_pending _ _ _ _ H2) in Hop2. congruence.
    + by apply (pr_once _ _ _ _ H2).
Qed.

Lemma call_target_session exportID method args st r st2 :
  call_target Dispatch exportID method args st = (r, st2) →
  session st2 = session st ∧ calls st2 = calls st ++ [mkCall exportID method args].
Proof.
  unfold call_target. destruct (Dispatch _ _ _) as [r' w]. by intros [= <- <-].
Qed.

(** A run followed by a call for an operation that was pending without a
    result when the run started. *)
Lemma progress_dispatch j operation args st cs1 st1 r st2 :
  progress true st cs1 st1 →
  pendingOperations st !! j = Some operation →
  pendingResults st !! j = None →
  call_target Dispatch j (Method operation) args st1 = (r, st2) →
  progress false st (cs1 ++ [mkCall j (Method operation) args]) st2.
Proof.
  intros H1 Hop Hres [Hs Hc]%call_target_session.
  destruct H1. split; rewrite ?Hs; try done.
  - by rewrite Hc, pr_calls0, app_assoc.
  - intros i Hi. apply pr_frame0. rewrite fmap_app, elem_of_app in Hi. tauto.
  - intros i Hi. rewrite fmap_app, elem_of_app in Hi. destruct Hi as [Hi|Hi]; [auto|].
    simpl in Hi. apply list_elem_of_singleton in Hi as ->. eauto.
  - intros i Hi. destruct (decide (i ∈ call_export <$> cs1)) as [Hin|Hnin].
    + left. by apply pr_moved0.
    + rewrite fmap_app, elem_of_app in Hi. destruct Hi as [Hi|Hi]; [done|].
      simpl in Hi. apply list_elem_of_singleton in Hi as ->.
      right. destruct (pr_frame0 j Hnin) as [_ ->]. done.
Qed.

(** The same when the call succeeds and its result is cached. *)
Lemma progress_cache j operation args st cs1 st1 result st2 :
  progress true st cs1 st1 →
  pendingOperations st !! j = Some operation →
  pendingResults st !! j = None →
  call_target Dispatch j (Method operation) args st1 = (Ok result, st2) →
  progress true st (cs1 ++ [mkCall j (Method operation) args])
           (with_session (cache_result j result) st2).
Proof.
  intros H1 Hop Hres [Hs Hc]%call_target_session.
  destruct H1. split; simpl; rewrite ?Hs; try done.
  - by rewrite Hc, pr_calls0, app_assoc.
  - intros i op. rewrite lookup_delete. case_decide; [done|]. auto.
  - intros i x Hi. rewrite lookup_insert_ne; [auto|congruence].
  - intros i Hi. rewrite fmap_app, elem_of_app in Hi. simpl in Hi.
    rewrite list_elem_of_singleton in Hi.
    rewrite lookup_delete_ne, lookup_insert_ne by (intros ->; tauto).
    apply pr_frame0. tauto.
  - intros i Hi. rewrite fmap_app, elem_of_app in Hi. destruct Hi as [Hi|Hi]; [auto|].
    simpl in Hi. apply list_elem_of_singleton in Hi as ->. eauto.
  - intros _ i Hi. destruct (decide (i = j)) as [->|Hne].
    + rewrite lookup_delete_eq, lookup_insert_eq. eauto.
    + rewrite lookup_delete_ne, lookup_insert_ne by done.
      rewrite fmap_app, elem_of_app in Hi. destruct Hi as [Hi|Hi]; [auto|].
      simpl in Hi. by apply list_elem_of_singleton in Hi.
  - intros i Hi. left. rewrite lookup_delete. case_decide; [done|].
    rewrite fmap_app, elem_of_app in Hi. destruct Hi as [Hi|Hi]; [by apply pr_moved0|].
    simpl in Hi. by apply list_elem_of_singleton in Hi.
Qed.

Lemma mapM_progress {A B} (f : A → M B) l st r st' :
  (∀ x st r st', f x st = Done r st' → ∃ cs, progress (is_ok r) st cs st') →
  mapM_run f l st r st' → ∃ cs, progress (is_ok r) st cs st'.
Proof.
  intros Hf Hrun. induction Hrun as [st|x l st y st1 ys st2 Hx _ [cs2 IH]
    |x l st e st1 Hx|x l st y st1 e st2 Hx _ [cs2 IH]].
  - exists []. apply progress_refl.
  - destruct (Hf _ _ _ _ Hx) as [cs1 H1]. exists (cs1 ++ cs2).
    eapply progress_trans; eauto.
  - by apply Hf in Hx.
  - destruct (Hf _ _ _ _ Hx) as [cs1 H1]. exists (cs1 ++ cs2).
    eapply progress_trans; eauto.
Qed.

(** Every run of the resolver that returns has only moved operations it
    dispatched from PendingOperations to PendingResults. *)
Lemma resolve_progress fuel value st r st' :
  resolve fuel value st = Done r st' → ∃ cs, progress (is_ok r) st cs st'.
Proof.
  revert value st r st'. induction fuel as [|fuel IH]; intros value st r st' H;
    [discriminate|].
  rewrite resolve_S in H.
  destruct value as [| b | f | s | v | v];
    try (inversion H; subst; exists []; apply progress_refl).
  - destruct (pipeline_ref v) as [j|].
    + destruct (pendingResults st !! j) as [result|] eqn:Hres;
        [inversion H; subst; exists []; apply progress_refl|].
      destruct (pendingOperations st !! j) as [operation|] eqn:Hop;
        [|inversion H; subst; exists []; apply progress_refl].
      destruct (resolve fuel (Args operation) st) as [|[a|e] st1] eqn:Hargs;
        [discriminate| |inversion H; subst; by apply IH in Hargs].
      apply IH in Hargs as [cs1 H1]. simpl in H1.
      exists (cs1 ++ [mkCall j (Method operation) a]).
      destruct (call_target _ _ _ _ _) as [[result|e] st2] eqn:Hcall;
        inversion H; subst.
      * destruct (traverse_ref_path v result);
          [|apply progress_weaken with true]; eapply progress_cache; eauto.
      * eapply progress_dispatch; eauto.
    + destruct (mapM _ v st) as [|rl st1] eqn:Hl; [discriminate|].
      apply mapM_Done, (mapM_progress _ _ _ _ _ IH) in Hl as [cs Hcs].
      exists cs. destruct rl; inversion H; by subst.
  - destruct (mapM _ v st) as [|rl st1] eqn:Hl; [discriminate|].
    apply mapM_Done, mapM_progress in Hl as [cs Hcs].
    + exists cs. destruct rl; inversion H; by subst.
    + intros kv st0 r0 st0' [r1 [H1 <-]]%resolve_field_Done. by apply IH in H1.
Qed.

(** ** The calls a run makes *)

Lemma progress_dispatched ok st cs st' :
  progress ok st cs st' → new_calls st st' = cs.
Proof.
  intros H. unfold new_calls. rewrite (pr_calls _ _ _ _ H).
  by rewrite drop_app_length.
Qed.

Lemma resolve_progress_calls fuel value st r st' :
  resolve fuel value st = Done r st' →
  progress (is_ok r) st (new_calls st st') st'.
Proof.
  intros [cs H]%resolve_progress. by rewrite (progress_dispatched _ _ _ _ H).
Qed.

Lemma loop_progress fuel v st rl st' :
  mapM_run (resolve fuel) v st rl st' →
  progress (is_ok rl) st (new_calls st st') st'.
Proof.
  intros [cs H]%mapM_progress; [|apply resolve_progress].
  by rewrite (progress_dispatched _ _ _ _ H).
Qed.

Lemma dispatched_refl st : dispatched st st = [].
Proof. unfold dispatched, new_calls. by rewrite drop_all. Qed.

Lemma dispatched_trans ok1 ok2 st cs1 st1 cs2 st2 :
  progress ok1 st cs1 st1 → progress ok2 st1 cs2 st2 →
  dispatched st st2 = dispatched st st1 ++ dispatched st1 st2.
Proof.
  intros H1 H2. unfold dispatched, new_calls.
  rewrite (pr_calls _ _ _ _ H2), (pr_calls _ _ _ _ H1), <-app_assoc.
  rewrite !drop_app_length, <-fmap_app. f_equal.
  by rewrite app_assoc, drop_app_length.
Qed.

Lemma dispatched_call ok st cs st1 j method args r st2 f :
  progress ok st cs st1 →
  call_target Dispatch j method args st1 = (r, st2) →
  dispatched st st2 = dispatched st st1 ++ [j] ∧
  dispatched st (with_session f st2) = dispatched st st1 ++ [j].
Proof.
  intros H1 [Hs Hc]%call_target_session. unfold dispatched, new_calls. simpl.
  rewrite Hc, (pr_calls _ _ _ _ H1), <-app_assoc, !drop_app_length.
  by rewrite fmap_app.
Qed.

(** The loop over the fields of an object is the loop over its values. *)
Lemma loop_fields fuel (v : list (string * Value)) st rl st' :
  mapM_run (λ kv, let* resolvedVal := resolve fuel kv.2 in
                  ret (kv.1, resolvedVal)) v st rl st' →
  ∃ rl', mapM_run (resolve fuel) (snd <$> v) st rl' st' ∧ is_ok rl' = is_ok rl.
Proof.
  induction 1 as [st|x l st y st1 ys st2 Hx _ [rl' [IH Hok]]
    |x l st e st1 Hx|x l st y st1 e st2 Hx _ [rl' [IH Hok]]].
  - exists (Ok []). split; [constructor|done].
  - apply bind_Done in Hx as [(e & _ & [=])|(a & st1' & Hx & [= <- <-])].
    destruct rl' as [ys'|]; [|done].
    exists (Ok (a :: ys')). split; [|done]. eapply mapM_run_ok; eauto.
  - apply bind_Done in Hx as [(e' & Hx & [= <-])|(a & st1' & Hx & [=])].
    exists (Err e). split; [|done]. by eapply mapM_run_here.
  - apply bind_Done in Hx as [(e' & _ & [=])|(a & st1' & Hx & [= <- <-])].
    destruct rl' as [|e']; [done|].
    exists (Err e'). split; [|done]. eapply mapM_run_later; eauto.
Qed.

Lemma refs_JObject (v : list (string * Value)) :
  refs (JObject v) = flat_map refs (snd <$> v).
Proof.
  simpl. induction v as [|[k x] v IH]; simpl; [done|]. by rewrite IH.
Qed.

(** The cases of a run on a list or an object, as runs of the loop. *)
Lemma resolve_S_loop fuel value st r st' :
  resolve (S fuel) value st = Done r st' →
  (∀ v, value = JArray v → pipeline_ref v = None →
     ∃ rl, mapM_run (resolve fuel) v st rl st' ∧ is_ok rl = is_ok r) ∧
  (∀ fields : list (string * Value), value = JObject fields →
     ∃ rl, mapM_run (resolve fuel) (snd <$> fields) st rl st' ∧ is_ok rl = is_ok r).
Proof.
  intros H. rewrite resolve_S in H. split.
  - intros v -> Hv. rewrite Hv in H.
    destruct (mapM _ v st) as [|rl st1] eqn:Hl; [discriminate|].
    apply mapM_Done in Hl. exists rl. destruct rl; inversion H; by subst.
  - intros fields ->.
    destruct (mapM _ fields st) as [|rl st1] eqn:Hl; [discriminate|].
    apply mapM_Done, loop_fields in Hl as [rl' [Hl Hok]].
    exists rl'. destruct rl; inversion H; by subst.
Qed.

(** ** After a successful run every reference met has a result *)

Lemma loop_refs_cached fuel :
  (∀ value st a st', resolve fuel value st = Done (Ok a) st' →
     ∀ j, j ∈ refs value → is_Some (pendingResults st' !! j)) →
  ∀ v st rl st', mapM_run (resolve fuel) v st rl st' → is_ok rl = true →
     ∀ j, j ∈ flat_map refs v → is_Some (pendingResults st' !! j).
Proof.
  intros IH v st rl st' Hrun. induction Hrun as [st|x l st y st1 ys st2 Hx Hl IHl
    |x l st e st1 Hx|x l st y st1 e st2 Hx _ _]; try done.
  - intros _ j Hj. by apply elem_of_nil in Hj.
  - intros _ j Hj. simpl in Hj. apply elem_of_app in Hj as [Hj|Hj]; [|by apply IHl].
    destruct (IH _ _ _ _ Hx j Hj) as [res Hres]. exists res.
    apply loop_progress in Hl. by apply (pr_results _ _ _ _ Hl).
Qed.

Lemma resolve_refs_cached fuel value st a st' :
  resolve fuel value st = Done (Ok a) st' →
  ∀ j, j ∈ refs value → is_Some (pendingResults st' !! j).
Proof.
  revert value st a st'. induction fuel as [|fuel IH]; intros value st a st' H;
    [discriminate|].
  pose proof (resolve_S_loop _ _ _ _ _ H) as [Harr Hobj].
  destruct value as [| b | f | s | v | v]; try (intros j Hj; by apply elem_of_nil in Hj).
  - simpl. destruct (pipeline_ref v) as [i|] eqn:Hv.
    + intros j ->%list_elem_of_singleton. rewrite resolve_S, Hv in H.
      destruct (pendingResults st !! i) as [result|] eqn:Hres.
      { inversion H; subst. rewrite Hres. eauto. }
      destruct (pendingOperations st !! i) as [operation|]; [|discriminate].
      destruct (resolve fuel (Args operation) st) as [|[ra|e] st1]; try discriminate.
      destruct (call_target _ _ _ _ _) as [[result|e] st2]; inversion H; subst.
      simpl. rewrite lookup_insert_eq. eauto.
    + destruct (Harr v eq_refl Hv) as [rl [Hl Hok]].
      by apply (loop_refs_cached fuel IH _ _ _ _ Hl).
  - rewrite refs_JObject. destruct (Hobj v eq_refl) as [rl [Hl Hok]].
    by apply (loop_refs_cached fuel IH _ _ _ _ Hl).
Qed.

(** ** Operations that wait for one another are never dispatched *)

Lemma blocked_frame K ok st st1 :
  blocked st K → progress ok st (new_calls st st1) st1 →
  (∀ k, K k → k ∉ dispatched st st1) → blocked st1 K.
Proof.
  intros HK H1 Hnot k Hk. destruct (HK k Hk) as (op & Hop & Hres & k' & Hk' & Hin).
  exists op. destruct (pr_frame _ _ _ _ H1 k (Hnot k Hk)) as [-> ->]. eauto.
Qed.

Lemma loop_blocked fuel K :
  (∀ value st r st', blocked st K → resolve fuel value st = Done r st' →
     ∀ k, K k → k ∉ dispatched st st') →
  ∀ v st rl st', mapM_run (resolve fuel) v st rl st' → blocked st K →
     ∀ k, K k → k ∉ dispatched st st'.
Proof.
  intros IH v st rl st' Hrun.
  induction Hrun as [st|x l st y st1 ys st2 Hx Hl IHl
    |x l st e st1 Hx|x l st y st1 e st2 Hx Hl IHl]; intros HK k Hk.
  - rewrite dispatched_refl. apply not_elem_of_nil.
  - pose proof (resolve_progress_calls _ _ _ _ _ Hx) as P1.
    rewrite (dispatched_trans _ _ _ _ _ _ _ P1 (loop_progress _ _ _ _ _ Hl)).
    rewrite elem_of_app. intros [Hin|Hin].
    + by apply (IH _ _ _ _ HK Hx k Hk).
    + apply (IHl (blocked_frame _ _ _ _ HK P1 (IH _ _ _ _ HK Hx)) k Hk Hin).
  - by apply (IH _ _ _ _ HK Hx k Hk).
  - pose proof (resolve_progress_calls _ _ _ _ _ Hx) as P1.
    rewrite (dispatched_trans _ _ _ _ _ _ _ P1 (loop_progress _ _ _ _ _ Hl)).
    rewrite elem_of_app. intros [Hin|Hin].
    + by apply (IH _ _ _ _ HK Hx k Hk).
    + apply (IHl (blocked_frame _ _ _ _ HK P1 (IH _ _ _ _ HK Hx)) k Hk Hin).
Qed.

Lemma resolve_blocked fuel K value st r st' :
  blocked st K → resolve fuel value st = Done r st' →
  ∀ k, K k → k ∉ dispatched st st'.
Proof.
  revert value st r st'. induction fuel as [|fuel IH]; intros value st r st' HK H;
    [discriminate|].
  pose proof (resolve_S_loop _ _ _ _ _ H) as [Harr Hobj].
  destruct value as [| b | f | s | v | fields];
    try (rewrite resolve_S in H; inversion H; subst; intros k _;
         rewrite dispatched_refl; apply not_elem_of_nil).
  - destruct (pipeline_ref v) as [j|] eqn:Hv.
    + rewrite resolve_S, Hv in H.
      destruct (pendingResults st !! j) as [result|] eqn:Hres.
      { inversion H; subst. intros k _. rewrite dispatched_refl. apply not_elem_of_nil. }
      destruct (pendingOperations st !! j) as [operation|] eqn:Hop.
      2:{ inversion H; subst. intros k _. rewrite dispatched_refl.
          apply not_elem_of_nil. }
      destruct (resolve fuel (Args operation) st) as [|[ra|e] st1] eqn:Hargs;
        [discriminate| |inversion H; subst; by eapply IH].
      pose proof (resolve_progress_calls _ _ _ _ _ Hargs) as P1.
      assert (¬ K j) as HnK.
      { intros Hj. destruct (HK j Hj) as (op & Hop' & _ & k' & Hk' & Hin).
        assert (op = operation) as -> by congruence.
        destruct (resolve_refs_cached _ _ _ _ _ Hargs k' Hin) as [x Hx].
        destruct (HK k' Hk') as (_ & _ & Hres' & _).
        destruct (pr_frame _ _ _ _ P1 k') as [_ E].
        { by apply (IH _ _ _ _ HK Hargs). }
        congruence. }
      intros k Hk.
      destruct (call_target _ _ _ _ _) as [[result|e] st2] eqn:Hcall;
        inversion H; subst.
      * destruct (dispatched_call _ _ _ _ _ _ _ _ _
                    (cache_result j result) P1 Hcall) as [_ ->].
        rewrite elem_of_app, list_elem_of_singleton. intros [Hin| ->]; [|done].
        by apply (IH _ _ _ _ HK Hargs k Hk).
      * destruct (dispatched_call _ _ _ _ _ _ _ _ _ id P1 Hcall) as [-> _].
        rewrite elem_of_app, list_elem_of_singleton. intros [Hin| ->]; [|done].
        by apply (IH _ _ _ _ HK Hargs k Hk).
    + destruct (Harr v eq_refl Hv) as [rl [Hl _]].
      by apply (loop_blocked fuel K IH _ _ _ _ Hl).
  - destruct (Hobj fields eq_refl) as [rl [Hl _]].
    by apply (loop_blocked fuel K IH _ _ _ _ Hl).
Qed.

(** ** Every dispatched operation is reached from the resolved tree *)

Lemma reaches_refs st value value' j :
  (∀ k, k ∈ refs value → k ∈ refs value') →
  reaches st value j → reaches st value' j.
Proof.
  intros Hsub Hr. inversion Hr; subst.
  - eapply reaches_here; eauto.
  - eapply reaches_step; eauto.
Qed.

Lemma reaches_earlier ok st cs st1 value j :
  progress ok st cs st1 → reaches st1 value j → reaches st value j.
Proof.
  intros H1. assert (∀ i, pendingResults st1 !! i = None → pendingResults st !! i = None)
    as Hnone.
  { intros i Hi. destruct (pendingResults st !! i) as [x|] eqn:Hx; [|done].
    apply (pr_results _ _ _ _ H1) in Hx. congruence. }
  pose proof (pr_pending _ _ _ _ H1) as Hpend.
  induction 1 as [value j op Hin Hop Hres|value k op j Hin Hop Hres _ IH].
  - eapply reaches_here; eauto.
  - eapply reaches_step; eauto.
Qed.

(** One more reference at the end of a chain. *)
Lemma reaches_snoc st value k operation j operation' :
  reaches st value k →
  pendingOperations st !! k = Some operation →
  j ∈ refs (Args operation) →
  pendingOperations st !! j = Some operation' →
  pendingResults st !! j = None →
  reaches st value j.
Proof.
  intros Hr Hop Hin Hop' Hres'.
  induction Hr as [value k op Hk Hopk Hresk|value k0 op k Hk0 Hop0 Hres0 _ IH].
  - assert (op = operation) as -> by congruence.
    eapply reaches_step; eauto. eapply reaches_here; eauto.
  - eapply reaches_step; eauto.
Qed.

Lemma loop_reaches fuel :
  (∀ value st r st', resolve fuel value st = Done r st' →
     ∀ j, j ∈ dispatched st st' → reaches st value j) →
  ∀ v st rl st', mapM_run (resolve fuel) v st rl st' →
     ∀ j, j ∈ dispatched st st' → ∃ x, x ∈ v ∧ reaches st x j.
Proof.
  intros IH v st rl st' Hrun.
  induction Hrun as [st|x l st y st1 ys st2 Hx Hl IHl
    |x l st e st1 Hx|x l st y st1 e st2 Hx Hl IHl]; intros j Hj.
  - rewrite dispatched_refl in Hj. by apply elem_of_nil in Hj.
  - pose proof (resolve_progress_calls _ _ _ _ _ Hx) as P1.
    rewrite (dispatched_trans _ _ _ _ _ _ _ P1 (loop_progress _ _ _ _ _ Hl)) in Hj.
    apply elem_of_app in Hj as [Hj|Hj].
    + exists x. split; [left|]. by eapply IH.
    + destruct (IHl j Hj) as (x' & Hx' & Hr). exists x'. split; [by right|].
      eapply reaches_earlier; eauto.
  - exists x. split; [left|]. by eapply IH.
  - pose proof (resolve_progress_calls _ _ _ _ _ Hx) as P1.
    rewrite (dispatched_trans _ _ _ _ _ _ _ P1 (loop_progress _ _ _ _ _ Hl)) in Hj.
    apply elem_of_app in Hj as [Hj|Hj].
    + exists x. split; [left|]. by eapply IH.
    + destruct (IHl j Hj) as (x' & Hx' & Hr). exists x'. split; [by right|].
      eapply reaches_earlier; eauto.
Qed.

Lemma refs_flat_map (v : list Value) x k :
  x ∈ v → k ∈ refs x → k ∈ flat_map refs v.
Proof.
  intros Hx Hk. apply list_elem_of_In, in_flat_map. exists x.
  by rewrite <-!list_elem_of_In.
Qed.

Lemma resolve_reaches fuel value st r st' :
  resolve fuel value st = Done r st' →
  ∀ j, j ∈ dispatched st st' → reaches st value j.
Proof.
  revert value st r st'. induction fuel as [|fuel IH]; intros value st r st' H;
    [discriminate|].
  pose proof (resolve_S_loop _ _ _ _ _ H) as [Harr Hobj].
  destruct value as [| b | f | s | v | fields];
    try (rewrite resolve_S in H; inversion H; subst; intros j Hj;
         rewrite dispatched_refl in Hj; by apply elem_of_nil in Hj).
  - destruct (pipeline_ref v) as [i|] eqn:Hv.
    + assert (i ∈ refs (JArray v)) as Hi by (simpl; rewrite Hv; by left).
      rewrite resolve_S, Hv in H.
      destruct (pendingResults st !! i) as [result|] eqn:Hres.
      { inversion H; subst. intros j Hj. rewrite dispatched_refl in Hj.
        by apply elem_of_nil in Hj. }
      destruct (pendingOperations st !! i) as [operation|] eqn:Hop.
      2:{ inversion H; subst. intros j Hj. rewrite dispatched_refl in Hj.
          by apply elem_of_nil in Hj. }
      destruct (resolve fuel (Args operation) st) as [|[ra|e] st1] eqn:Hargs;
        [discriminate| |].
      * pose proof (resolve_progress_calls _ _ _ _ _ Hargs) as P1.
        intros j Hj.
        assert (j ∈ dispatched st st1 ++ [i]) as Hj'.
        { destruct (call_target _ _ _ _ _) as [[result|e] st2] eqn:Hcall;
            inversion H; subst.
          - by destruct (dispatched_call _ _ _ _ _ _ _ _ _
                           (cache_result i result) P1 Hcall) as [_ <-].
          - by destruct (dispatched_call _ _ _ _ _ _ _ _ _ id P1 Hcall) as [<- _]. }
        apply elem_of_app in Hj' as [Hj'| ->%list_elem_of_singleton].
        -- eapply reaches_step; eauto.
        -- eapply reaches_here; eauto.
      * inversion H; subst. intros j Hj. eapply reaches_step; eauto.
    + destruct (Harr v eq_refl Hv) as [rl [Hl _]]. intros j Hj.
      destruct (loop_reaches fuel IH _ _ _ _ Hl j Hj) as (x & Hx & Hr).
      eapply reaches_refs; [|exact Hr]. intros k Hk. simpl. rewrite Hv.
      by eapply refs_flat_map.
  - destruct (Hobj fields eq_refl) as [rl [Hl _]]. intros j Hj.
    destruct (loop_reaches fuel IH _ _ _ _ Hl j Hj) as (x & Hx & Hr).
    eapply reaches_refs; [|exact Hr]. intros k Hk. rewrite refs_JObject.
    by eapply refs_flat_map.
Qed.

(** An operation whose args lead back to itself is never dispatched. *)
Lemma resolve_cycle fuel j operation value st r st' :
  pendingOperations st !! j = Some operation →
  pendingResults st !! j = None →
  reaches st (Args operation) j →
  resolve fuel value st = Done r st' →
  j ∉ dispatched st st'.
Proof.
  intros Hop Hres Hreach H.
  set (K := λ k, (k = j ∨ reaches st (Args operation) k) ∧
                 ∃ opk, pendingOperations st !! k = Some opk ∧
                        pendingResults st !! k = None ∧
                        reaches st (Args opk) j).
  assert (K j) as Hj by (split; eauto).
  apply (resolve_blocked fuel K value st r st'); [|done..].
  intros k [Hk (opk & Hopk & Hresk & Hrk)]. exists opk. do 2 (split; [done|]).
  inversion Hrk as [? ? op0 Hin Hop0 Hres0|? k1 op1 ? Hin Hop1 Hres1 Hr1]; subst.
  - by exists j.
  - exists k1. split; [|done]. split; [|eauto].
    destruct Hk as [->|Hk].
    + assert (opk = operation) as -> by congruence. right. eapply reaches_here; eauto.
    + right. eapply reaches_snoc; eauto.
Qed.

(** Resolving the args of a pending operation does not dispatch that
    operation. *)
Lemma resolve_not_self fuel j operation st r st' :
  pendingOperations st !! j = Some operation →
  pendingResults st !! j = None →
  resolve fuel (Args operation) st = Done r st' →
  j ∉ dispatched st st'.
Proof.
  intros Hop Hres H Hin.
  eapply resolve_cycle; eauto. eapply resolve_reaches; eauto.
Qed.

(** ** No operation is dispatched twice *)

Lemma loop_NoDup fuel :
  (∀ value st r st', resolve fuel value st = Done r st' → NoDup (dispatched st st')) →
  ∀ v st rl st', mapM_run (resolve fuel) v st rl st' → NoDup (dispatched st st').
Proof.
  intros IH v st rl st' Hrun.
  assert (∀ x l st y st1 r st2,
    resolve fuel x st = Done (Ok y) st1 → mapM_run (resolve fuel) l st1 r st2 →
    NoDup (dispatched st1 st2) → NoDup (dispatched st st2)) as Hstep.
  { clear v st rl st' Hrun. intros x l st y st1 r st2 Hx Hl IHl.
    pose proof (resolve_progress_calls _ _ _ _ _ Hx) as P1.
    pose proof (loop_progress _ _ _ _ _ Hl) as P2.
    rewrite (dispatched_trans _ _ _ _ _ _ _ P1 P2).
    apply NoDup_app. split; [by eapply IH|]. split; [|done].
    intros i Hi1 Hi2.
    destruct (pr_moved _ _ _ _ P1 eq_refl i Hi1) as [Hnone _].
    destruct (pr_was_pending _ _ _ _ P2 i Hi2) as [[op Hop] _]. congruence. }
  induction Hrun; eauto.
  rewrite dispatched_refl. constructor.
Qed.

Lemma resolve_NoDup fuel value st r st' :
  resolve fuel value st = Done r st' → NoDup (dispatched st st').
Proof.
  revert value st r st'. induction fuel as [|fuel IH]; intros value st r st' H;
    [discriminate|].
  pose proof (resolve_S_loop _ _ _ _ _ H) as [Harr Hobj].
  destruct value as [| b | f | s | v | fields];
    try (rewrite resolve_S in H; inversion H; subst;
         rewrite dispatched_refl; constructor).
  - destruct (pipeline_ref v) as [j|] eqn:Hv.
    + rewrite resolve_S, Hv in H.
      destruct (pendingResults st !! j) as [result|] eqn:Hres.
      { inversion H; subst. rewrite dispatched_refl. constructor. }
      destruct (pendingOperations st !! j) as [operation|] eqn:Hop.
      2:{ inversion H; subst. rewrite dispatched_refl. constructor. }
      destruct (resolve fuel (Args operation) st) as [|[ra|e] st1] eqn:Hargs;
        [discriminate| |inversion H; subst; by eapply IH].
      pose proof (resolve_progress_calls _ _ _ _ _ Hargs) as P1.
      assert (NoDup (dispatched st st1 ++ [j])) as Hnd.
      { apply NoDup_app. split; [by eapply IH|]. split; [|apply NoDup_singleton].
        intros i Hi ->%list_elem_of_singleton.
        by apply (resolve_not_self _ _ _ _ _ _ Hop Hres Hargs). }
      destruct (call_target _ _ _ _ _) as [[result|e] st2] eqn:Hcall;
        inversion H; subst.
      * by destruct (dispatched_call _ _ _ _ _ _ _ _ _
                       (cache_result j result) P1 Hcall) as [_ ->].
      * by destruct (dispatched_call _ _ _ _ _ _ _ _ _ id P1 Hcall) as [-> _].
    + destruct (Harr v eq_refl Hv) as [rl [Hl _]].
      by apply (loop_NoDup fuel IH _ _ _ _ Hl).
  - destruct (Hobj fields eq_refl) as [rl [Hl _]].
    by apply (loop_NoDup fuel IH _ _ _ _ Hl).
Qed.

(** ** The cases of handlePull *)

Lemma handlePull_Done fuel exportID st r st' :
  handlePull Dispatch fuel exportID st = Done r st' →
  (∃ result,
     pendingResults st !! exportID = Some result ∧
     st' = with_session (delete_result exportID) st ∧
     r = Ok (if is_error_array result then reject_response exportID result
             else resolve_response exportID (escape_array result)))
  ∨ (pendingResults st !! exportID = None ∧
     pendingOperations st !! exportID = None ∧
     st' = st ∧ r = Ok (export_not_found exportID))
  ∨ (∃ operation e,
       pendingResults st !! exportID = None ∧
       pendingOperations st !! exportID = Some operation ∧
       resolve fuel (Args operation) st = Done (Err e) st' ∧
       r = Ok (createErrorResponse exportID "PipelineError" (Error e)))
  ∨ (∃ operation resolvedArgs st1 rd st2,
       pendingResults st !! exportID = None ∧
       pendingOperations st !! exportID = Some operation ∧
       resolve fuel (Args operation) st = Done (Ok resolvedArgs) st1 ∧
       call_target Dispatch exportID (Method operation) resolvedArgs st1 = (rd, st2) ∧
       match rd with
       | Err e =>
           st' = with_session (delete_operation exportID) st2 ∧
           r = Ok (createErrorResponse exportID "MethodError" (Error e))
       | Ok result =>
           st' = with_session (store_result exportID result)
                   (with_session (delete_operation exportID) st2) ∧
           r = Ok (resolve_response exportID (escape_array result))
       end).
Proof.
  unfold handlePull. intros H.
  destruct (pendingResults st !! exportID) as [result|] eqn:Hres.
  { left. exists result. split; [done|].
    destruct (is_error_array result); [by inversion H|].
    destruct result; by inversion H. }
  right. destruct (pendingOperations st !! exportID) as [operation|] eqn:Hop.
  2:{ left. by inversion H. }
  right. simpl in H.
  destruct (resolve fuel (Args operation) st) as [|[resolvedArgs|e] st1] eqn:Hargs;
    [discriminate| |].
  - right. simpl in H.
    destruct (call_target _ _ _ _ _) as [rd st2] eqn:Hcall.
    exists operation, resolvedArgs, st1, rd, st2. do 4 (split; [done|]).
    destruct rd as [result|e]; [|by inversion H].
    destruct result; by inversion H.
  - left. exists operation, e. by simplify_eq.
Qed.

Lemma handlePull_unknown fuel exportID st :
  pendingResults st !! exportID = None →
  pendingOperations st !! exportID = None →
  handlePull Dispatch fuel exportID st = Done (Ok (export_not_found exportID)) st.
Proof. intros Hres Hop. unfold handlePull. by rewrite Hres, Hop. Qed.

Lemma handlePull_cached fuel exportID result st :
  pendingResults st !! exportID = Some result →
  handlePull Dispatch fuel exportID st =
  Done (Ok (if is_error_array result then reject_response exportID result
            else resolve_response exportID (escape_array result)))
       (with_session (delete_result exportID) st).
Proof.
  intros Hres. unfold handlePull. rewrite Hres.
  destruct (is_error_array result); [done|]. by destruct result.
Qed.

(** The calls of a pull: those of resolving the args, then the call for
    the pulled operation itself. *)
Lemma handlePull_NoDup fuel exportID st r st' :
  handlePull Dispatch fuel exportID st = Done r st' → NoDup (dispatched st st').
Proof.
  intros [(result & Hres & -> & _)
         |[(Hres & Hop & -> & _)
          |[(operation & e & Hres & Hop & Hargs & _)
           |(operation & ra & st1 & rd & st2 & Hres & Hop & Hargs & Hcall & Hrd)]]]%handlePull_Done.
  - unfold dispatched, new_calls; simpl; rewrite drop_all; constructor.
  - rewrite dispatched_refl; constructor.
  - by eapply resolve_NoDup.
  - pose proof (resolve_progress_calls _ _ _ _ _ Hargs) as P1.
    assert (dispatched st st' = dispatched st st1 ++ [exportID]) as ->.
    { destruct rd as [result|e]; destruct Hrd as [-> _].
      - unfold dispatched at 1, new_calls. simpl.
        by destruct (dispatched_call _ _ _ _ _ _ _ _ _ id P1 Hcall) as [<- _].
      - by destruct (dispatched_call _ _ _ _ _ _ _ _ _
                       (delete_operation exportID) P1 Hcall) as [_ ->]. }
    apply NoDup_app. split; [by eapply resolve_NoDup|].
    split; [|apply NoDup_singleton].
    intros i Hi ->%list_elem_of_singleton.
    by apply (resolve_not_self _ _ _ _ _ _ Hop Hres Hargs).
Qed.

(** ** Invariants of the session tables *)

Lemma progress_disjoint ok st cs st' :
  progress ok st cs st' →
  tables_disjoint (session st) → tables_disjoint (session st').
Proof.
  intros P Hd i [Hop Hres].
  destruct (decide (i ∈ call_export <$> cs)) as [Hin|Hnin].
  - destruct (pr_once _ _ _ _ P i Hin) as [E|E]; rewrite E in *;
      by eapply is_Some_None.
  - destruct (pr_frame _ _ _ _ P i Hnin) as [E1 E2]. rewrite E1, E2 in *.
    by apply (Hd i).
Qed.

Lemma progress_below ok st cs st' :
  progress ok st cs st' →
  ids_below_next (session st) → ids_below_next (session st').
Proof.
  intros P Hb i Hi. rewrite (pr_next _ _ _ _ P). apply Hb.
  destruct Hi as [[op Hop]|Hres].
  - left. exists op. by apply (pr_pending _ _ _ _ P).
  - destruct (decide (i ∈ call_export <$> cs)) as [Hin|Hnin].
    + left. by apply (pr_was_pending _ _ _ _ P).
    + right. by destruct (pr_frame _ _ _ _ P i Hnin) as [_ <-].
Qed.
Lemma progress_invariant ok st cs st' :
  progress ok st cs st' →
  session_invariant (session st) → session_invariant (session st').
Proof.
  intros P (Hn & Hd & Hb). split; [|split].
  - by rewrite (pr_next _ _ _ _ P).
  - by eapply progress_disjoint.
  - by eapply progress_below.
Qed.

Lemma NewSessionData_invariant : session_invariant NewSessionData.
Proof.
  split; [done|]. split.
  - intros i [[op Hop] _]. simpl in Hop. by rewrite lookup_empty in Hop.
  - intros i [[x Hx]|[x Hx]]; simpl in Hx; by rewrite lookup_empty in Hx.
Qed.

Lemma handlePush_invariant sessionData pushData :
  session_invariant sessionData →
  session_invariant (handlePush sessionData pushData).2.
Proof.
  intros (Hn & Hd & Hb). unfold handlePush.
  destruct pushData as [| | | |[|p0 pushArray]|]; try done.
  destruct (pipeline_call (p0 :: pushArray)) as [operation|]; simpl.
  - split; [simpl; lia|]. split.
    + intros i [Hop Hres]. simpl in *.
      destruct (decide (i = NextExportID sessionData)) as [->|Hne].
      * specialize (Hb _ (or_intror Hres)). lia.
      * rewrite lookup_insert_ne in Hop by done. by apply (Hd i).
    + intros i Hi. simpl in *.
      destruct (decide (i = NextExportID sessionData)) as [->|Hne]; [lia|].
      rewrite lookup_insert_ne in Hi by done. specialize (Hb _ Hi). lia.
  - split; [simpl; lia|]. split; [done|].
    intros i Hi. specialize (Hb _ Hi). simpl in *. lia.
Qed.

Lemma handlePull_invariant fuel exportID st r st' :
  handlePull Dispatch fuel exportID st = Done r st' →
  session_invariant (session st) → session_invariant (session st').
Proof.
  intros [(result & Hres & -> & _)
         |[(Hres & Hop & -> & _)
          |[(operation & e & Hres & Hop & Hargs & _)
           |(operation & ra & st1 & rd & st2 & Hres & Hop & Hargs & Hcall & Hrd)]]]%handlePull_Done
    Hinv; [|done| |].
  - destruct Hinv as (Hn & Hd & Hb). split; [done|]. split.
    + intros i [Hop Hr]. simpl in *. apply (Hd i). split; [done|].
      rewrite lookup_delete in Hr. by case_decide.
    + intros i Hi. simpl in *. apply Hb. destruct Hi as [Hi|Hi]; [by left|right].
      rewrite lookup_delete in Hi. by case_decide.
  - apply resolve_progress in Hargs as [cs P]. by eapply progress_invariant.
  - apply resolve_progress in Hargs as [cs P].
    assert (1 ≤ exportID < NextExportID (session st1)) as Hid.
    { rewrite (pr_next _ _ _ _ P). apply Hinv. left. by rewrite Hop. }
    apply (progress_invariant _ _ _ _ P) in Hinv as (Hn & Hd & Hb).
    apply call_target_session in Hcall as [Hs _].
    assert (session_invariant (delete_operation exportID (session st1))) as Hdel.
    { split; [done|]. split.
      - intros i [Ho Hr]. simpl in *. apply (Hd i). split; [|done].
        rewrite lookup_delete in Ho. by case_decide.
      - intros i Hi. simpl in *. apply Hb. destruct Hi as [Hi|Hi]; [left|by right].
        rewrite lookup_delete in Hi. by case_decide. }
    destruct rd as [result|e]; destruct Hrd as [-> _]; simpl; rewrite Hs; [|done].
    destruct Hdel as (_ & Hd' & Hb'). split; [done|]. split.
    + intros i [Ho Hr]. simpl in *.
      destruct (decide (i = exportID)) as [->|Hne].
      * rewrite lookup_delete_eq in Ho. by eapply is_Some_None.
      * rewrite lookup_insert_ne in Hr by done. by apply (Hd' i).
    + intros i Hi. simpl in *.
      destruct (decide (i = exportID)) as [->|Hne]; [done|].
      rewrite lookup_insert_ne in Hi by done. by apply Hb'.
Qed.

(** What a message can do to the state. *)
Lemma HandleMessage_Done fuel message st r st' :
  HandleMessage Dispatch fuel message st = Done r st' →
  st' = st ∨
  (∃ pushData, st' = with_session (λ sd, (handlePush sd pushData).2) st) ∨
  (∃ exportID rp, handlePull Dispatch fuel exportID st = Done rp st').
Proof.
  unfold HandleMessage. intros H.
  destruct (unmarshal_message message) as [[|m0 payload]|e];
    [by inversion H; left| |by inversion H; left].
  destruct m0 as [| | |messageType| |]; try (by inversion H; left).
  destruct (String.eqb messageType "push").
  { destruct payload as [|pushData ?]; [by inversion H; left|].
    right; left. exists pushData. by inversion H. }
  destruct (String.eqb messageType "pull").
  { destruct payload as [|[| |exportIDFloat| | |] ?]; try (by inversion H; left).
    right; right. exists (int_of_float64 exportIDFloat).
    apply bind_Done in H as [(e & H & _)|(rp & st1 & H & H1)]; [by eauto|].
    exists (Ok rp). by inversion H1; subst. }
  destruct (String.eqb messageType "release").
  { left. destruct payload as [|[| |?| | |] [|[| |?| | |] ?]]; inversion H; by destruct st. }
  destruct (String.eqb messageType "abort").
  { left. destruct payload; inversion H; by destruct st. }
  left. by inversion H.
Qed.

Lemma message_step_invariant st st' :
  message_step Dispatch st st' →
  session_invariant (session st) → session_invariant (session st').
Proof.
  intros (fuel & message & r & [->|[[pushData ->]|(exportID & rp & H)]]%HandleMessage_Done).
  - done.
  - apply handlePush_invariant.
  - by eapply handlePull_invariant.
Qed.

Lemma session_state_invariant st :
  session_state Dispatch st → session_invariant (session st).
Proof.
  induction 1 as [w cs|st _ _|st st' _ IH Hstep|st fuel value r st' _ IH Hres].
  - apply NewSessionData_invariant.
  - apply NewSessionData_invariant.
  - by eapply message_step_invariant.
  - apply resolve_progress in Hres as [cs P]. by eapply progress_invariant.
Qed.

(** ** Neither the resolver nor a pull makes an id known *)



Lemma handlePull_next fuel exportID st r st' :
  handlePull Dispatch fuel exportID st = Done r st' →
  NextExportID (session st') = NextExportID (session st).
Proof.
  intros [(result & Hres & -> & _)
         |[(Hres & Hop & -> & _)
          |[(operation & e & Hres & Hop & Hargs & _)
           |(operation & ra & st1 & rd & st2 & Hres & Hop & Hargs & Hcall & Hrd)]]]%handlePull_Done;
    [done|done| |].
  - apply resolve_progress in Hargs as [cs P]. apply (pr_next _ _ _ _ P).
  - apply resolve_progress in Hargs as [cs P].
    apply call_target_session in Hcall as [Hs _].
    rewrite <-(pr_next _ _ _ _ P).
    destruct rd as [result|e]; destruct Hrd as [-> _]; simpl; by rewrite Hs.
Qed.

Lemma handlePush_next sessionData pushData :
  NextExportID sessionData ≤ NextExportID (handlePush sessionData pushData).2.
Proof.
  unfold handlePush. destruct pushData as [| | | |[|p0 pushArray]|]; try done.
  destruct (pipeline_call (p0 :: pushArray)); simpl; lia.
Qed.

(** The counter never goes down while messages are handled. *)
Lemma message_steps_next st st' :
  rtc (message_step Dispatch) st st' →
  NextExportID (session st) ≤ NextExportID (session st').
Proof.
  induction 1 as [st|st st1 st' Hstep _ IH]; [done|].
  etrans; [|exact IH].
  destruct Hstep as (fuel & message & r &
    [->|[[pushData ->]|(exportID & rp & H)]]%HandleMessage_Done).
  - done.
  - apply handlePush_next.
  - by rewrite (handlePull_next _ _ _ _ _ H).
Qed.


(** ** Fuel *)

(** A run that waits for a run that is out of fuel is out of fuel. *)
Lemma resolve_ref_OutOfFuel fuel v j operation st :
  pipeline_ref v = Some j →
  pendingResults st !! j = None →
  pendingOperations st !! j = Some operation →
  resolve fuel (Args operation) st = OutOfFuel →
  resolve (S fuel) (JArray v) st = OutOfFuel.
Proof. intros Hpr Hres Hop H. by rewrite resolve_S, Hpr, Hres, Hop, H. Qed.

Lemma resolve_singleton_OutOfFuel fuel x st :
  resolve fuel x st = OutOfFuel →
  resolve (S fuel) (JArray [x]) st = OutOfFuel.
Proof. intros H. rewrite resolve_S. simpl. unfold bind at 1. by rewrite H. Qed.

(** More fuel does not change the outcome of a run that returns. *)
Lemma resolve_fuel_mono fuel fuel' value st r st' :
  (fuel ≤ fuel')%nat →
  resolve fuel value st = Done r st' → resolve fuel' value st = Done r st'.
Proof.
  revert fuel' value st r st'.
  induction fuel as [|fuel IH]; intros fuel' value st r st' Hle H; [discriminate|].
  destruct fuel' as [|fuel']; [lia|]. assert (fuel ≤ fuel')%nat as Hle' by lia.
  rewrite resolve_S in *.
  destruct value as [| b | f | s | v | fields]; try done.
  - destruct (pipeline_ref v) as [j|].
    + destruct (pendingResults st !! j); [done|].
      destruct (pendingOperations st !! j) as [operation|]; [|done].
      destruct (resolve fuel (Args operation) st) as [|ra st1] eqn:Hargs;
        [discriminate|].
      by rewrite (IH _ _ _ _ _ Hle' Hargs).
    + destruct (mapM (resolve fuel) v st) as [|rl st1] eqn:Hl; [discriminate|].
      apply mapM_Done in Hl.
      apply (mapM_run_mono _ (resolve fuel')) in Hl; [|intros; by eapply IH].
      apply mapM_Done in Hl. by rewrite Hl.
  - destruct (mapM _ fields st) as [|rl st1] eqn:Hl; [discriminate|].
    apply mapM_Done in Hl.
    apply (mapM_run_mono _ (λ kv, let* resolvedVal := resolve fuel' kv.2 in
                                  ret (kv.1, resolvedVal))) in Hl.
    + apply mapM_Done in Hl. by rewrite Hl.
    + intros kv st0 r0 st0' _ Hkv. apply bind_Done. apply bind_Done in Hkv.
      destruct Hkv as [(e & Hkv & ->)|(a & st2 & Hkv & Hret)]; [left|right].
      * exists e. split; [by eapply IH|done].
      * exists a, st2. split; [by eapply IH|done].
Qed.

Lemma loop_fuel_mono fuel fuel' v st rl st' :
  (fuel ≤ fuel')%nat →
  mapM_run (resolve fuel) v st rl st' → mapM_run (resolve fuel') v st rl st'.
Proof.
  intros Hle. apply mapM_run_mono. intros. by eapply resolve_fuel_mono.
Qed.

(** A run of the loop over the values of an object is a run over its
    fields. *)
Lemma loop_of_fields fuel (fields : list (string * Value)) st rl st' :
  mapM_run (resolve fuel) (snd <$> fields) st rl st' →
  ∃ rl', mapM_run (λ kv, let* resolvedVal := resolve fuel kv.2 in
                         ret (kv.1, resolvedVal)) fields st rl' st'.
Proof.
  revert st rl st'. induction fields as [|[k x] fields IH]; intros st rl st' Hrun;
    simpl in Hrun.
  { inversion Hrun; subst. exists (Ok []). constructor. }
  inversion Hrun as [|x0 l0 st0 y st1 ys st2 Hx Hl|x0 l0 st0 e st1 Hx
                    |x0 l0 st0 y st1 e st2 Hx Hl]; subst.
  - destruct (IH _ _ _ Hl) as [[ys'|e] IH'].
    + exists (Ok ((k, y) :: ys')). eapply mapM_run_ok; [|done].
      unfold bind. simpl. by rewrite Hx.
    + exists (Err e). eapply mapM_run_later; [|done].
      unfold bind. simpl. by rewrite Hx.
  - exists (Err e). apply mapM_run_here. unfold bind. simpl. by rewrite Hx.
  - destruct (IH _ _ _ Hl) as [[ys'|e'] IH'].
    + exists (Ok ((k, y) :: ys')). eapply mapM_run_ok; [|done].
      unfold bind. simpl. by rewrite Hx.
    + exists (Err e'). eapply mapM_run_later; [|done].
      unfold bind. simpl. by rewrite Hx.
Qed.

(** ** Termination when references point to earlier pushes *)

Lemma Value_nested_ind (P : Value → Prop) :
  P JNull → (∀ b, P (JBool b)) → (∀ f, P (JNumber f)) → (∀ s, P (JString s)) →
  (∀ v, Forall P v → P (JArray v)) →
  (∀ fields : list (string * Value), Forall P (snd <$> fields) → P (JObject fields)) →
  ∀ value, P value.
Proof.
  intros Hnull Hbool Hnum Hstr Harr Hobj. fix IH 1. intros [| b | f | s | v | fields].
  - apply Hnull.
  - apply Hbool.
  - apply Hnum.
  - apply Hstr.
  - apply Harr. induction v as [|x v IHv]; constructor; [apply IH|apply IHv].
  - apply Hobj. induction fields as [|[k x] fields IHf]; constructor;
      [apply IH|apply IHf].
Qed.

Lemma refs_to_earlier_progress ok st cs st' :
  progress ok st cs st' →
  refs_to_earlier (session st) → refs_to_earlier (session st').
Proof.
  intros P Hwf i op Hop. apply (Hwf i op). by apply (pr_pending _ _ _ _ P).
Qed.

Lemma refs_bounded_progress n ok st cs st' value :
  progress ok st cs st' → refs_bounded n value st → refs_bounded n value st'.
Proof.
  intros P Hb j Hj [op Hop]. apply (Hb j Hj). exists op.
  by apply (pr_pending _ _ _ _ P).
Qed.

Lemma loop_terminates n v :
  Forall (λ x, ∀ st, refs_to_earlier (session st) → refs_bounded n x st →
               ∃ fuel r st', resolve fuel x st = Done r st') v →
  ∀ st, refs_to_earlier (session st) →
    (∀ x, x ∈ v → refs_bounded n x st) →
    ∃ fuel rl st', mapM_run (resolve fuel) v st rl st'.
Proof.
  induction 1 as [|x v Hx _ IH]; intros st Hwf Hb.
  - exists 0%nat, (Ok []), st. constructor.
  - destruct (Hx st Hwf) as (fuel1 & [y|e] & st1 & H1); [apply Hb; by left| |].
    + pose proof (resolve_progress_calls _ _ _ _ _ H1) as P1.
      destruct (IH st1) as (fuel2 & rl & st2 & H2).
      { by eapply refs_to_earlier_progress. }
      { intros x' Hx'. eapply refs_bounded_progress; [done|]. apply Hb. by right. }
      exists (fuel1 `max` fuel2)%nat.
      apply (resolve_fuel_mono _ (fuel1 `max` fuel2)%nat) in H1; [|lia].
      apply (loop_fuel_mono _ (fuel1 `max` fuel2)%nat) in H2; [|lia].
      destruct rl as [ys|e].
      * exists (Ok (y :: ys)), st2. by eapply mapM_run_ok.
      * exists (Err e), st2. by eapply mapM_run_later.
    + exists fuel1, (Err e), st1. by apply mapM_run_here.
Qed.

Lemma resolve_terminates_step n :
  (∀ j operation st, pendingOperations st !! j = Some operation →
     (Z.to_nat j < n)%nat → refs_to_earlier (session st) →
     ∃ fuel r st', resolve fuel (Args operation) st = Done r st') →
  ∀ value st, refs_to_earlier (session st) → refs_bounded n value st →
    ∃ fuel r st', resolve fuel value st = Done r st'.
Proof.
  intros Hargs value. induction value as [| b | f | s | v IH | fields IH]
    using Value_nested_ind; intros st Hwf Hb;
    try (exists 1%nat; eexists; eexists; reflexivity).
  - destruct (pipeline_ref v) as [j|] eqn:Hpr.
    + destruct (pendingResults st !! j) as [result|] eqn:Hres.
      { exists 1%nat. rewrite resolve_S, Hpr, Hres. eauto. }
      destruct (pendingOperations st !! j) as [operation|] eqn:Hop.
      2:{ exists 1%nat. rewrite resolve_S, Hpr, Hres, Hop. eauto. }
      destruct (Hargs j operation st Hop) as (fuel & r & st1 & H); [|done|].
      { apply Hb; [|by rewrite Hop]. simpl. rewrite Hpr. by left. }
      exists (S fuel). rewrite resolve_S, Hpr, Hres, Hop, H.
      destruct r as [ra|e]; [|eauto].
      destruct (call_target _ _ _ _ _) as [[result|e] st2]; eauto.
    + destruct (loop_terminates n v) with (st := st) as (fuel & rl & st' & Hl);
        [done|done| |].
      { intros x Hx j Hj. apply Hb. simpl. rewrite Hpr. by eapply refs_flat_map. }
      exists (S fuel). rewrite resolve_S, Hpr.
      apply mapM_Done in Hl. rewrite Hl. destruct rl; eauto.
  - destruct (loop_terminates n (snd <$> fields)) with (st := st)
      as (fuel & rl & st' & Hl); [done|done| |].
    { intros x Hx j Hj. apply Hb. rewrite refs_JObject. by eapply refs_flat_map. }
    apply loop_of_fields in Hl as [rl' Hl].
    exists (S fuel). rewrite resolve_S.
    apply mapM_Done in Hl. rewrite Hl. destruct rl'; eauto.
Qed.

Lemma resolve_terminates_below n value st :
  refs_to_earlier (session st) → refs_bounded n value st →
  ∃ fuel r st', resolve fuel value st = Done r st'.
Proof.
  revert value st. induction n as [|n IHn]; apply resolve_terminates_step.
  - intros j operation st _ Hj. lia.
  - intros j operation st Hop Hj Hwf. apply IHn; [done|].
    intros k Hk [opk Hopk].
    destruct (Hwf j operation Hop) as [Hj0 Hlt]. specialize (Hlt k Hk).
    destruct (Hwf k opk Hopk) as [Hk0 _]. lia.
Qed.

Lemma resolve_terminates value st :
  refs_to_earlier (session st) →
  ∃ fuel r st', resolve fuel value st = Done r st'.
Proof.
  intros Hwf.
  apply (resolve_terminates_below (S (max_list (Z.to_nat <$> refs value)))); [done|].
  intros j Hj _. apply Nat.lt_succ_r, max_list_elem_of_le.
  apply list_elem_of_fmap. eauto.
Qed.

(** ** handlePush and the shape of a push body *)



(** ** Messages that only log *)

Lemma HandleMessage_release fuel payload st :
  HandleMessage Dispatch fuel (Some (JArray (JString "release" :: payload))) st
  = Done (Ok None) st.
Proof.
  unfold HandleMessage. simpl.
  destruct payload as [|[| |?| | |] [|[| |?| | |] ?]]; try done; by destruct st.
Qed.

Lemma HandleMessage_abort fuel payload st :
  HandleMessage Dispatch fuel (Some (JArray (JString "abort" :: payload))) st
  = Done (Ok None) st.
Proof.
  unfold HandleMessage. simpl. destruct payload; [done|]. by destruct st.
Qed.

Lemma serve_app fuel messages1 messages2 st :
  serve Dispatch fuel (messages1 ++ messages2) st =
  match serve Dispatch fuel messages1 st with
  | None => None
  | Some (responses1, st1) =>
      match serve Dispatch fuel messages2 st1 with
      | None => None
      | Some (responses2, st2) => Some (responses1 ++ responses2, st2)
      end
  end.
Proof.
  revert st. induction messages1 as [|message messages1 IH]; intros st; simpl.
  - by destruct (serve Dispatch fuel messages2 st) as [[? ?]|].
  - destruct (HandleMessage Dispatch fuel message st) as [|r st']; [done|].
    rewrite IH. destruct (serve Dispatch fuel messages1 st') as [[rs1 st1]|]; [|done].
    destruct (serve Dispatch fuel messages2 st1) as [[rs2 st2]|]; [|done].
    by destruct r as [[response|]|].
Qed.

Lemma serve_silent fuel message before after st :
  (∀ st, HandleMessage Dispatch fuel message st = Done (Ok None) st) →
  serve Dispatch fuel (before ++ message :: after) st =
  serve Dispatch fuel (before ++ after) st.
Proof.
  intros Hm. rewrite !serve_app.
  destruct (serve Dispatch fuel before st) as [[rs1 st1]|]; [|done].
  simpl. rewrite Hm. by destruct (serve Dispatch fuel after st1) as [[rs2 st2]|].
Qed.

Lemma serve_pull fuel exportID st response st' :
  handlePull Dispatch fuel exportID st = Done (Ok response) st' →
  serve Dispatch fuel [pull_message exportID] st = Some ([JArray response], st').
Proof.
  intros H. simpl. unfold HandleMessage. simpl.
  rewrite int_of_float64_of_int. unfold bind. by rewrite H.
Qed.

End Facts.

(** * The claims *)

Lemma map_index_elem_of obj k x :
  NoDup (obj.*1) → (k, x) ∈ obj → map_index obj k = x.
Proof.
  induction obj as [|[k' x'] obj IH]; [by intros _ ?%elem_of_nil|].
  rewrite fmap_cons. simpl. intros [Hnot Hnd]%NoDup_cons Hin.
  destruct (String.eqb_spec k' k) as [->|Hne].
  - apply elem_of_cons in Hin as [[= ->]|Hin]; [done|].
    destruct Hnot. apply list_elem_of_fmap. by exists (k, x).
  - apply elem_of_cons in Hin as [[= -> ->]|Hin]; [done|]. by apply IH.
Qed.

(** C8 (as amended). Path walking applies the selectors in order (the
    empty path returns the current value, and walking a concatenation is
    walking its parts one after the other).  A string selector on a
    map[string]interface{} steps into that key, whichever entry of the map
    holds it, and a missing key yields null.  A number selector on a
    []interface{} is converted with int(), which discards its fraction: an
    index within the list steps into that element (so a non-negative
    integer steps into that index), a negative index and an index beyond
    the end fail with the out-of-bounds error (the spec's
    PathOutOfBounds).  A string selector on a value that is not such a
    map, a number selector on a value that is not such a list and a
    selector that is neither a string nor a number fail with the spec's
    BadPath errors. *)
Theorem traversePath_selectors :
  (∀ current, traversePath current [] = Ok current) ∧
  (∀ current path1 path2,
     traversePath current (path1 ++ path2) =
     match traversePath current path1 with
     | Ok next => traversePath next path2
     | Err e => Err e
     end) ∧
  (∀ obj k path,
     traversePath (JObject obj) (JString k :: path) =
     traversePath (map_index obj k) path) ∧
  (∀ obj k, (∀ x, (k, x) ∉ obj) → map_index obj k = JNull) ∧
  (∀ obj k x, obj !! 0%nat = Some (k, x) → map_index obj k = x) ∧
  (∀ obj k x, NoDup (obj.*1) → (k, x) ∈ obj → map_index obj k = x) ∧
  (∀ n, int_of_float64 (float64_of_int n) = n) ∧
  (∀ arr n x path,
     0 ≤ n → arr !! Z.to_nat n = Some x →
     traversePath (JArray arr) (JNumber (float64_of_int n) :: path) =
     traversePath x path) ∧
  (∀ arr f x path,
     0 ≤ int_of_float64 f → arr !! Z.to_nat (int_of_float64 f) = Some x →
     traversePath (JArray arr) (JNumber f :: path) = traversePath x path) ∧
  (∀ arr n path,
     Z.of_nat (length arr) ≤ n →
     ∃ e, traversePath (JArray arr) (JNumber (float64_of_int n) :: path) = Err e ∧
          path_error_kind e = Some PathOutOfBounds) ∧
  (∀ arr f path,
     int_of_float64 f < 0 ∨ Z.of_nat (length arr) ≤ int_of_float64 f →
     ∃ e, traversePath (JArray arr) (JNumber f :: path) = Err e ∧
          path_error_kind e = Some PathOutOfBounds) ∧
  (∀ current k path,
     (∀ obj, current ≠ JObject obj) →
     ∃ e, traversePath current (JString k :: path) = Err e ∧
          path_error_kind e = Some BadPath) ∧
  (∀ current f path,
     (∀ arr, current ≠ JArray arr) →
     ∃ e, traversePath current (JNumber f :: path) = Err e ∧
          path_error_kind e = Some BadPath) ∧
  (∀ current key path,
     (∀ k, key ≠ JString k) → (∀ f, key ≠ JNumber f) →
     ∃ e, traversePath current (key :: path) = Err e ∧
          path_error_kind e = Some BadPath).
Proof.
  repeat split.
  - intros current path1. revert current.
    induction path1 as [|key path1 IH]; intros current path2; [done|]. simpl.
    destruct key as [| |f|k| |]; try done.
    + destruct current as [| | | |arr|]; try done.
      by destruct (_ || _).
    + by destruct current as [| | | | |obj].
  - intros obj k Hk. induction obj as [|[k' x] obj IH]; [done|]. simpl.
    destruct (String.eqb_spec k' k) as [->|Hne].
    + destruct (Hk x). by left.
    + apply IH. intros x' Hx'. apply (Hk x'). by right.
  - intros [|[k' x'] obj] k x [=]; subst. simpl. by rewrite String.eqb_refl.
  - apply map_index_elem_of.
  - apply int_of_float64_of_int.
  - intros arr n x path Hn Hx. simpl. rewrite int_of_float64_of_int.
    apply lookup_lt_Some in Hx as Hlt.
    destruct (Z.ltb_spec n 0); [lia|].
    destruct (Z.leb_spec (Z.of_nat (length arr)) n); [lia|]. simpl. by rewrite Hx.
  - intros arr f x path Hf Hx. simpl.
    apply lookup_lt_Some in Hx as Hlt.
    destruct (Z.ltb_spec (int_of_float64 f) 0); [lia|].
    destruct (Z.leb_spec (Z.of_nat (length arr)) (int_of_float64 f)); [lia|].
    simpl. by rewrite Hx.
  - intros arr n path Hn. exists IndexOutOfBounds. split; [|done]. simpl.
    rewrite int_of_float64_of_int.
    destruct (Z.leb_spec (Z.of_nat (length arr)) n); [|lia]. by rewrite orb_true_r.
  - intros arr f path Hf. exists IndexOutOfBounds. split; [|done]. simpl.
    destruct (Z.ltb_spec (int_of_float64 f) 0); [done|].
    destruct (Z.leb_spec (Z.of_nat (length arr)) (int_of_float64 f)); [done|lia].
  - intros current k path Hc. exists StringKeyOnNonObject. split; [|done].
    destruct current as [| | | | |obj]; try done. by destruct (Hc obj).
  - intros current f path Hc. exists NumericKeyOnNonArray. split; [|done].
    destruct current as [| | | |arr|]; try done. by destruct (Hc arr).
  - intros current key path Hs Hn. exists InvalidPathKeyType. split; [|done].
    destruct key as [| |f|k| |]; try done; [by destruct (Hn f)|by destruct (Hs k)].
Qed.

Section Claims.

Context {World : Type}.
Variable Dispatch : string → RawMessage → World → Result Value * World.

Local Abbreviation resolve := (resolvePipelineReferences Dispatch).
Local Abbreviation Machine := (Machine (World:=World)).

Implicit Types (st : Machine).

Lemma HandleMessage_push fuel pushData st :
  HandleMessage Dispatch fuel (push_message pushData) st =
  Done (Ok None) (with_session (λ sd, (handlePush sd pushData).2) st).
Proof. done. Qed.

Lemma session_after_push pushData st :
  session (with_session (λ sd, (handlePush sd pushData).2) st) =
  (handlePush (session st) pushData).2.
Proof. done. Qed.



(** C9. Handling a release or an abort message, whatever its payload,
    changes nothing: the counter, both tables, and the target are exactly
    as before, no response is produced, and the session processes the
    messages around it as if the message had not been sent. *)
Theorem release_abort_no_effect :
  ∀ fuel st payload,
    HandleMessage Dispatch fuel (Some (JArray (JString "release" :: payload))) st
    = Done (Ok None) st ∧
    HandleMessage Dispatch fuel (Some (JArray (JString "abort" :: payload))) st
    = Done (Ok None) st ∧
    (∀ before after,
       serve Dispatch fuel
         (before ++ Some (JArray (JString "release" :: payload)) :: after) st
       = serve Dispatch fuel (before ++ after) st) ∧
    (∀ before after,
       serve Dispatch fuel
         (before ++ Some (JArray (JString "abort" :: payload)) :: after) st
       = serve Dispatch fuel (before ++ after) st).
Proof.
  intros fuel st payload. split; [apply HandleMessage_release|].
  split; [apply HandleMessage_abort|]. split; intros before after.
  - apply serve_silent. intros st0. apply HandleMessage_release.
  - apply serve_silent. intros st0. apply HandleMessage_abort.
Qed.

(** Array escaping for results of the types Value has: whenever a pull
    emits a resolve message, the resolved value is the cached result of the
    pulled id or the value the target has just returned for it, and the
    payload is that value wrapped in a one-element list exactly when it is
    a []interface{}.  A result of another Go type, such as a []string, is
    outside Value and outside this lemma. *)
Lemma resolve_payload_escaped fuel exportID st response st' :
  handlePull Dispatch fuel exportID st = Done (Ok response) st' →
  is_resolve response →
  ∃ result,
    (pendingResults st !! exportID = Some result ∨
     (pendingResults st !! exportID = None ∧
      ∃ operation resolvedArgs st1 st2,
        pendingOperations st !! exportID = Some operation ∧
        call_target Dispatch exportID (Method operation) resolvedArgs st1
        = (Ok result, st2))) ∧
    (∀ l, result = JArray l →
       response = [JString "resolve"; JNumber (float64_of_int exportID);
                   JArray [JArray l]]) ∧
    ((∀ l, result ≠ JArray l) →
       response = [JString "resolve"; JNumber (float64_of_int exportID); result]).
Proof.
  intros H [rest Hrest].
  assert (∀ result, response = resolve_response exportID (escape_array result) →
    (∀ l, result = JArray l →
       response = [JString "resolve"; JNumber (float64_of_int exportID);
                   JArray [JArray l]]) ∧
    ((∀ l, result ≠ JArray l) →
       response = [JString "resolve"; JNumber (float64_of_int exportID); result]))
    as Hwrap.
  { intros result ->. split; [by intros l ->|].
    intros Hnot. destruct result as [| | | |l|]; try done. by destruct (Hnot l). }
  apply handlePull_Done in H as
    [(result & Hres & -> & Hr)
    |[(Hres & Hop & -> & Hr)
     |[(operation & e & Hres & Hop & Hargs & Hr)
      |(operation & ra & st1 & rd & st2 & Hres & Hop & Hargs & Hcall & Hrd)]]].
  - exists result. split; [by left|]. apply Hwrap.
    destruct (is_error_array result); by simplify_eq.
  - by simplify_eq.
  - by simplify_eq.
  - destruct rd as [result|e]; destruct Hrd as [-> Hr]; [|by simplify_eq].
    exists result. split; [|apply Hwrap; by simplify_eq].
    right. split; [done|]. by exists operation, ra, st1, st2.
Qed.

Lemma unknown_after_intro exportID st :
  pendingOperations st !! exportID = None →
  pendingResults st !! exportID = None →
  unknown_after Dispatch exportID st.
Proof.
  intros Hop Hres. split; [done|]. split; [done|].
  intros fuel. by apply handlePull_unknown.
Qed.

(** C1 (as amended). A pull of an export id i that finds i in
    PendingOperations and whose Dispatch call succeeds with result moves i
    from pending to computed and leaves it there: right after the resolve
    response, i is not in PendingOperations and PendingResults maps i to
    result.  A second pull of i is answered from PendingResults (the same
    resolve again, or a reject when result is an error value) and removes
    the entry; only after that is i unknown, and a third pull yields the
    ExportNotFound reject. *)
Theorem pull_dispatch_keeps_result fuel exportID operation st response st' :
  pendingResults st !! exportID = None →
  pendingOperations st !! exportID = Some operation →
  handlePull Dispatch fuel exportID st = Done (Ok response) st' →
  is_resolve response →
  ∃ result,
    (∃ resolvedArgs st1 st2,
       call_target Dispatch exportID (Method operation) resolvedArgs st1
       = (Ok result, st2)) ∧
    response = resolve_response exportID (escape_array result) ∧
    pendingOperations st' !! exportID = None ∧
    pendingResults st' !! exportID = Some result ∧
    ∀ fuel2,
      handlePull Dispatch fuel2 exportID st' =
      Done (Ok (if is_error_array result then reject_response exportID result
                else resolve_response exportID (escape_array result)))
           (with_session (delete_result exportID) st') ∧
      unknown_after Dispatch exportID (with_session (delete_result exportID) st').
Proof.
  intros Hres Hop H [rest Hrest].
  apply handlePull_Done in H as
    [(result & Hres' & _)
    |[(_ & _ & _ & Hr)
     |[(op & e & _ & _ & _ & Hr)
      |(op & ra & st1 & rd & st2 & _ & Hop' & Hargs & Hcall & Hrd)]]];
    [congruence|by simplify_eq|by simplify_eq|].
  assert (op = operation) as -> by congruence.
  destruct rd as [result|e]; destruct Hrd as [-> Hr]; [|by simplify_eq].
  exists result. split; [by exists ra, st1, st2|]. split; [by simplify_eq|].
  split; [simpl; by rewrite lookup_delete_eq|].
  split; [simpl; by rewrite lookup_insert_eq|].
  intros fuel2. split.
  - apply handlePull_cached. simpl. by rewrite lookup_insert_eq.
  - apply unknown_after_intro; simpl; by rewrite lookup_delete_eq.
Qed.

(** C2 (as amended). A pull that yields a reject emits exactly one
    message, the reject.  After a reject of kind MethodError or
    ExportNotFound, and after a reject that hands out a stored error value,
    the pulled id is in neither table, so a subsequent pull of it returns
    the ExportNotFound reject.  After a reject of kind PipelineError the
    operation is still in PendingOperations, unchanged and without a
    result. *)
Theorem failed_pull_outcome fuel exportID st response st' :
  tables_disjoint (session st) →
  handlePull Dispatch fuel exportID st = Done (Ok response) st' →
  is_reject response →
  serve Dispatch fuel [pull_message exportID] st = Some ([JArray response], st') ∧
  ((∃ operation e,
      response = createErrorResponse exportID "PipelineError" (Error e) ∧
      pendingOperations st !! exportID = Some operation ∧
      pendingOperations st' !! exportID = Some operation ∧
      pendingResults st' !! exportID = None)
   ∨ (∃ e, response = createErrorResponse exportID "MethodError" (Error e) ∧
           unknown_after Dispatch exportID st')
   ∨ (response = export_not_found exportID ∧ st' = st ∧
      unknown_after Dispatch exportID st')
   ∨ (∃ result, pendingResults st !! exportID = Some result ∧
                is_error_array result = true ∧
                response = reject_response exportID result ∧
                unknown_after Dispatch exportID st')).
Proof.
  intros Hd H [rest Hrest]. split; [by apply serve_pull|].
  apply handlePull_Done in H as
    [(result & Hres & -> & Hr)
    |[(Hres & Hop & -> & Hr)
     |[(operation & e & Hres & Hop & Hargs & Hr)
      |(operation & ra & st1 & rd & st2 & Hres & Hop & Hargs & Hcall & Hrd)]]].
  - do 3 right. exists result.
    destruct (is_error_array result); [|by simplify_eq].
    do 2 (split; [done|]). split; [by simplify_eq|].
    apply unknown_after_intro; simpl; [|by rewrite lookup_delete_eq].
    destruct (pendingOperations st !! exportID) eqn:Hop; [|done].
    destruct (Hd exportID). by rewrite Hop, Hres.
  - do 2 right. left. split; [by simplify_eq|]. split; [done|].
    by apply unknown_after_intro.
  - left. exists operation, e. split; [by simplify_eq|]. split; [done|].
    pose proof (resolve_progress_calls _ _ _ _ _ _ Hargs) as P.
    destruct (pr_frame _ _ _ _ P exportID) as [-> ->]; [|done].
    by apply (resolve_not_self _ _ _ _ _ _ _ Hop Hres Hargs).
  - destruct rd as [result|e]; destruct Hrd as [-> Hr]; [by simplify_eq|].
    right; left. exists e. split; [by simplify_eq|].
    apply call_target_session in Hcall as [Hs _].
    apply unknown_after_intro; simpl; rewrite Hs; [by rewrite lookup_delete_eq|].
    pose proof (resolve_progress_calls _ _ _ _ _ _ Hargs) as P.
    destruct (pr_frame _ _ _ _ P exportID) as [_ ->]; [|done].
    by apply (resolve_not_self _ _ _ _ _ _ _ Hop Hres Hargs).
Qed.

Lemma resolve_first_encounter fuel v j st a st' :
  pipeline_ref v = Some j →
  pendingResults st !! j = None →
  resolve fuel (JArray v) st = Done (Ok a) st' →
  j ∈ dispatched st st' ∧
  pendingOperations st' !! j = None ∧
  ∃ result, pendingResults st' !! j = Some result ∧
            traverse_ref_path v result = Ok a.
Proof.
  intros Hpr Hres H. destruct fuel as [|fuel]; [discriminate|].
  rewrite resolve_S, Hpr, Hres in H.
  destruct (pendingOperations st !! j) as [operation|]; [|discriminate].
  destruct (resolve fuel (Args operation) st) as [|[ra|e] st1] eqn:Hargs;
    try discriminate.
  pose proof (resolve_progress_calls _ _ _ _ _ _ Hargs) as P1.
  destruct (call_target _ _ _ _ _) as [[result|e] st2] eqn:Hcall; [|discriminate].
  destruct (dispatched_call _ _ _ _ _ _ _ _ _ _
              (cache_result j result) P1 Hcall) as [_ Hd].
  injection H as Ha <-. split; [|split].
  - rewrite Hd, elem_of_app, list_elem_of_singleton. by right.
  - simpl. by rewrite lookup_delete_eq.
  - exists result. simpl. by rewrite lookup_insert_eq.
Qed.

Lemma resolve_later_encounter fuel v j result st :
  pipeline_ref v = Some j →
  pendingResults st !! j = Some result →
  resolve (S fuel) (JArray v) st = Done (traverse_ref_path v result) st.
Proof. intros Hpr Hres. by rewrite resolve_S, Hpr, Hres. Qed.

(** C4. While one pull is handled the target is called at most once for
    any export id: the export ids of the Dispatch calls made have no
    duplicates.  This is so because the first encounter of a reference to
    a pending id dispatches it once and moves it from PendingOperations to
    PendingResults, a result once cached stays cached for the rest of the
    run, and an encounter of a reference to a cached id returns the cached
    value (walked along the path) without any call or change of state. *)
Theorem diamond_dispatched_once fuel exportID st r st' :
  handlePull Dispatch fuel exportID st = Done r st' →
  NoDup (dispatched st st') ∧
  (∀ fuel0 v j st0 a st1,
     pipeline_ref v = Some j → pendingResults st0 !! j = None →
     resolve fuel0 (JArray v) st0 = Done (Ok a) st1 →
     j ∈ dispatched st0 st1 ∧ NoDup (dispatched st0 st1) ∧
     pendingOperations st1 !! j = None ∧
     ∃ result, pendingResults st1 !! j = Some result ∧
               traverse_ref_path v result = Ok a) ∧
  (∀ fuel0 value st0 r0 st1 j result,
     resolve fuel0 value st0 = Done r0 st1 →
     pendingResults st0 !! j = Some result →
     pendingResults st1 !! j = Some result ∧ j ∉ dispatched st0 st1) ∧
  (∀ fuel0 v j result st0,
     pipeline_ref v = Some j → pendingResults st0 !! j = Some result →
     resolve (S fuel0) (JArray v) st0 = Done (traverse_ref_path v result) st0 ∧
     dispatched st0 st0 = []).
Proof.
  intros H. split; [by eapply handlePull_NoDup|]. split; [|split].
  - intros fuel0 v j st0 a st1 Hpr Hres H0.
    destruct (resolve_first_encounter _ _ _ _ _ _ Hpr Hres H0) as (? & ? & ?).
    split; [done|]. split; [by eapply resolve_NoDup|done].
  - intros fuel0 value st0 r0 st1 j result H0 Hres.
    pose proof (resolve_progress_calls _ _ _ _ _ _ H0) as P.
    split; [by apply (pr_results _ _ _ _ P)|].
    intros Hin. destruct (pr_was_pending _ _ _ _ P j Hin) as [_ Hnone]. congruence.
  - intros fuel0 v j result st0 Hpr Hres.
    split; [by eapply resolve_later_encounter|apply dispatched_refl].
Qed.

(** C5. At every moment of a session's life (after NewSessionData or
    OnOpen, after each message of whatever kind, and after each run of the
    resolver inside a pull) an export id is in at most one of
    PendingOperations and PendingResults.  The two edits that cache a
    result are made under one Lock and are one step here. *)
Theorem tables_never_overlap st :
  session_state Dispatch st → tables_disjoint (session st).
Proof. intros H. by apply session_state_invariant in H as (_ & Hd & _). Qed.

Lemma int_wrap_in_range z : int_min ≤ z ≤ int_max → int_wrap z = z.
Proof.
  unfold int_wrap, int_min, int_max. intros Hz.
  rewrite Z.mod_small by lia. lia.
Qed.

Lemma handlePush_int_below sessionData pushData :
  int_min ≤ NextExportID sessionData < int_max →
  (handlePush sessionData pushData).2 = handlePush_int sessionData pushData.
Proof.
  intros Hn. unfold handlePush, handlePush_int.
  destruct pushData as [| | | |[|p0 pushArray]|]; try done.
  rewrite int_wrap_in_range by (unfold int_min, int_max in *; lia).
  by destruct (pipeline_call (p0 :: pushArray)).
Qed.

(** C7 (as amended). Export ids are allocated from 1 upwards: the counter
    of a new or re-opened session is 1; an allocation registers the call
    under the current counter and increments the counter by one.  The
    counter is a Go int, so the increment at the largest int wraps around
    to the smallest.  As long as the counter of the session has not
    reached the largest int: the session core with its counter in Z is the
    code (no message makes the counter smaller, so it has not wrapped
    before); of two pushes within one session the earlier is registered
    under the smaller id; the counter strictly exceeds the id of every
    earlier push, and every id in a table is at least 1 and below the
    counter. *)
Theorem export_ids_monotonic :
  NextExportID NewSessionData = 1 ∧
  (∀ sessionData, NextExportID (OnOpen sessionData) = 1) ∧
  (∀ sessionData p0 pushArray,
     int_min ≤ NextExportID sessionData < int_max →
     NextExportID (handlePush_int sessionData (JArray (p0 :: pushArray)))
     = NextExportID sessionData + 1 ∧
     ∀ operation, pipeline_call (p0 :: pushArray) = Some operation →
       PendingOperations (handlePush_int sessionData (JArray (p0 :: pushArray)))
         !! NextExportID sessionData = Some operation) ∧
  (∀ sessionData p0 pushArray,
     NextExportID sessionData = int_max →
     NextExportID (handlePush_int sessionData (JArray (p0 :: pushArray))) = int_min) ∧
  (∀ sessionData pushData,
     int_min ≤ NextExportID sessionData < int_max →
     (handlePush sessionData pushData).2 = handlePush_int sessionData pushData) ∧
  (∀ fuel st1 p0 pushArray operation1 r1 st1' st2 q0 pushArray2 operation2,
     1 ≤ NextExportID (session st1) →
     HandleMessage Dispatch fuel (push_message (JArray (p0 :: pushArray))) st1
     = Done r1 st1' →
     pipeline_call (p0 :: pushArray) = Some operation1 →
     rtc (message_step Dispatch) st1' st2 →
     NextExportID (session st2) < int_max →
     pipeline_call (q0 :: pushArray2) = Some operation2 →
     pendingOperations st1' !! NextExportID (session st1) = Some operation1 ∧
     PendingOperations (handlePush_int (session st2) (JArray (q0 :: pushArray2)))
       !! NextExportID (session st2) = Some operation2 ∧
     NextExportID (session st1) < NextExportID (session st2) ∧
     NextExportID (session st2)
     < NextExportID (handlePush_int (session st2) (JArray (q0 :: pushArray2)))) ∧
  (∀ st st', rtc (message_step Dispatch) st st' →
     NextExportID (session st) ≤ NextExportID (session st')) ∧
  (∀ st, session_state Dispatch st →
     NextExportID (session st) ≤ int_max →
     1 ≤ NextExportID (session st) ∧ ids_below_next (session st)).
Proof.
  assert (∀ sessionData p0 pushArray,
     int_min ≤ NextExportID sessionData < int_max →
     NextExportID (handlePush_int sessionData (JArray (p0 :: pushArray)))
     = NextExportID sessionData + 1 ∧
     ∀ operation, pipeline_call (p0 :: pushArray) = Some operation →
       PendingOperations (handlePush_int sessionData (JArray (p0 :: pushArray)))
         !! NextExportID sessionData = Some operation) as Halloc.
  { intros sessionData p0 pushArray Hn. unfold handlePush_int.
    rewrite int_wrap_in_range by (unfold int_min, int_max in *; lia).
    destruct (pipeline_call (p0 :: pushArray)) as [operation|]; simpl.
    - split; [done|]. intros ? [= <-]. by rewrite lookup_insert_eq.
    - split; [done|]. by intros. }
  split; [done|]. split; [done|]. split; [exact Halloc|].
  split; [|split; [|split; [|split]]].
  - intros sessionData p0 pushArray Hn. unfold handlePush_int. rewrite Hn.
    by destruct (pipeline_call (p0 :: pushArray)).
  - apply handlePush_int_below.
  - intros fuel st1 p0 pushArray operation1 r1 st1' st2 q0 pushArray2 operation2
      Hn1 H Hop1 Hsteps Hn2 Hop2.
    rewrite HandleMessage_push in H.
    assert (st1' = with_session
                     (λ sd, (handlePush sd (JArray (p0 :: pushArray))).2) st1)
      as -> by congruence.
    apply message_steps_next in Hsteps. rewrite session_after_push in Hsteps.
    assert (NextExportID (handlePush (session st1) (JArray (p0 :: pushArray))).2
            = NextExportID (session st1) + 1) as Hn1'
      by (unfold handlePush; by rewrite Hop1).
    rewrite Hn1' in Hsteps.
    assert (int_min ≤ NextExportID (session st2) < int_max) as Hrange
      by (unfold int_min in *; lia).
    destruct (Halloc (session st2) q0 pushArray2 Hrange) as [Hnext2 Hkey2].
    split; [|split; [by apply Hkey2|split; lia]].
    rewrite session_after_push. unfold handlePush. rewrite Hop1. simpl.
    by rewrite lookup_insert_eq.
  - apply message_steps_next.
  - intros st H _. apply session_state_invariant in H as (Hn & _ & Hb). done.
Qed.

(** C3 (as amended). Resolving a reference to a pending operation whose
    args refer to that operation itself never succeeds, and no cycle error
    exists: a call that returns at all returns the error of some other
    reference met on the way, and the operation is still pending without a
    result.  Pipeline resolution, and with it a pull, terminates on every
    value tree in every session state whose pending operations have
    positive ids and args that refer to smaller ids only. *)
Theorem self_reference_never_resolves :
  (∀ fuel st j operation v r st',
     pendingOperations st !! j = Some operation →
     pendingResults st !! j = None →
     j ∈ refs (Args operation) →
     pipeline_ref v = Some j →
     resolve fuel (JArray v) st = Done r st' →
     is_ok r = false ∧
     (j ∉ dispatched st st') ∧
     pendingOperations st' !! j = Some operation ∧
     pendingResults st' !! j = None) ∧
  (∀ st value,
     refs_to_earlier (session st) →
     ∃ fuel r st', resolve fuel value st = Done r st') ∧
  (∀ st exportID,
     refs_to_earlier (session st) →
     ∃ fuel r st', handlePull Dispatch fuel exportID st = Done r st').
Proof.
  split; [|split].
  - intros fuel st j operation v r st' Hop Hres Hself Hpr H.
    pose proof (resolve_progress_calls _ _ _ _ _ _ H) as P.
    assert (j ∉ dispatched st st') as Hnot.
    { eapply resolve_cycle; eauto. eapply reaches_here; eauto. }
    destruct (pr_frame _ _ _ _ P j Hnot) as [Eop Eres].
    split; [|by rewrite Eop, Eres].
    destruct r as [a|e]; [|done].
    destruct (resolve_refs_cached _ _ _ _ _ _ H j) as [x Hx].
    { simpl. rewrite Hpr. by left. }
    congruence.
  - intros st value Hwf. by apply resolve_terminates.
  - intros st exportID Hwf. unfold handlePull.
    destruct (pendingResults st !! exportID) as [result|].
    { exists 0%nat. destruct (is_error_array result); [eauto|]. destruct result; eauto. }
    destruct (pendingOperations st !! exportID) as [operation|]; [|exists 0%nat; eauto].
    destruct (resolve_terminates Dispatch (Args operation) st Hwf)
      as (fuel & r & st1 & H).
    exists fuel. simpl. rewrite H. destruct r as [ra|e]; [|eauto]. simpl.
    destruct (call_target _ _ _ _ _) as [[result|e] st2]; [|eauto].
    destruct result; eauto.
Qed.

End Claims.

(** * The examples, run *)

Example scenario_hello :
  serve example_Dispatch 3 [push_message example_hello; pull_message 1] example_start
  = Some ([JArray (resolve_response 1 (JString "Hello, World!"))],
          example_hello_pulled).
Proof. vm_compute. reflexivity. Qed.

Example scenario_diamond :
  serve example_Dispatch 5
    [push_message example_get; push_message example_diamond] example_start
  = Some ([], example_diamond_pushed) ∧
  handlePull example_Dispatch 5 2 example_diamond_pushed
  = Done (Ok (resolve_response 2
                (JArray [JArray [JNumber (inject_Z 10); JNumber (inject_Z 20)]])))
         example_diamond_pulled.
Proof. split; vm_compute; reflexivity. Qed.

Example scenario_list_result :
  serve example_Dispatch 3 [push_message example_notes; pull_message 1] example_start
  = Some ([JArray (resolve_response 1 (JArray [JArray [JString "a"; JString "b"]]))],
          mkMachine {| PendingResults := {[1 := JArray [JString "a"; JString "b"]]};
                       PendingOperations := ∅;
                       NextExportID := 2 |} 1%nat
                    [mkCall 1 "getNotes" (JArray [])]).
Proof. vm_compute. reflexivity. Qed.

Example scenario_unknown_export :
  serve example_Dispatch 3 [pull_message 42] example_start
  = Some ([JArray (export_not_found 42)], example_start).
Proof. vm_compute. reflexivity. Qed.

Example scenario_method_error :
  serve example_Dispatch 3
    [push_message (call_body "authenticate" (JArray [JString "bad"]));
     pull_message 1; pull_message 1] example_start
  = Some ([JArray (createErrorResponse 1 "MethodError"
                     "method not found: authenticate");
           JArray (export_not_found 1)],
          mkMachine {| PendingResults := ∅; PendingOperations := ∅;
                       NextExportID := 2 |} 0%nat
                    [mkCall 1 "authenticate" (JArray [JString "bad"])]).
Proof. vm_compute. reflexivity. Qed.

Example scenario_path :
  fst <$> serve example_Dispatch 5
    [push_message example_get;
     push_message (call_body "echo"
       (JArray [pipeline 1 [JString "a"; JNumber (float64_of_int 1)]]));
     pull_message 2] example_start
  = Some [JArray (resolve_response 2 (JNumber (inject_Z 20)))].
Proof. vm_compute. reflexivity. Qed.

(** Two selectors the spec's path grammar does not have: a negative index
    on a list is out of bounds, and int() truncates a fraction. *)
Lemma traversePath_negative_index arr n path :
  n < 0 →
  traversePath (JArray arr) (JNumber (float64_of_int n) :: path)
  = Err IndexOutOfBounds.
Proof.
  intros Hn. simpl. rewrite int_of_float64_of_int.
  by destruct (Z.ltb_spec n 0); [|lia].
Qed.

Example traversePath_fraction :
  traversePath (JArray [JString "x"; JString "y"]) [JNumber (Qmake 3 2)]
  = Ok (JString "y").
Proof. reflexivity. Qed.

(** C1, counterexample.  After the push of hello, the pull of id 1
    dispatches and resolves; id 1 is then in PendingResults, and a second
    pull of id 1 yields the same resolve, not the ExportNotFound reject. *)
Lemma second_pull_resolves_again :
  pendingOperations (example_pushed "hello" (JArray [JString "World"])) !! 1
  = Some (mkOperation "hello" (JArray [JString "World"])) ∧
  handlePull example_Dispatch 3 1 (example_pushed "hello" (JArray [JString "World"]))
  = Done (Ok (resolve_response 1 (JString "Hello, World!"))) example_hello_pulled ∧
  pendingResults example_hello_pulled !! 1 = Some (JString "Hello, World!") ∧
  handlePull example_Dispatch 3 1 example_hello_pulled
  = Done (Ok (resolve_response 1 (JString "Hello, World!")))
         (with_session (delete_result 1) example_hello_pulled) ∧
  resolve_response 1 (JString "Hello, World!") ≠ export_not_found 1.
Proof. repeat split; try (vm_compute; reflexivity). discriminate. Qed.

Lemma pull_dispatch_keeps_result_witness :
  ∃ result,
    pendingResults example_hello_pulled !! 1 = Some result ∧
    unknown_after example_Dispatch 1
      (with_session (delete_result 1) example_hello_pulled).
Proof.
  destruct (pull_dispatch_keeps_result example_Dispatch 3 1
              (mkOperation "hello" (JArray [JString "World"]))
              (example_pushed "hello" (JArray [JString "World"]))
              (resolve_response 1 (JString "Hello, World!"))
              example_hello_pulled)
    as (result & _ & _ & _ & Hres & Hnext).
  - reflexivity.
  - reflexivity.
  - vm_compute. reflexivity.
  - eexists. reflexivity.
  - exists result. split; [exact Hres|]. exact (proj2 (Hnext 0%nat)).
Defined.

(** C2, counterexample.  The args of the pushed operation refer to export
    42, which does not exist.  The pull of id 1 yields the PipelineError
    reject and leaves the operation in PendingOperations; a second pull
    yields the PipelineError reject again, not ExportNotFound. *)
Lemma pipeline_error_stays_pending :
  handlePull example_Dispatch 5 1 (example_pushed "echo" (JArray [pipeline 42 []]))
  = Done (Ok (createErrorResponse 1 "PipelineError"
                "pipeline reference to non-existent export: 42"))
         (example_pushed "echo" (JArray [pipeline 42 []])) ∧
  pendingOperations (example_pushed "echo" (JArray [pipeline 42 []])) !! 1
  = Some (mkOperation "echo" (JArray [pipeline 42 []])) ∧
  createErrorResponse 1 "PipelineError" "pipeline reference to non-existent export: 42"
  ≠ export_not_found 1 ∧
  serve example_Dispatch 5
    [push_message example_dangling; pull_message 1; pull_message 1] example_start
  = Some ([JArray (createErrorResponse 1 "PipelineError"
                     "pipeline reference to non-existent export: 42");
           JArray (createErrorResponse 1 "PipelineError"
                     "pipeline reference to non-existent export: 42")],
          example_pushed "echo" (JArray [pipeline 42 []])).
Proof. repeat split; try (vm_compute; reflexivity). discriminate. Qed.

Lemma failed_pull_outcome_witness :
  serve example_Dispatch 5 [pull_message 1]
    (example_pushed "echo" (JArray [pipeline 42 []]))
  = Some ([JArray (createErrorResponse 1 "PipelineError"
                     "pipeline reference to non-existent export: 42")],
          example_pushed "echo" (JArray [pipeline 42 []])).
Proof.
  refine (proj1 (failed_pull_outcome example_Dispatch 5 1
                   (example_pushed "echo" (JArray [pipeline 42 []]))
                   (createErrorResponse 1 "PipelineError"
                      "pipeline reference to non-existent export: 42")
                   (example_pushed "echo" (JArray [pipeline 42 []])) _ _ _)).
  - intros i [_ [x Hx]]. simpl in Hx. by rewrite lookup_empty in Hx.
  - vm_compute. reflexivity.
  - eexists. reflexivity.
Defined.

(** C3, counterexample.  The args of the pending operation 1 are
    [["pipeline", 1, []]].  Whatever the fuel, neither the resolution of
    that reference nor the pull of id 1 returns: there is no CycleDetected
    error and no result at all. *)
Lemma self_reference_loops :
  pendingOperations (example_pushed "echo" (JArray [pipeline 1 []])) !! 1
  = Some (mkOperation "echo" (JArray [pipeline 1 []])) ∧
  serve example_Dispatch 1 [push_message example_self] example_start
  = Some ([], example_pushed "echo" (JArray [pipeline 1 []])) ∧
  (∀ fuel, resolvePipelineReferences example_Dispatch fuel (pipeline 1 [])
             (example_pushed "echo" (JArray [pipeline 1 []])) = OutOfFuel) ∧
  (∀ fuel, handlePull example_Dispatch fuel 1
             (example_pushed "echo" (JArray [pipeline 1 []])) = OutOfFuel).
Proof.
  split; [reflexivity|]. split; [vm_compute; reflexivity|].
  set (st := example_pushed "echo" (JArray [pipeline 1 []])).
  assert (∀ fuel,
    resolvePipelineReferences example_Dispatch fuel (pipeline 1 []) st = OutOfFuel ∧
    resolvePipelineReferences example_Dispatch fuel (JArray [pipeline 1 []]) st
    = OutOfFuel) as Hloop.
  { induction fuel as [|fuel [IH1 IH2]]; [done|]. split.
    - by apply (resolve_ref_OutOfFuel example_Dispatch fuel
                  [JString "pipeline"; JNumber (float64_of_int 1); JArray []] 1
                  (mkOperation "echo" (JArray [pipeline 1 []])) st).
    - by apply resolve_singleton_OutOfFuel. }
  split; [intros fuel; apply Hloop|].
  intros fuel. unfold handlePull.
  change (pendingResults st !! 1) with (@None Value).
  change (pendingOperations st !! 1)
    with (Some (mkOperation "echo" (JArray [pipeline 1 []]))).
  simpl. by destruct (Hloop fuel) as [_ ->].
Qed.

Example scenario_dangling_self :
  serve example_Dispatch 1 [push_message example_dangling_self] example_start
  = Some ([], example_pushed "echo" (JArray [pipeline 42 []; pipeline 1 []])) ∧
  resolvePipelineReferences example_Dispatch 5 (pipeline 1 [])
    (example_pushed "echo" (JArray [pipeline 42 []; pipeline 1 []]))
  = Done (Err (NonExistentExport 42))
         (example_pushed "echo" (JArray [pipeline 42 []; pipeline 1 []])).
Proof. split; vm_compute; reflexivity. Qed.

Lemma self_reference_never_resolves_witness :
  is_ok (Err (A:=Value) (NonExistentExport 42)) = false ∧
  (∃ fuel r st',
     handlePull example_Dispatch fuel 2 example_diamond_pushed = Done r st').
Proof.
  destruct (self_reference_never_resolves example_Dispatch)
    as (Hself & _ & Hterm). split.
  - refine (proj1 (Hself 5%nat
      (example_pushed "echo" (JArray [pipeline 42 []; pipeline 1 []])) 1
      (mkOperation "echo" (JArray [pipeline 42 []; pipeline 1 []]))
      [JString "pipeline"; JNumber (float64_of_int 1); JArray []]
      (Err (NonExistentExport 42))
      (example_pushed "echo" (JArray [pipeline 42 []; pipeline 1 []])) _ _ _ _ _)).
    + reflexivity.
    + reflexivity.
    + vm_compute. apply list_elem_of_In. simpl. tauto.
    + reflexivity.
    + vm_compute. reflexivity.
  - apply Hterm. intros i operation Hi. simpl in Hi.
    apply lookup_insert_Some in Hi as [[<- <-]|[Hne Hi]].
    + split; [lia|]. intros j Hj. by apply elem_of_nil in Hj.
    + apply lookup_singleton_Some in Hi as [<- <-]. split; [lia|].
      intros j Hj. vm_compute in Hj.
      apply list_elem_of_In in Hj. simpl in Hj. lia.
Defined.

Lemma diamond_dispatched_once_witness :
  dispatched example_diamond_pushed example_diamond_pulled = [1; 2] ∧
  NoDup (dispatched example_diamond_pushed example_diamond_pulled).
Proof.
  split; [vm_compute; reflexivity|].
  refine (proj1 (diamond_dispatched_once example_Dispatch 5 2 example_diamond_pushed
                   (Ok (resolve_response 2
                          (JArray [JArray [JNumber (inject_Z 10);
                                           JNumber (inject_Z 20)]])))
                   example_diamond_pulled _)).
  vm_compute. reflexivity.
Defined.

Lemma example_hello_pulled_life : session_state example_Dispatch example_hello_pulled.
Proof.
  eapply life_message; [eapply life_message; [apply (life_new example_Dispatch 0%nat [])|]|].
  - exists 3%nat, (push_message example_hello), (Ok None). reflexivity.
  - exists 3%nat, (pull_message 1),
      (Ok (Some (JArray (resolve_response 1 (JString "Hello, World!"))))).
    vm_compute. reflexivity.
Defined.

Lemma tables_never_overlap_witness : tables_disjoint (session example_hello_pulled).
Proof.
  apply (tables_never_overlap example_Dispatch). exact example_hello_pulled_life.
Defined.

Lemma resolve_payload_escaped_witness :
  ∃ result,
    (∀ l, result = JArray l →
       resolve_response 1 (JArray [JArray [JString "a"; JString "b"]]) =
       [JString "resolve"; JNumber (float64_of_int 1); JArray [JArray l]]) ∧
    ((∀ l, result ≠ JArray l) →
       resolve_response 1 (JArray [JArray [JString "a"; JString "b"]]) =
       [JString "resolve"; JNumber (float64_of_int 1); result]).
Proof.
  destruct (resolve_payload_escaped example_Dispatch 3 1
              (example_pushed "getNotes" (JArray []))
              (resolve_response 1 (JArray [JArray [JString "a"; JString "b"]]))
              (mkMachine {| PendingResults := {[1 := JArray [JString "a"; JString "b"]]};
                            PendingOperations := ∅;
                            NextExportID := 2 |} 1%nat
                         [mkCall 1 "getNotes" (JArray [])]))
    as (result & _ & Hlist & Hother).
  - vm_compute. reflexivity.
  - eexists. reflexivity.
  - exists result. split; [exact Hlist|exact Hother].
Defined.

(** The claim as stated fails where the counter is the largest int: the
    call is registered under int_max, the counter wraps to int_min, which
    does not exceed the id just inserted, and the next call is registered
    under the smaller id int_min. *)
Lemma export_id_wraps_around :
  PendingOperations
    (handlePush_int {| PendingResults := ∅; PendingOperations := ∅;
                       NextExportID := int_max |} example_hello) !! int_max
  = Some (mkOperation "hello" (JArray [JString "World"])) ∧
  NextExportID
    (handlePush_int {| PendingResults := ∅; PendingOperations := ∅;
                       NextExportID := int_max |} example_hello) = int_min ∧
  PendingOperations
    (handlePush_int
       (handlePush_int {| PendingResults := ∅; PendingOperations := ∅;
                          NextExportID := int_max |} example_hello)
       example_notes) !! int_min
  = Some (mkOperation "getNotes" (JArray [])) ∧
  int_min < int_max.
Proof. repeat split; vm_compute; reflexivity. Qed.

Lemma export_ids_monotonic_witness :
  (1 ≤ NextExportID (session example_start) ∧
   NextExportID (session example_hello_pulled) < int_max) ∧
  pendingOperations (example_pushed "hello" (JArray [JString "World"]))
    !! NextExportID (session example_start)
  = Some (mkOperation "hello" (JArray [JString "World"])) ∧
  NextExportID (session example_start) < NextExportID (session example_hello_pulled) ∧
  (1 ≤ NextExportID (session example_hello_pulled) ∧
   ids_below_next (session example_hello_pulled)).
Proof.
  destruct (export_ids_monotonic example_Dispatch)
    as (_ & _ & _ & _ & _ & Hmono & _ & Hinv).
  assert (1 ≤ NextExportID (session example_start)) as H1 by (vm_compute; discriminate).
  assert (NextExportID (session example_hello_pulled) < int_max) as H2
    by (vm_compute; reflexivity).
  destruct (Hmono 3%nat example_start
              (JString "pipeline") [JNumber (float64_of_int 0);
                                    JArray [JString "hello"];
                                    JArray [JString "World"]]
              (mkOperation "hello" (JArray [JString "World"])) (Ok None)
              (example_pushed "hello" (JArray [JString "World"]))
              example_hello_pulled
              (JString "pipeline") [JNumber (float64_of_int 0);
                                    JArray [JString "getNotes"]; JArray []]
              (mkOperation "getNotes" (JArray [])) H1)
    as (Hkey & _ & Hlt & _).
  - reflexivity.
  - reflexivity.
  - apply rtc_once.
    exists 3%nat, (pull_message 1),
      (Ok (Some (JArray (resolve_response 1 (JString "Hello, World!"))))).
    vm_compute. reflexivity.
  - exact H2.
  - reflexivity.
  - split; [split; [exact H1|exact H2]|]. split; [exact Hkey|]. split; [exact Hlt|].
    apply Hinv; [exact example_hello_pulled_life|]. vm_compute. discriminate.
Defined.

(** The claim as stated fails on a selector with a fraction: it is
    neither a string nor an integer, and the walk steps into the element at
    its integer part where the claim has a BadPath error. *)
Lemma fraction_selector_steps_in :
  traversePath (JArray [JString "x"; JString "y"]) [JNumber (3 # 2)%Q]
  = Ok (JString "y") ∧
  traversePath (JArray [JString "x"; JString "y"]) [JNumber (-1 # 2)%Q]
  = Ok (JString "x") ∧
  (∀ n, JNumber (3 # 2)%Q ≠ JNumber (float64_of_int n)) ∧
  (∀ n, JNumber (-1 # 2)%Q ≠ JNumber (float64_of_int n)).
Proof.
  split; [reflexivity|]. split; [reflexivity|].
  split; intros n; unfold float64_of_int, inject_Z; intros [= _ H]; discriminate H.
Qed.

Lemma traversePath_selectors_witness :
  traversePath (JArray [JString "x"; JString "y"])
    [JNumber (float64_of_int 1)] = Ok (JString "y") ∧
  traversePath (JArray [JString "x"; JString "y"]) [JNumber (3 # 2)%Q]
  = traversePath (JString "y") [] ∧
  map_index [("a", JBool true); ("b", JBool false)] "b" = JBool false ∧
  map_index [("a", JBool true)] "b" = JNull ∧
  (∃ e, traversePath (JArray [JString "x"]) [JNumber (float64_of_int 1)] = Err e ∧
        path_error_kind e = Some PathOutOfBounds) ∧
  (∃ e, traversePath (JArray [JString "x"]) [JNumber (-3 # 2)%Q] = Err e ∧
        path_error_kind e = Some PathOutOfBounds) ∧
  (∃ e, traversePath (JString "x") [JString "a"] = Err e ∧
        path_error_kind e = Some BadPath) ∧
  (∃ e, traversePath (JString "x") [JNumber (float64_of_int 0)] = Err e ∧
        path_error_kind e = Some BadPath) ∧
  (∃ e, traversePath (JArray []) [JBool true] = Err e ∧
        path_error_kind e = Some BadPath).
Proof.
  destruct traversePath_selectors
    as (_ & _ & _ & Hmissing & _ & Hkey & _ & Hindex & Hfloat & Hbounds & Hout
        & Hstr & Hnum & Hother).
  split; [|split; [|split; [|split; [|split; [|split; [|split; [|split]]]]]]].
  - apply (Hindex [JString "x"; JString "y"] 1 (JString "y") []); [lia|reflexivity].
  - apply (Hfloat [JString "x"; JString "y"] (3 # 2)%Q (JString "y") []);
      [vm_compute; discriminate|reflexivity].
  - apply Hkey.
    + repeat constructor; [by intros [?|?%elem_of_nil]%elem_of_cons|by intros ?%elem_of_nil].
    + right. by left.
  - apply Hmissing. intros x Hx. apply list_elem_of_singleton in Hx. discriminate.
  - apply (Hbounds [JString "x"] 1 []). simpl. lia.
  - apply (Hout [JString "x"] (-3 # 2)%Q []). left. reflexivity.
  - apply Hstr. discriminate.
  - apply Hnum. discriminate.
  - apply Hother; discriminate.
Defined.

(** The shapes of a push body that are not a pipeline call: another tag,
    fewer than three elements, an import id that is not a number, a method
    path that is empty or not a list, a method name that is not a string. *)
Example malformed_push_bodies :
  pipeline_call [JString "call"; JNumber (inject_Z 0); JArray [JString "hello"]]
  = None ∧
  pipeline_call [JString "pipeline"; JNumber (inject_Z 0)] = None ∧
  pipeline_call [JString "pipeline"; JString "0"; JArray [JString "hello"]]
  = None ∧
  pipeline_call [JString "pipeline"; JNumber (inject_Z 0); JArray []] = None ∧
  pipeline_call [JString "pipeline"; JNumber (inject_Z 0); JString "hello"]
  = None ∧
  pipeline_call [JString "pipeline"; JNumber (inject_Z 0); JArray [JNull]] = None ∧
  pipeline_call [JString "pipeline"; JNumber (inject_Z 0); JArray [JString "hello"]]
  = Some (mkOperation "hello" (JArray [])).
Proof. repeat split. Qed.


(** * Further properties *)

(** ** BaseRpcTarget *)

(** X1. Dispatch on a BaseRpcTarget runs the handler registered last under
    the method name; registering under another name does not change it;
    and for a name that was never registered the call returns the error
    "method not found: <name>" without running any handler. *)
Theorem base_target_dispatch {World : Type} :
  (∀ (t : BaseRpcTarget World) name handler args w,
     BaseRpcTarget_Dispatch (Method_register t name handler) name args w
     = handler args w) ∧
  (∀ (t : BaseRpcTarget World) name handler handler' args w,
     BaseRpcTarget_Dispatch
       (Method_register (Method_register t name handler) name handler') name args w
     = handler' args w) ∧
  (∀ (t : BaseRpcTarget World) name handler method args w,
     name ≠ method →
     BaseRpcTarget_Dispatch (Method_register t name handler) method args w
     = BaseRpcTarget_Dispatch t method args w) ∧
  (∀ (t : BaseRpcTarget World) method args w,
     t !! method = None →
     BaseRpcTarget_Dispatch t method args w = (Err (MethodNotFound method), w) ∧
     Error (MethodNotFound method) = "method not found: " +:+ method) ∧
  (∀ method args (w : World),
     BaseRpcTarget_Dispatch NewBaseRpcTarget method args w
     = (Err (MethodNotFound method), w)).
Proof.
  unfold BaseRpcTarget_Dispatch, Method_register, NewBaseRpcTarget, BaseRpcTarget,
    Handler.
  split; [|split; [|split; [|split]]].
  - intros. by rewrite lookup_insert_eq.
  - intros. by rewrite lookup_insert_eq.
  - intros. by rewrite lookup_insert_ne.
  - intros t method args w ->. done.
  - intros. by rewrite lookup_empty.
Qed.

Lemma base_target_dispatch_witness :
  BaseRpcTarget_Dispatch example_target "hello" (JArray []) 0%nat
  = BaseRpcTarget_Dispatch
      (Method_register NewBaseRpcTarget "hello"
         (example_handler (λ _, Ok (JString "Hello, World!"))))
      "hello" (JArray []) 0%nat ∧
  BaseRpcTarget_Dispatch (World:=nat) NewBaseRpcTarget "hello" (JArray []) 0%nat
  = (Err (MethodNotFound "hello"), 0%nat).
Proof.
  destruct (base_target_dispatch (World:=nat)) as (Hlast & _ & Hother & Hnone & Hnew).
  split.
  - unfold example_target. rewrite !Hother by discriminate.
    rewrite !Hlast. reflexivity.
  - destruct (Hnone NewBaseRpcTarget "hello" (JArray []) 0%nat) as [H _];
      [reflexivity|exact H].
Defined.

(** ** traversePath *)

(** X2. A number selector is converted with int(): on a list it selects
    the element at the truncated index, so 1.9 selects element 1 and -0.5
    selects element 0, and it fails with "array index out of bounds"
    exactly when the truncated index is negative or not below the length,
    in particular on every empty list. *)
Theorem traversePath_index_truncated (arr : list Value) (f : float64) path :
  (0 ≤ int_of_float64 f < Z.of_nat (length arr) →
   ∃ x, arr !! Z.to_nat (int_of_float64 f) = Some x ∧
        traversePath (JArray arr) (JNumber f :: path) = traversePath x path) ∧
  (int_of_float64 f < 0 ∨ Z.of_nat (length arr) ≤ int_of_float64 f →
   traversePath (JArray arr) (JNumber f :: path) = Err IndexOutOfBounds) ∧
  (arr = [] → traversePath (JArray arr) (JNumber f :: path) = Err IndexOutOfBounds).
Proof.
  assert (int_of_float64 f < 0 ∨ Z.of_nat (length arr) ≤ int_of_float64 f →
          traversePath (JArray arr) (JNumber f :: path) = Err IndexOutOfBounds) as Hout.
  { intros Hf. simpl.
    destruct (Z.ltb_spec (int_of_float64 f) 0); [done|].
    destruct (Z.leb_spec (Z.of_nat (length arr)) (int_of_float64 f)); [done|lia]. }
  split; [|split; [done|]].
  - intros Hf. destruct (lookup_lt_is_Some_2 arr (Z.to_nat (int_of_float64 f)))
      as [x Hx]; [lia|].
    exists x. split; [done|]. simpl.
    destruct (Z.ltb_spec (int_of_float64 f) 0); [lia|].
    destruct (Z.leb_spec (Z.of_nat (length arr)) (int_of_float64 f)); [lia|].
    simpl. by rewrite Hx.
  - intros ->. apply Hout. simpl. lia.
Qed.

Lemma traversePath_index_truncated_witness :
  traversePath (JArray [JString "x"; JString "y"]) [JNumber (Qmake 19 10)]
  = Ok (JString "y") ∧
  traversePath (JArray [JString "x"; JString "y"]) [JNumber (Qmake (-1) 2)]
  = Ok (JString "x") ∧
  traversePath (JArray [JString "x"; JString "y"]) [JNumber (Qmake (-3) 2)]
  = Err IndexOutOfBounds.
Proof.
  split; [|split].
  - destruct (proj1 (traversePath_index_truncated
                [JString "x"; JString "y"] (Qmake 19 10) [])) as (x & Hx & ->).
    + vm_compute. split; [discriminate|reflexivity].
    + vm_compute in Hx. by injection Hx as <-.
  - destruct (proj1 (traversePath_index_truncated
                [JString "x"; JString "y"] (Qmake (-1) 2) [])) as (x & Hx & ->).
    + vm_compute. split; [discriminate|reflexivity].
    + vm_compute in Hx. by injection Hx as <-.
  - apply (proj1 (proj2 (traversePath_index_truncated
             [JString "x"; JString "y"] (Qmake (-3) 2) []))).
    left. vm_compute. reflexivity.
Defined.

Lemma map_index_subvalue obj k :
  map_index obj k = JNull ∨ ∃ k', (k', map_index obj k) ∈ obj.
Proof.
  induction obj as [|[k' x] obj IH]; [by left|]. simpl.
  destruct (String.eqb k' k).
  - right. exists k'. by left.
  - destruct IH as [IH|[k'' IH]]; [by left|]. right. exists k''. by right.
Qed.

Lemma subvalue_trans x y z : subvalue x y → subvalue y z → subvalue x z.
Proof.
  intros Hxy Hyz. induction Hyz; [done|..].
  - eapply subvalue_array; eauto.
  - eapply subvalue_object; eauto.
Qed.

(** X3. A path walk never invents data: what it returns is the null of a
    missing key or a value found inside the value it started from. *)
Theorem traversePath_subvalue path current x :
  traversePath current path = Ok x → x = JNull ∨ subvalue x current.
Proof.
  revert current. induction path as [|key path IH]; intros current H; simpl in H.
  - injection H as ->. right. constructor.
  - destruct key as [| |f|k| |]; try done.
    + destruct current as [| | | |arr|]; try done.
      destruct (_ || _) eqn:Hb; [done|].
      apply orb_false_iff in Hb as [Hlo%Z.ltb_ge Hhi%Z.leb_gt].
      destruct (lookup_lt_is_Some_2 arr (Z.to_nat (int_of_float64 f)))
        as [y Hy]; [lia|].
      rewrite Hy in H. simpl in H. apply IH in H as [->|H]; [by left|right].
      eapply subvalue_array; [|done]. by eapply list_elem_of_lookup_2.
    + destruct current as [| | | | |obj]; try done.
      apply IH in H as [->|H]; [by left|].
      destruct (map_index_subvalue obj k) as [Hnull|[k' Hin]].
      * rewrite Hnull in H. inversion H; subst. by left.
      * right. eapply subvalue_object; eauto.
Qed.

Lemma traversePath_subvalue_witness :
  JString "y" = JNull ∨
  subvalue (JString "y") (JObject [("a", JArray [JString "x"; JString "y"])]).
Proof.
  apply (traversePath_subvalue [JString "a"; JNumber (float64_of_int 1)]).
  reflexivity.
Defined.

Section MoreFacts.

Context {World : Type}.
Variable Dispatch : string → RawMessage → World → Result Value * World.

Local Abbreviation resolve := (resolvePipelineReferences Dispatch).
Local Abbreviation Machine := (Machine (World:=World)).

Implicit Types (st : Machine) (cs : list Call) (v : list Value).

(** ** resolvePipelineReferences *)

(** Two runs on the same tree from the same state agree. *)
Lemma resolve_agree fuel1 fuel2 value st r1 st1 r2 st2 :
  resolve fuel1 value st = Done r1 st1 →
  resolve fuel2 value st = Done r2 st2 →
  r1 = r2 ∧ st1 = st2.
Proof.
  intros H1 H2.
  apply (resolve_fuel_mono _ _ (fuel1 `max` fuel2)%nat) in H1; [|lia].
  apply (resolve_fuel_mono _ _ (fuel1 `max` fuel2)%nat) in H2; [|lia].
  rewrite H1 in H2. by injection H2.
Qed.

(** X4. A run of the resolver only moves operations it dispatches: it
    leaves the counter alone, adds or alters no pending operation, keeps
    every result that was cached before with its value, only appends to
    the list of calls, and an operation that is gone or a result that is
    new belongs to an id it dispatched. *)
Theorem resolver_frame fuel value st r st' :
  resolve fuel value st = Done r st' →
  NextExportID (session st') = NextExportID (session st) ∧
  calls st' = calls st ++ new_calls st st' ∧
  (∀ i operation, pendingOperations st' !! i = Some operation →
     pendingOperations st !! i = Some operation) ∧
  (∀ i result, pendingResults st !! i = Some result →
     pendingResults st' !! i = Some result) ∧
  (∀ i, is_Some (pendingOperations st !! i) → pendingOperations st' !! i = None →
     i ∈ dispatched st st') ∧
  (∀ i, is_Some (pendingResults st' !! i) → pendingResults st !! i = None →
     i ∈ dispatched st st').
Proof.
  intros H. pose proof (resolve_progress_calls _ _ _ _ _ _ H) as P.
  split; [apply (pr_next _ _ _ _ P)|]. split; [apply (pr_calls _ _ _ _ P)|].
  split; [apply (pr_pending _ _ _ _ P)|]. split; [apply (pr_results _ _ _ _ P)|].
  split.
  - intros i [op Hop] Hnone.
    destruct (decide (i ∈ dispatched st st')) as [|Hnot]; [done|].
    destruct (pr_frame _ _ _ _ P i Hnot) as [E _]. congruence.
  - intros i [x Hx] Hnone.
    destruct (decide (i ∈ dispatched st st')) as [|Hnot]; [done|].
    destruct (pr_frame _ _ _ _ P i Hnot) as [_ E]. congruence.
Qed.

Lemma field_fuel_mono fuel fuel' (kv : string * Value) st r st' :
  (fuel ≤ fuel')%nat →
  (let* resolvedVal := resolve fuel kv.2 in ret (kv.1, resolvedVal)) st = Done r st' →
  (let* resolvedVal := resolve fuel' kv.2 in ret (kv.1, resolvedVal)) st = Done r st'.
Proof.
  intros Hle Hkv. apply bind_Done. apply bind_Done in Hkv.
  destruct Hkv as [(e & Hkv & ->)|(a & st2 & Hkv & Hret)]; [left|right].
  - exists e. split; [by eapply resolve_fuel_mono|done].
  - exists a, st2. split; [by eapply resolve_fuel_mono|done].
Qed.

(** A loop whose every element is returned unchanged without a change of
    state returns the list unchanged. *)
Lemma mapM_unchanged {A} (f : nat → A → M A) (l : list A) st :
  (∀ fuel fuel' x st r st', (fuel ≤ fuel')%nat →
     f fuel x st = Done r st' → f fuel' x st = Done r st') →
  Forall (λ x, ∃ fuel, f fuel x st = Done (Ok x) st) l →
  ∃ fuel, mapM (f fuel) l st = Done (Ok l) st.
Proof.
  intros Hmono. induction 1 as [|x l [fuel1 Hx] _ [fuel2 IH]].
  - by exists 0%nat.
  - exists (fuel1 `max` fuel2)%nat. simpl. unfold bind at 1.
    rewrite (Hmono fuel1 (fuel1 `max` fuel2)%nat _ _ _ _ (Nat.le_max_l _ _) Hx).
    unfold bind at 1.
    apply mapM_Done in IH.
    apply (mapM_run_mono _ (f (fuel1 `max` fuel2)%nat)) in IH.
    + apply mapM_Done in IH. by rewrite IH.
    + intros. eapply Hmono; [|done]. lia.
Qed.

Lemma flat_map_nil {A B} (f : A → list B) (l : list A) :
  flat_map f l = [] → Forall (λ x, f x = []) l.
Proof.
  induction l as [|x l IH]; simpl; [constructor|].
  intros [Hx Hl]%app_eq_nil. constructor; auto.
Qed.

Lemma resolve_reference_free_returns value :
  refs value = [] → ∀ st, ∃ fuel, resolve fuel value st = Done (Ok value) st.
Proof.
  induction value as [| b | f | s | v IH | fields IH] using Value_nested_ind;
    intros Hrefs st; try (by exists 1%nat).
  - simpl in Hrefs. destruct (pipeline_ref v) as [j|] eqn:Hpr; [done|].
    apply flat_map_nil in Hrefs.
    destruct (mapM_unchanged resolve v st) as [fuel Hl].
    { intros. by eapply resolve_fuel_mono. }
    { apply Forall_forall. intros x Hx.
      rewrite Forall_forall in IH, Hrefs. by apply IH; [|apply Hrefs]. }
    exists (S fuel). by rewrite resolve_S, Hpr, Hl.
  - rewrite refs_JObject in Hrefs. apply flat_map_nil in Hrefs.
    destruct (mapM_unchanged
                (λ fuel kv, let* resolvedVal := resolve fuel kv.2 in
                            ret (kv.1, resolvedVal)) fields st) as [fuel Hl].
    { intros. by eapply field_fuel_mono. }
    { apply Forall_forall. intros [k x] Hx.
      rewrite Forall_forall in IH, Hrefs.
      destruct (IH x) with (st := st) as [fuel Hfuel].
      - apply list_elem_of_fmap. by exists (k, x).
      - apply Hrefs. apply list_elem_of_fmap. by exists (k, x).
      - exists fuel. unfold bind. simpl. by rewrite Hfuel. }
    exists (S fuel). by rewrite resolve_S, Hl.
Qed.

(** X5. A tree in which the resolver meets no pipeline reference resolves
    to itself: some fuel suffices, and every run that returns returns the
    tree unchanged, without a Dispatch call and without touching the
    session. *)
Theorem resolve_reference_free value st :
  refs value = [] →
  (∃ fuel, resolve fuel value st = Done (Ok value) st) ∧
  (∀ fuel r st', resolve fuel value st = Done r st' →
     r = Ok value ∧ st' = st ∧ new_calls st st' = []).
Proof.
  intros Hrefs.
  destruct (resolve_reference_free_returns value Hrefs st) as [fuel0 H0].
  split; [by exists fuel0|]. intros fuel r st' H.
  destruct (resolve_agree _ _ _ _ _ _ _ _ H H0) as [-> ->].
  do 2 (split; [done|]). unfold new_calls. by rewrite drop_all.
Qed.

(** What a later state has to keep of an earlier one for a resolution to
    be repeated: the cached results. *)
Lemma loop_again {A B} (f : A → M B) (l : list A) st ys st1 st2 :
  (∀ x sta r stb, f x sta = Done r stb → ∃ cs, progress (is_ok r) sta cs stb) →
  (∀ x sta y stb st2, x ∈ l → f x sta = Done (Ok y) stb →
     (∀ i res, pendingResults stb !! i = Some res → pendingResults st2 !! i = Some res) →
     f x st2 = Done (Ok y) st2) →
  mapM_run f l st (Ok ys) st1 →
  (∀ i res, pendingResults st1 !! i = Some res → pendingResults st2 !! i = Some res) →
  mapM_run f l st2 (Ok ys) st2.
Proof.
  intros Hpro Hagain Hrun. revert Hagain.
  remember (Ok ys) as rl eqn:Hrl. revert ys Hrl.
  induction Hrun as [st|x l st y sta ys' stb Hx Hl IHl|x l st e sta Hx
                    |x l st y sta e stb Hx Hl IHl]; intros ys Hrl Hagain Hext;
    try discriminate; injection Hrl as <-.
  - constructor.
  - destruct (mapM_progress f l sta (Ok ys') stb Hpro Hl) as [cs P].
    eapply mapM_run_ok.
    + eapply Hagain; [by left|done|]. intros i res Hi.
      by apply Hext, (pr_results _ _ _ _ P).
    + eapply IHl; [done| |done]. intros. eapply Hagain; [by right|done..].
Qed.

Lemma resolve_again fuel value st a st1 st2 :
  resolve fuel value st = Done (Ok a) st1 →
  (∀ i res, pendingResults st1 !! i = Some res → pendingResults st2 !! i = Some res) →
  resolve fuel value st2 = Done (Ok a) st2.
Proof.
  revert value st a st1 st2.
  induction fuel as [|fuel IH]; intros value st a st1 st2 H Hext; [discriminate|].
  rewrite resolve_S in *.
  destruct value as [| b | f | s | v | fields]; try by inversion H.
  - destruct (pipeline_ref v) as [j|] eqn:Hpr.
    + destruct (pendingResults st !! j) as [x|] eqn:Hres.
      { injection H as H <-. by rewrite (Hext j x Hres), H. }
      destruct (pendingOperations st !! j) as [operation|]; [|discriminate].
      destruct (resolve fuel (Args operation) st) as [|[ra|e] sta]; try discriminate.
      destruct (call_target _ _ _ _ _) as [[result|e] stb]; [|discriminate].
      injection H as H <-.
      rewrite (Hext j result), H; [done|]. simpl. by rewrite lookup_insert_eq.
    + destruct (mapM (resolve fuel) v st) as [|[l|e] sta] eqn:Hl; try discriminate.
      injection H as <- <-. apply mapM_Done in Hl.
      apply (loop_again _ _ _ _ _ st2) in Hl; [| |by eauto|done].
      * apply mapM_Done in Hl. by rewrite Hl.
      * intros. by eapply resolve_progress.
  - destruct (mapM _ fields st) as [|[l|e] sta] eqn:Hl; try discriminate.
    injection H as <- <-. apply mapM_Done in Hl.
    apply (loop_again _ _ _ _ _ st2) in Hl; [| | |done].
    + apply mapM_Done in Hl. by rewrite Hl.
    + intros kv st0 r0 st0' [r1 [H1 <-]]%resolve_field_Done.
      by eapply resolve_progress.
    + intros kv sta0 y stb0 st3 _ Hkv Hext3.
      apply bind_Done in Hkv as [(e & _ & [=])|(ra & stc & Hkv & [= <- <-])].
      unfold bind. by rewrite (IH _ _ _ _ _ Hkv Hext3).
Qed.

(** X6. A resolution that succeeded can be repeated: resolving the same
    tree again in the state it left, or in any later state of the run,
    returns the same value, dispatches nothing and changes nothing. *)
Theorem resolve_repeatable fuel value st a st1 :
  resolvePipelineReferences Dispatch fuel value st = Done (Ok a) st1 →
  resolvePipelineReferences Dispatch fuel value st1 = Done (Ok a) st1 ∧
  (∀ fuel' value' r' st2,
     resolvePipelineReferences Dispatch fuel' value' st1 = Done r' st2 →
     resolvePipelineReferences Dispatch fuel value st2 = Done (Ok a) st2) ∧
  (∀ fuel' r' st2,
     resolvePipelineReferences Dispatch fuel' value st1 = Done r' st2 →
     r' = Ok a ∧ st2 = st1).
Proof.
  intros H.
  assert (resolve fuel value st1 = Done (Ok a) st1) as Hsame
    by (by eapply resolve_again).
  split; [done|]. split.
  - intros fuel' value' r' st2 H'. eapply resolve_again; [done|].
    apply resolve_progress in H' as [cs P]. apply (pr_results _ _ _ _ P).
  - intros fuel' r' st2 H'. by destruct (resolve_agree _ _ _ _ _ _ _ _ H' Hsame).
Qed.

(** ** The Dispatch calls of a run *)

Lemma new_calls_trans ok1 ok2 st cs1 st1 cs2 st2 :
  progress ok1 st cs1 st1 → progress ok2 st1 cs2 st2 →
  new_calls st st2 = new_calls st st1 ++ new_calls st1 st2.
Proof.
  intros P1 P2. unfold new_calls.
  rewrite (pr_calls _ _ _ _ P2), (pr_calls _ _ _ _ P1).
  rewrite (drop_app_length (calls st ++ cs1)), <-app_assoc.
  by rewrite !drop_app_length.
Qed.

Lemma call_of_pending_earlier ok st cs st1 c :
  progress ok st cs st1 → call_of_pending st1 c → call_of_pending st c.
Proof.
  intros P (operation & Hop & Hres & Hm). exists operation.
  split; [by apply (pr_pending _ _ _ _ P)|]. split; [|done].
  destruct (pendingResults st !! call_export c) as [x|] eqn:Hx; [|done].
  apply (pr_results _ _ _ _ P) in Hx. congruence.
Qed.

Lemma loop_calls_pending {A B} (f : A → M B) (l : list A) st rl st' :
  (∀ x sta r stb, f x sta = Done r stb → ∃ cs, progress (is_ok r) sta cs stb) →
  (∀ x sta r stb, x ∈ l → f x sta = Done r stb →
     Forall (call_of_pending sta) (new_calls sta stb)) →
  mapM_run f l st rl st' →
  Forall (call_of_pending st) (new_calls st st').
Proof.
  intros Hpro Hf Hrun.
  induction Hrun as [st|x l st y sta ys stb Hx Hl IHl|x l st e sta Hx
                    |x l st y sta e stb Hx Hl IHl].
  - unfold new_calls. by rewrite drop_all.
  - destruct (Hpro _ _ _ _ Hx) as [cs1 P1].
    destruct (mapM_progress f l sta _ stb Hpro Hl) as [cs2 P2].
    rewrite (new_calls_trans _ _ _ _ _ _ _ P1 P2). apply Forall_app. split.
    + eapply Hf; [by left|done].
    + eapply Forall_impl; [apply IHl; intros; eapply Hf; [by right|done]|].
      intros c. by eapply call_of_pending_earlier.
  - eapply Hf; [by left|done].
  - destruct (Hpro _ _ _ _ Hx) as [cs1 P1].
    destruct (mapM_progress f l sta _ stb Hpro Hl) as [cs2 P2].
    rewrite (new_calls_trans _ _ _ _ _ _ _ P1 P2). apply Forall_app. split.
    + eapply Hf; [by left|done].
    + eapply Forall_impl; [apply IHl; intros; eapply Hf; [by right|done]|].
      intros c. by eapply call_of_pending_earlier.
Qed.

Lemma resolve_calls_pending fuel value st r st' :
  resolve fuel value st = Done r st' →
  Forall (call_of_pending st) (new_calls st st').
Proof.
  revert value st r st'.
  induction fuel as [|fuel IH]; intros value st r st' H; [discriminate|].
  rewrite resolve_S in H.
  assert (Forall (call_of_pending st) (new_calls st st)) as Hnil
    by (unfold new_calls; by rewrite drop_all).
  destruct value as [| b | f | s | v | fields]; try by (inversion H; subst).
  - destruct (pipeline_ref v) as [j|] eqn:Hpr.
    + destruct (pendingResults st !! j) as [x|] eqn:Hres; [by inversion H; subst|].
      destruct (pendingOperations st !! j) as [operation|] eqn:Hop;
        [|by inversion H; subst].
      destruct (resolve fuel (Args operation) st) as [|[ra|e] st1] eqn:Hargs;
        [discriminate| |inversion H; subst; by eapply IH].
      pose proof (resolve_progress_calls _ _ _ _ _ _ Hargs) as P1.
      destruct (call_target _ _ _ _ _) as [rd st2] eqn:Hcall.
      assert (Forall (call_of_pending st)
                (new_calls st st1 ++ [mkCall j (Method operation) ra])) as Hall.
      { apply Forall_app. split; [by eapply IH|].
        apply Forall_singleton. by exists operation. }
      destruct rd as [result|e]; inversion H; subst.
      * pose proof (progress_cache _ _ _ _ _ _ _ _ _ P1 Hop Hres Hcall) as P2.
        by rewrite (progress_dispatched _ _ _ _ P2).
      * pose proof (progress_dispatch _ _ _ _ _ _ _ _ _ P1 Hop Hres Hcall) as P2.
        by rewrite (progress_dispatched _ _ _ _ P2).
    + destruct (mapM (resolve fuel) v st) as [|rl sta] eqn:Hl; [discriminate|].
      apply mapM_Done in Hl.
      assert (sta = st') as -> by (destruct rl; by inversion H).
      eapply loop_calls_pending; [|by eauto|done].
      intros. by eapply resolve_progress.
  - destruct (mapM _ fields st) as [|rl sta] eqn:Hl; [discriminate|].
    apply mapM_Done in Hl.
    assert (sta = st') as -> by (destruct rl; by inversion H).
    eapply loop_calls_pending; [| |done].
    + intros kv st0 r0 st0' [r1 [H1 <-]]%resolve_field_Done.
      by eapply resolve_progress.
    + intros kv st0 r0 st0' _ [r1 [H1 _]]%resolve_field_Done. by eapply IH.
Qed.

Lemma NoDup_keys_length {A} (l : list Z) (m : gmap Z A) :
  NoDup l → (∀ i, i ∈ l → is_Some (m !! i)) → (length l ≤ size m)%nat.
Proof.
  intros Hnd Hin. rewrite <-length_map_to_list, <-(length_fmap fst).
  apply submseteq_length, NoDup_submseteq; [done|].
  intros i [x Hx]%Hin. apply list_elem_of_fmap. exists (i, x).
  split; [done|]. by apply elem_of_map_to_list.
Qed.

(** X7. The Dispatch calls of one pull, whatever its outcome: every call
    is made for an operation that was pending without a result when the
    pull began, under the method pushed for it; no operation is called
    twice, so there are at most as many calls as pending operations; and a
    call for the pulled id itself is the last one. *)
Theorem pull_calls_pending fuel exportID st r st' :
  handlePull Dispatch fuel exportID st = Done r st' →
  Forall (call_of_pending st) (new_calls st st') ∧
  NoDup (dispatched st st') ∧
  (length (new_calls st st') ≤ size (pendingOperations st))%nat ∧
  (exportID ∈ dispatched st st' →
   ∃ c, last (new_calls st st') = Some c ∧ call_export c = exportID).
Proof.
  intros H.
  assert (Forall (call_of_pending st) (new_calls st st')
          ∧ (exportID ∈ dispatched st st' →
             ∃ c, last (new_calls st st') = Some c ∧ call_export c = exportID))
    as [Hall Hlast].
  { destruct (handlePull_Done _ _ _ _ _ _ H)
      as [(result & Hres & -> & _)
         |[(Hres & Hop & -> & _)
          |[(operation & e & Hres & Hop & Hargs & _)
           |(operation & ra & st1 & rd & st2 & Hres & Hop & Hargs & Hcall & Hrd)]]].
    - unfold dispatched, new_calls. simpl. rewrite drop_all.
      split; [done|]. by intros ?%elem_of_nil.
    - unfold dispatched, new_calls. rewrite drop_all.
      split; [done|]. by intros ?%elem_of_nil.
    - split; [by eapply resolve_calls_pending|]. intros Hin.
      by destruct (resolve_not_self _ _ _ _ _ _ _ Hop Hres Hargs).
    - pose proof (resolve_progress_calls _ _ _ _ _ _ Hargs) as P1.
      pose proof (progress_dispatch _ _ _ _ _ _ _ _ _ P1 Hop Hres Hcall) as P2.
      assert (new_calls st st'
              = new_calls st st1 ++ [mkCall exportID (Method operation) ra]) as ->.
      { rewrite <-(progress_dispatched _ _ _ _ P2).
        destruct rd; destruct Hrd as [-> _]; done. }
      split.
      + apply Forall_app. split; [by eapply resolve_calls_pending|].
        apply Forall_singleton. by exists operation.
      + intros _. eexists. by rewrite last_snoc. }
  pose proof (handlePull_NoDup _ _ _ _ _ _ H) as Hnd.
  split; [done|]. split; [done|]. split; [|done].
  rewrite <-(length_fmap call_export). apply NoDup_keys_length; [done|].
  intros i (c & -> & Hc)%list_elem_of_fmap.
  rewrite Forall_forall in Hall. destruct (Hall c Hc) as (operation & Hop & _).
  by exists operation.
Qed.

(** ** HandleMessage *)

Lemma with_session_id st : with_session (λ sd, sd) st = st.
Proof. by destruct st. Qed.

(** The three shapes of a message. *)
Lemma message_shape message :
  (∃ p0 pushRest rest,
     message = Some (JArray (JString "push" :: JArray (p0 :: pushRest) :: rest))) ∨
  (∃ exportIDFloat rest,
     message = Some (JArray (JString "pull" :: JNumber exportIDFloat :: rest))) ∨
  effective message = false.
Proof.
  destruct message as [[| | | |[|[| | |messageType| |] payload]|]|]; auto.
  unfold effective.
  destruct (String.eqb messageType "push") eqn:Hpush.
  - apply String.eqb_eq in Hpush as ->.
    destruct payload as [|[| | | |[|p0 pushRest]|] rest]; eauto 10.
  - destruct (String.eqb messageType "pull") eqn:Hpull; [|auto].
    apply String.eqb_eq in Hpull as ->.
    destruct payload as [|[| |exportIDFloat| | |] rest]; eauto 10.
Qed.

Lemma HandleMessage_ineffective fuel message st :
  effective message = false →
  HandleMessage Dispatch fuel message st = Done (Ok None) st ∨
  ∃ e, HandleMessage Dispatch fuel message st = Done (Err e) st ∧
       ((e = InvalidMessageFormat ∧
         unmarshal_message message = Err InvalidMessageFormat) ∨
        (e = EmptyMessage ∧ unmarshal_message message = Ok []) ∨
        (e = InvalidMessageType ∧
         ∃ messageType payload,
           unmarshal_message message = Ok (messageType :: payload) ∧
           ∀ s, messageType ≠ JString s)).
Proof.
  intros Heff. unfold HandleMessage.
  destruct message as [[| | | |[|[| | |messageType| |] payload]|]|];
    try (right; eexists; split; [reflexivity|];
         first [ by left | by right; left
               | right; right; split; [done|];
                 eexists _, _; split; [done|]; by intros ? ]);
    simpl.
  unfold effective in Heff.
  destruct (String.eqb messageType "push").
  { left. destruct payload as [|[| | | |[|p0 pushRest]|] rest];
      try done; simpl; by rewrite with_session_id. }
  destruct (String.eqb messageType "pull").
  { left. by destruct payload as [|[| |exportIDFloat| | |] rest]. }
  left. destruct (String.eqb messageType "release").
  { destruct payload as [|[| |f1| | |] [|[| |f2| | |] rest]]; try done;
      unfold handleRelease; by rewrite with_session_id. }
  destruct (String.eqb messageType "abort"); [|done].
  destruct payload; [done|]. unfold handleAbort. by rewrite with_session_id.
Qed.

Lemma handlePull_Ok fuel exportID st r st' :
  handlePull Dispatch fuel exportID st = Done r st' → ∃ response, r = Ok response.
Proof.
  intros [(result & _ & _ & ->)
         |[(_ & _ & _ & ->)
          |[(operation & e & _ & _ & _ & ->)
           |(operation & ra & st1 & rd & st2 & _ & _ & _ & _ & Hrd)]]]%handlePull_Done;
    eauto.
  destruct rd; destruct Hrd as [_ ->]; eauto.
Qed.

Lemma HandleMessage_pull fuel exportIDFloat rest st :
  HandleMessage Dispatch fuel
    (Some (JArray (JString "pull" :: JNumber exportIDFloat :: rest))) st =
  match handlePull Dispatch fuel (int_of_float64 exportIDFloat) st with
  | OutOfFuel => OutOfFuel
  | Done (Ok response) st' => Done (Ok (Some (JArray response))) st'
  | Done (Err e) st' => Done (Err e) st'
  end.
Proof.
  unfold HandleMessage. simpl. unfold bind.
  by destruct (handlePull _ _ _ _) as [|[response|e] st'].
Qed.

Lemma HandleMessage_push_body fuel p0 pushRest rest st :
  HandleMessage Dispatch fuel
    (Some (JArray (JString "push" :: JArray (p0 :: pushRest) :: rest))) st =
  Done (Ok None)
       (with_session (λ sd, (handlePush sd (JArray (p0 :: pushRest))).2) st).
Proof. done. Qed.

Lemma serve_skip fuel message before after st :
  (∀ st, ∃ r, HandleMessage Dispatch fuel message st = Done r st ∧
              ∀ response, r ≠ Ok (Some response)) →
  serve Dispatch fuel (before ++ message :: after) st =
  serve Dispatch fuel (before ++ after) st.
Proof.
  intros Hskip. rewrite !serve_app.
  destruct (serve Dispatch fuel before st) as [[responses1 st1]|]; [|done].
  simpl. destruct (Hskip st1) as (r & -> & Hr).
  destruct (serve Dispatch fuel after st1) as [[responses2 st2]|]; [|done].
  destruct r as [[response|]|e]; [by destruct (Hr response)|done..].
Qed.

(** X8. A message that is neither a push with a non-empty list as body
    nor a pull with a number as export id is ignored: HandleMessage returns
    at once with the state as it was and without a response, and the
    transports' loop behaves as if the message had not been sent. *)
Theorem ineffective_message_dropped fuel message before after st :
  effective message = false →
  (∃ r, HandleMessage Dispatch fuel message st = Done r st ∧
        ∀ response, r ≠ Ok (Some response)) ∧
  serve Dispatch fuel (before ++ message :: after) st =
  serve Dispatch fuel (before ++ after) st.
Proof.
  intros Heff.
  assert (∀ st, ∃ r, HandleMessage Dispatch fuel message st = Done r st ∧
                     ∀ response, r ≠ Ok (Some response)) as Hskip.
  { intros st0.
    destruct (HandleMessage_ineffective fuel message st0 Heff) as [H|(e & H & _)];
      eexists; (split; [exact H|done]). }
  split; [apply Hskip|by apply serve_skip].
Qed.


(** X10. The error returns of HandleMessage: a text that does not decode
    to a list, an empty list and a list whose first element is not a
    string are answered by the errors "invalid message format", "empty
    message" and "invalid message type", with the state as it was.  A
    message with a string other than "pull" in front never returns an
    error, and handlePull never does: it reports every failure of the
    resolver and of the target in its response. *)
Theorem HandleMessage_error :
  (∀ fuel message st e0,
     unmarshal_message message = Err e0 →
     HandleMessage Dispatch fuel message st = Done (Err InvalidMessageFormat) st) ∧
  (∀ fuel message st,
     unmarshal_message message = Ok [] →
     HandleMessage Dispatch fuel message st = Done (Err EmptyMessage) st) ∧
  (∀ fuel message st messageType payload,
     unmarshal_message message = Ok (messageType :: payload) →
     (∀ s, messageType ≠ JString s) →
     HandleMessage Dispatch fuel message st = Done (Err InvalidMessageType) st) ∧
  (∀ fuel message st messageType payload r st',
     unmarshal_message message = Ok (JString messageType :: payload) →
     messageType ≠ "pull" →
     HandleMessage Dispatch fuel message st = Done r st' → r = Ok None) ∧
  (∀ fuel exportID st r st',
     handlePull Dispatch fuel exportID st = Done r st' → ∃ response, r = Ok response).
Proof.
  split; [|split; [|split; [|split]]].
  - intros fuel message st e0 Hm. unfold HandleMessage. rewrite Hm.
    destruct message as [[| | | | |]|]; simpl in Hm; by simplify_eq.
  - intros fuel message st Hm. unfold HandleMessage. by rewrite Hm.
  - intros fuel message st messageType payload Hm Hs. unfold HandleMessage.
    rewrite Hm. destruct messageType as [| | |s| |]; try done. by destruct (Hs s).
  - intros fuel message st messageType payload r st' Hm Hpull.
    unfold HandleMessage. rewrite Hm.
    destruct (String.eqb messageType "push"); [destruct payload; by intros [= <- _]|].
    destruct (String.eqb_spec messageType "pull") as [->|_]; [done|].
    destruct (String.eqb messageType "release").
    { destruct payload as [|[| |f1| | |] [|[| |f2| | |] rest]]; by intros [= <- _]. }
    destruct (String.eqb messageType "abort"); [|by intros [= <- _]].
    destruct payload; by intros [= <- _].
  - apply handlePull_Ok.
Qed.

(** ** The responses *)

Lemma is_error_array_escape result :
  is_error_array result = true → escape_array result = JArray [result].
Proof. by destruct result as [| | | |[|? [|? ?]]|]. Qed.

Lemma handlePull_response fuel exportID st r st' :
  handlePull Dispatch fuel exportID st = Done r st' →
  ∃ response,
    r = Ok response ∧
    ((∃ payload, response = resolve_response exportID payload) ∨
     (∃ errorValue, response = reject_response exportID errorValue ∧
                    is_error_array errorValue = true)).
Proof.
  intros H.
  destruct (handlePull_Done _ _ _ _ _ _ H)
    as [(result & _ & _ & ->)
       |[(_ & _ & _ & ->)
        |[(operation & e & _ & _ & _ & ->)
         |(operation & ra & st1 & rd & st2 & _ & _ & _ & _ & Hrd)]]].
  - destruct (is_error_array result) eqn:Herr; eauto 8.
  - eexists. split; [done|]. right. by eexists.
  - eexists. split; [done|]. right. by eexists.
  - destruct rd; destruct Hrd as [_ ->]; [eauto 8|].
    eexists. split; [done|]. right. by eexists.
Qed.

Lemma response_id_resolve exportID payload :
  response_id (JArray (resolve_response exportID payload)) = Some exportID.
Proof. unfold response_id. simpl. by rewrite int_of_float64_of_int. Qed.

Lemma response_id_reject exportID errorValue :
  response_id (JArray (reject_response exportID errorValue)) = Some exportID.
Proof. unfold response_id. simpl. by rewrite int_of_float64_of_int. Qed.

(** X11. The response of a pull is a three-element message for the pulled
    id, either a resolve or a reject, and what a reject carries is an
    error value: a list of at least two elements with the string "error"
    in front. *)
Theorem pull_response_shape fuel exportID st r st' :
  handlePull Dispatch fuel exportID st = Done r st' →
  ∃ response,
    r = Ok response ∧
    response_id (JArray response) = Some exportID ∧
    ((∃ payload, response = resolve_response exportID payload) ∨
     (∃ errorValue, response = reject_response exportID errorValue ∧
                    is_error_array errorValue = true)).
Proof.
  intros (response & -> & Hshape)%handlePull_response.
  exists response. split; [done|]. split; [|done].
  destruct Hshape as [[payload ->]|(errorValue & -> & _)];
    [apply response_id_resolve|apply response_id_reject].
Qed.

Lemma HandleMessage_response fuel message st r st' :
  HandleMessage Dispatch fuel message st = Done r st' →
  match pulled_id message with
  | Some exportID =>
      ∃ response, r = Ok (Some response) ∧ response_id response = Some exportID
  | None => ∀ response, r ≠ Ok (Some response)
  end.
Proof.
  intros H.
  destruct (message_shape message)
    as [(p0 & pushRest & rest & ->)|[(f & rest & ->)|Hin]].
  - rewrite HandleMessage_push_body in H. simpl. intros response. congruence.
  - rewrite HandleMessage_pull in H. simpl.
    destruct (handlePull _ _ _ _) as [|rp st1] eqn:Hpull; [discriminate|].
    destruct (handlePull_response _ _ _ _ _ Hpull) as (response & -> & Hshape).
    exists (JArray response). split; [congruence|].
    destruct Hshape as [[payload ->]|(errorValue & -> & _)];
      [apply response_id_resolve|apply response_id_reject].
  - assert (pulled_id message = None) as ->.
    { unfold effective in Hin. unfold pulled_id.
      destruct message as [[| | | |[|[| | |messageType| |] [|[| | | | |] rest]]|]|];
        try done.
      destruct (String.eqb messageType "push") eqn:Hpush;
        [by apply String.eqb_eq in Hpush as ->|].
      by destruct (String.eqb messageType "pull"). }
    destruct (HandleMessage_ineffective fuel message st Hin) as [H'|(e & H' & _)];
      rewrite H' in H; intros response; congruence.
Qed.

(** X12. The transports' loop answers pulls only: when the export ids
    asked for are within the range of int, the responses of a batch answer,
    in the order of the batch, pulls with a number as export id, at most
    one response for each, and each response names the id its pull asked
    for.  Pushes, releases, aborts and messages in error add nothing. *)
Theorem serve_answers_pulls fuel messages st responses st' :
  Forall (λ message, ∀ exportID, pulled_id message = Some exportID →
                                 int_min ≤ exportID ≤ int_max) messages →
  serve Dispatch fuel messages st = Some (responses, st') →
  response_id <$> responses `sublist_of` Some <$> omap pulled_id messages.
Proof.
  intros _. revert st responses st'.
  induction messages as [|message messages IH]; intros st responses st' H.
  - by inversion H.
  - simpl in H.
    destruct (HandleMessage Dispatch fuel message st) as [|r st1] eqn:Hm;
      [discriminate|].
    destruct (serve Dispatch fuel messages st1) as [[responses1 st2]|] eqn:Hs;
      [|discriminate].
    apply IH in Hs. apply HandleMessage_response in Hm. simpl.
    destruct (pulled_id message) as [exportID|].
    + destruct Hm as (response & -> & Hid). inversion H; subst.
      rewrite !fmap_cons, Hid. by apply sublist_skip.
    + destruct r as [[response|]|e]; [by destruct (Hm response)|..];
        by inversion H; subst.
Qed.

(** X13. A result that is itself an error value is classified by where
    the pull finds it: the pull that dispatches the operation answers with
    a resolve that carries the value as data, and a pull that finds it
    cached answers with a reject. *)
Theorem error_valued_result fuel exportID st response st' result :
  pendingResults st !! exportID = None →
  handlePull Dispatch fuel exportID st = Done (Ok response) st' →
  pendingResults st' !! exportID = Some result →
  is_error_array result = true →
  response = resolve_response exportID (JArray [result]) ∧
  ∀ fuel', handlePull Dispatch fuel' exportID st' =
           Done (Ok (reject_response exportID result))
                (with_session (delete_result exportID) st').
Proof.
  intros Hnone H Hres' Herr. split.
  - destruct (handlePull_Done _ _ _ _ _ _ H)
      as [(result0 & Hres & _)
         |[(_ & _ & -> & _)
          |[(operation & e & _ & Hop & Hargs & _)
           |(operation & ra & st1 & rd & st2 & _ & Hop & Hargs & Hcall & Hrd)]]];
      [congruence..| |].
    + pose proof (resolve_not_self _ _ _ _ _ _ _ Hop Hnone Hargs) as Hnot.
      pose proof (resolve_progress_calls _ _ _ _ _ _ Hargs) as P.
      destruct (pr_frame _ _ _ _ P exportID Hnot) as [_ E]. congruence.
    + pose proof (resolve_not_self _ _ _ _ _ _ _ Hop Hnone Hargs) as Hnot.
      pose proof (resolve_progress_calls _ _ _ _ _ _ Hargs) as P.
      destruct (pr_frame _ _ _ _ P exportID Hnot) as [_ E].
      destruct (call_target_session _ _ _ _ _ _ _ Hcall) as [Hs _].
      destruct rd as [result1|e]; destruct Hrd as [-> Hr].
      * simpl in Hres'. rewrite lookup_insert_eq in Hres'.
        assert (result1 = result) as -> by congruence.
        rewrite is_error_array_escape in Hr by done. congruence.
      * simpl in Hres'. rewrite Hs in Hres'. congruence.
  - intros fuel'. rewrite (handlePull_cached _ _ _ _ _ Hres'). by rewrite Herr.
Qed.

(** ** More fuel changes nothing *)

Lemma handlePull_fuel_mono fuel fuel' exportID st r st' :
  (fuel ≤ fuel')%nat →
  handlePull Dispatch fuel exportID st = Done r st' →
  handlePull Dispatch fuel' exportID st = Done r st'.
Proof.
  intros Hle. unfold handlePull.
  destruct (pendingResults st !! exportID); [done|].
  destruct (pendingOperations st !! exportID) as [operation|]; [|done].
  simpl. destruct (resolve fuel _ st) as [|ra st1] eqn:Hargs; [done|].
  by rewrite (resolve_fuel_mono _ _ _ _ _ _ _ Hle Hargs).
Qed.

Lemma HandleMessage_fuel_mono fuel fuel' message st r st' :
  (fuel ≤ fuel')%nat →
  HandleMessage Dispatch fuel message st = Done r st' →
  HandleMessage Dispatch fuel' message st = Done r st'.
Proof.
  intros Hle H.
  destruct (message_shape message)
    as [(p0 & pushRest & rest & ->)|[(f & rest & ->)|Hin]].
  - by rewrite HandleMessage_push_body in *.
  - rewrite HandleMessage_pull in *.
    destruct (handlePull Dispatch fuel _ st) as [|rp st1] eqn:Hpull; [discriminate|].
    by rewrite (handlePull_fuel_mono _ _ _ _ _ _ Hle Hpull).
  - rewrite <-H. clear H. unfold HandleMessage, effective in *.
    destruct message as [[| | | |[|[| | |messageType| |] payload]|]|]; try done.
    simpl. destruct (String.eqb messageType "push"); [done|].
    destruct (String.eqb messageType "pull"); [|done].
    by destruct payload as [|[| | | | |] rest].
Qed.

Lemma serve_fuel_mono fuel fuel' messages st out :
  (fuel ≤ fuel')%nat →
  serve Dispatch fuel messages st = Some out →
  serve Dispatch fuel' messages st = Some out.
Proof.
  intros Hle. revert st out.
  induction messages as [|message messages IH]; intros st out H; [done|].
  simpl in *.
  destruct (HandleMessage Dispatch fuel message st) as [|r st1] eqn:Hm;
    [discriminate|].
  rewrite (HandleMessage_fuel_mono _ _ _ _ _ _ Hle Hm).
  destruct (serve Dispatch fuel messages st1) as [[responses st2]|] eqn:Hs;
    [|discriminate].
  by rewrite (IH _ _ Hs).
Qed.

(** ** A call and its pull *)

Lemma handlePull_dispatch fuel exportID st operation resolvedArgs st1 rd st2 :
  pendingResults st !! exportID = None →
  pendingOperations st !! exportID = Some operation →
  resolve fuel (Args operation) st = Done (Ok resolvedArgs) st1 →
  call_target Dispatch exportID (Method operation) resolvedArgs st1 = (rd, st2) →
  handlePull Dispatch fuel exportID st =
  match rd with
  | Ok result =>
      Done (Ok (resolve_response exportID (escape_array result)))
           (with_session (store_result exportID result)
              (with_session (delete_operation exportID) st2))
  | Err e =>
      Done (Ok (createErrorResponse exportID "MethodError" (Error e)))
           (with_session (delete_operation exportID) st2)
  end.
Proof.
  intros Hres Hop Hargs Hcall. unfold handlePull. rewrite Hres, Hop.
  unfold json_Unmarshal. rewrite Hargs. unfold json_Marshal. rewrite Hcall.
  destruct rd as [result|e]; [|done]. by destruct result.
Qed.

(** A push of a call with reference-free arguments and the pull of its
    id, when the id is free. *)
Lemma push_pull_serve method args st rd w :
  pendingOperations st !! NextExportID (session st) = None →
  pendingResults st !! NextExportID (session st) = None →
  refs args = [] →
  Dispatch method args (target st) = (rd, w) →
  let exportID := NextExportID (session st) in
  ∃ fuel0, ∀ fuel, (fuel0 ≤ fuel)%nat →
    serve Dispatch fuel
      [push_message (call_body method args); pull_message exportID] st =
    Some ([JArray match rd with
                  | Ok result => resolve_response exportID (escape_array result)
                  | Err e => createErrorResponse exportID "MethodError" (Error e)
                  end],
          mkMachine
            {| PendingResults := match rd with
                                 | Ok result => <[exportID := result]> (pendingResults st)
                                 | Err _ => pendingResults st
                                 end;
               PendingOperations := pendingOperations st;
               NextExportID := exportID + 1 |}
            w (calls st ++ [mkCall exportID method args])).
Proof.
  intros Hop Hres Hrefs Hd exportID.
  set (st1 := with_session (λ sd, (handlePush sd (call_body method args)).2) st).
  destruct (resolve_reference_free_returns args Hrefs st1) as [fuel0 Hargs].
  exists fuel0. intros fuel Hle.
  apply (resolve_fuel_mono _ _ fuel) in Hargs; [|done].
  assert (pendingResults st1 !! exportID = None) as Hres1 by done.
  assert (pendingOperations st1 !! exportID = Some (mkOperation method args))
    as Hop1 by (simpl; by rewrite lookup_insert_eq).
  destruct (call_target Dispatch exportID method args st1) as [rd1 st2] eqn:Hcall.
  pose proof (handlePull_dispatch fuel exportID st1 _ _ _ _ _
                Hres1 Hop1 Hargs Hcall) as Hpull.
  unfold call_target in Hcall. change (target st1) with (target st) in Hcall.
  rewrite Hd in Hcall. assert (rd1 = rd) as -> by congruence.
  assert (st2 = mkMachine (session st1) w
                  (calls st ++ [mkCall exportID method args])) as ->
    by (symmetry; exact (f_equal snd Hcall)).
  unfold serve. rewrite HandleMessage_push. fold st1.
  unfold pull_message. rewrite HandleMessage_pull, int_of_float64_of_int, Hpull.
  destruct rd as [result|e]; do 3 f_equal;
    unfold with_session, store_result, delete_operation; simpl; fold exportID;
    by rewrite delete_insert_id.
Qed.


(** ** Batches that refer backwards *)







End MoreFacts.

(** ** The further properties at the examples *)

Lemma resolver_frame_witness :
  resolvePipelineReferences example_Dispatch 3 (pipeline 1 [])
    (example_pushed "hello" (JArray [JString "World"]))
  = Done (Ok (JString "Hello, World!")) example_hello_pulled ∧
  calls example_hello_pulled
  = calls (example_pushed "hello" (JArray [JString "World"]))
    ++ new_calls (example_pushed "hello" (JArray [JString "World"]))
                 example_hello_pulled.
Proof.
  assert (resolvePipelineReferences example_Dispatch 3 (pipeline 1 [])
            (example_pushed "hello" (JArray [JString "World"]))
          = Done (Ok (JString "Hello, World!")) example_hello_pulled) as H
    by (vm_compute; reflexivity).
  split; [exact H|].
  exact (proj1 (proj2 (resolver_frame example_Dispatch _ _ _ _ _ H))).
Defined.

Lemma resolve_reference_free_witness :
  refs (JArray [JString "World"; JObject [("n", JNumber (float64_of_int 1))]]) = [] ∧
  ∃ fuel,
    resolvePipelineReferences example_Dispatch fuel
      (JArray [JString "World"; JObject [("n", JNumber (float64_of_int 1))]])
      example_start
    = Done (Ok (JArray [JString "World"; JObject [("n", JNumber (float64_of_int 1))]]))
           example_start.
Proof.
  split; [reflexivity|].
  exact (proj1 (resolve_reference_free example_Dispatch
                  (JArray [JString "World"; JObject [("n", JNumber (float64_of_int 1))]])
                  example_start eq_refl)).
Defined.

Lemma resolve_repeatable_witness :
  resolvePipelineReferences example_Dispatch 3 (pipeline 1 [])
    (example_pushed "hello" (JArray [JString "World"]))
  = Done (Ok (JString "Hello, World!")) example_hello_pulled ∧
  resolvePipelineReferences example_Dispatch 3 (pipeline 1 []) example_hello_pulled
  = Done (Ok (JString "Hello, World!")) example_hello_pulled.
Proof.
  assert (resolvePipelineReferences example_Dispatch 3 (pipeline 1 [])
            (example_pushed "hello" (JArray [JString "World"]))
          = Done (Ok (JString "Hello, World!")) example_hello_pulled) as H
    by (vm_compute; reflexivity).
  split; [exact H|].
  exact (proj1 (resolve_repeatable example_Dispatch _ _ _ _ _ H)).
Defined.

Lemma pull_calls_pending_witness :
  handlePull example_Dispatch 5 2 example_diamond_pushed
  = Done (Ok (resolve_response 2
                (JArray [JArray [JNumber (inject_Z 10); JNumber (inject_Z 20)]])))
         example_diamond_pulled ∧
  Forall (call_of_pending example_diamond_pushed)
         (new_calls example_diamond_pushed example_diamond_pulled) ∧
  (length (new_calls example_diamond_pushed example_diamond_pulled)
   ≤ size (pendingOperations example_diamond_pushed))%nat.
Proof.
  assert (handlePull example_Dispatch 5 2 example_diamond_pushed
          = Done (Ok (resolve_response 2
                        (JArray [JArray [JNumber (inject_Z 10);
                                         JNumber (inject_Z 20)]])))
                 example_diamond_pulled) as H by (vm_compute; reflexivity).
  split; [exact H|].
  destruct (pull_calls_pending example_Dispatch _ _ _ _ _ H) as (Hall & _ & Hlen & _).
  split; [exact Hall|exact Hlen].
Defined.

Lemma ineffective_message_dropped_witness :
  effective (Some (JArray [JString "release"; JNumber (float64_of_int 1);
                           JNumber (float64_of_int 1)])) = false ∧
  serve example_Dispatch 3
    ([push_message example_hello]
     ++ Some (JArray [JString "release"; JNumber (float64_of_int 1);
                      JNumber (float64_of_int 1)])
     :: [pull_message 1]) example_start
  = serve example_Dispatch 3 ([push_message example_hello] ++ [pull_message 1])
      example_start.
Proof.
  split; [reflexivity|].
  exact (proj2 (ineffective_message_dropped example_Dispatch 3
                  (Some (JArray [JString "release"; JNumber (float64_of_int 1);
                                 JNumber (float64_of_int 1)]))
                  [push_message example_hello] [pull_message 1] example_start
                  eq_refl)).
Defined.


Lemma HandleMessage_error_witness :
  HandleMessage example_Dispatch 0 (Some (JArray [JNumber (float64_of_int 1)]))
    example_start
  = Done (Err InvalidMessageType) example_start ∧
  HandleMessage example_Dispatch 0 None example_start
  = Done (Err InvalidMessageFormat) example_start ∧
  HandleMessage example_Dispatch 0 (Some (JArray [])) example_start
  = Done (Err EmptyMessage) example_start.
Proof.
  destruct (HandleMessage_error example_Dispatch) as (Hformat & Hempty & Htype & _).
  split; [|split].
  - apply (Htype 0%nat _ example_start (JNumber (float64_of_int 1)) []);
      [reflexivity|discriminate].
  - apply (Hformat 0%nat None example_start InvalidMessageFormat). reflexivity.
  - apply Hempty. reflexivity.
Defined.

Lemma pull_response_shape_witness :
  handlePull example_Dispatch 3 1 (example_pushed "hello" (JArray [JString "World"]))
  = Done (Ok (resolve_response 1 (JString "Hello, World!"))) example_hello_pulled ∧
  ∃ response,
    Ok (resolve_response 1 (JString "Hello, World!")) = Ok response ∧
    response_id (JArray response) = Some 1.
Proof.
  assert (handlePull example_Dispatch 3 1
            (example_pushed "hello" (JArray [JString "World"]))
          = Done (Ok (resolve_response 1 (JString "Hello, World!")))
                 example_hello_pulled) as H by (vm_compute; reflexivity).
  split; [exact H|].
  destruct (pull_response_shape example_Dispatch _ _ _ _ _ H)
    as (response & Hr & Hid & _).
  exists response. split; [exact Hr|exact Hid].
Defined.

Lemma serve_answers_pulls_witness :
  Forall (λ message, ∀ exportID, pulled_id message = Some exportID →
                                 int_min ≤ exportID ≤ int_max)
         [push_message example_hello; pull_message 1; pull_message 9] ∧
  serve example_Dispatch 3
    [push_message example_hello; pull_message 1; pull_message 9] example_start
  = Some ([JArray (resolve_response 1 (JString "Hello, World!"));
           JArray (export_not_found 9)], example_hello_pulled) ∧
  response_id <$> [JArray (resolve_response 1 (JString "Hello, World!"));
                   JArray (export_not_found 9)]
  `sublist_of` Some <$> omap pulled_id
                 [push_message example_hello; pull_message 1; pull_message 9].
Proof.
  assert (Forall (λ message, ∀ exportID, pulled_id message = Some exportID →
                                         int_min ≤ exportID ≤ int_max)
                 [push_message example_hello; pull_message 1; pull_message 9])
    as Hrange.
  { apply Forall_forall. intros message Hm exportID Hid.
    repeat (apply elem_of_cons in Hm as [->|Hm]); [..|by apply elem_of_nil in Hm];
      vm_compute in Hid; simplify_eq; split; vm_compute; discriminate. }
  assert (serve example_Dispatch 3
            [push_message example_hello; pull_message 1; pull_message 9]
            example_start
          = Some ([JArray (resolve_response 1 (JString "Hello, World!"));
                   JArray (export_not_found 9)], example_hello_pulled)) as H
    by (vm_compute; reflexivity).
  split; [exact Hrange|]. split; [exact H|].
  exact (serve_answers_pulls example_Dispatch _ _ _ _ _ Hrange H).
Defined.

Lemma error_valued_result_witness :
  handlePull example_Dispatch 3 1
    (example_pushed "echo" (JArray [JArray [JString "error"; JString "boom"]]))
  = Done (Ok (resolve_response 1
                (JArray [JArray [JString "error"; JString "boom"]])))
         (mkMachine
            {| PendingResults := {[1 := JArray [JString "error"; JString "boom"]]};
               PendingOperations := ∅;
               NextExportID := 2 |} 1%nat
            [mkCall 1 "echo" (JArray [JArray [JString "error"; JString "boom"]])]) ∧
  handlePull example_Dispatch 0 1
    (mkMachine
       {| PendingResults := {[1 := JArray [JString "error"; JString "boom"]]};
          PendingOperations := ∅;
          NextExportID := 2 |} 1%nat
       [mkCall 1 "echo" (JArray [JArray [JString "error"; JString "boom"]])])
  = Done (Ok (reject_response 1 (JArray [JString "error"; JString "boom"])))
         (with_session (delete_result 1)
            (mkMachine
               {| PendingResults := {[1 := JArray [JString "error"; JString "boom"]]};
                  PendingOperations := ∅;
                  NextExportID := 2 |} 1%nat
               [mkCall 1 "echo"
                  (JArray [JArray [JString "error"; JString "boom"]])])).
Proof.
  assert (handlePull example_Dispatch 3 1
            (example_pushed "echo" (JArray [JArray [JString "error"; JString "boom"]]))
          = Done (Ok (resolve_response 1
                        (JArray [JArray [JString "error"; JString "boom"]])))
                 (mkMachine
                    {| PendingResults :=
                         {[1 := JArray [JString "error"; JString "boom"]]};
                       PendingOperations := ∅;
                       NextExportID := 2 |} 1%nat
                    [mkCall 1 "echo"
                       (JArray [JArray [JString "error"; JString "boom"]])])) as H
    by (vm_compute; reflexivity).
  split; [exact H|].
  refine (proj2 (error_valued_result example_Dispatch _ _ _ _ _
                   (JArray [JString "error"; JString "boom"]) _ H _ _) 0%nat);
    vm_compute; reflexivity.
Defined.



(** ** examples/bluesky: sanitizeJSON *)

Lemma dollar_key_sanitize_key key : dollar_key (sanitize_key key) = false.
Proof.
  destruct key as [|c rest]; [done|]. simpl.
  destruct (Ascii.eqb c "$"%char) eqn:Hc; simpl; [done|exact Hc].
Qed.

Lemma sanitize_key_id key : dollar_key key = false → sanitize_key key = key.
Proof. destruct key as [|c rest]; [done|]. simpl. by intros ->. Qed.

Lemma map_store_fst result k x :
  (map_store result k x).*1 = if bool_decide (k ∈ result.*1) then result.*1
                              else result.*1 ++ [k].
Proof.
  induction result as [|[k' y] result IH]; simpl; [done|].
  destruct (String.eqb k' k) eqn:Hk.
  - apply String.eqb_eq in Hk as ->. simpl.
    rewrite bool_decide_eq_true_2; [done|by left].
  - apply String.eqb_neq in Hk. rewrite fmap_cons, IH. simpl.
    destruct (decide (k ∈ result.*1)) as [Hin|Hin].
    + rewrite !bool_decide_eq_true_2; [done|by right|done].
    + rewrite !bool_decide_eq_false_2; [done| |done].
      by intros [?|?]%elem_of_cons.
Qed.

Lemma map_store_elem_of result k x k' x' :
  (k', x') ∈ map_store result k x → (k', x') = (k, x) ∨ (k', x') ∈ result.
Proof.
  induction result as [|[k0 y] result IH]; simpl.
  - intros ?%list_elem_of_singleton. by left.
  - destruct (String.eqb k0 k).
    + intros [?|?]%elem_of_cons; [by left|right; by right].
    + intros [->|[?|?]%IH]%elem_of_cons; [right; by left|by left|right; by right].
Qed.

Lemma map_store_new result k x :
  k ∉ result.*1 → map_store result k x = result ++ [(k, x)].
Proof.
  induction result as [|[k' y] result IH]; simpl; [done|].
  intros Hk. destruct (String.eqb k' k) eqn:E.
  - apply String.eqb_eq in E as ->. destruct Hk. by left.
  - rewrite IH; [done|]. intros ?. apply Hk. by right.
Qed.

(** What the loop of sanitizeJSON over the entries of a map builds. *)
Lemma sanitize_loop (f : Value → Value) (v result : list (string * Value)) :
  let result' := fold_left (λ result kv, map_store result (sanitize_key kv.1) (f kv.2))
                           v result in
  (NoDup (result.*1) → NoDup (result'.*1)) ∧
  (∀ k', k' ∈ result'.*1 ↔ k' ∈ result.*1 ∨ k' ∈ sanitize_key <$> v.*1) ∧
  (∀ k' x', (k', x') ∈ result' →
     (k', x') ∈ result ∨ ∃ k x, (k, x) ∈ v ∧ sanitize_key k = k' ∧ x' = f x).
Proof.
  revert result. induction v as [|[k x] v IH]; intros result; simpl.
  - split; [done|]. split; [|by left]. intros k'. split; [by left|].
    by intros [?|?%elem_of_nil].
  - destruct (IH (map_store result (sanitize_key k) (f x))) as (Hnd & Hkeys & Hvals).
    split; [|split].
    + intros Hres. apply Hnd. rewrite map_store_fst. case_bool_decide; [done|].
      apply NoDup_app. split; [done|]. split; [|apply NoDup_singleton].
      by intros k0 Hk0 ->%list_elem_of_singleton.
    + intros k'. rewrite Hkeys, map_store_fst.
      case_bool_decide as Hin; rewrite ?elem_of_app, ?list_elem_of_singleton,
        elem_of_cons; [|tauto].
      split; [tauto|]. intros [?|[->|?]]; auto.
    + intros k' x' [[[= -> ->]|Hin]%map_store_elem_of
                   |(k0 & x0 & Hin & Hk & Hx)]%Hvals.
      * right. exists k, x. split; [by left|done].
      * by left.
      * right. exists k0, x0. split; [by right|done].
Qed.

Lemma keys_JObject (v : list (string * Value)) :
  keys (JObject v) = flat_map (λ kv, kv.1 :: keys kv.2) v.
Proof. done. Qed.

Lemma sanitizeJSON_JObject v :
  sanitizeJSON (JObject v) =
  JObject (fold_left (λ result kv,
                        map_store result (sanitize_key kv.1) (sanitizeJSON kv.2))
                     v []).
Proof. done. Qed.

(** X16. sanitizeJSON does what it is for: in the tree it returns no
    object, at any depth, has a key that starts with '$'. *)
Theorem sanitizeJSON_no_dollar data :
  Forall (λ key, dollar_key key = false) (keys (sanitizeJSON data)).
Proof.
  induction data as [| b | f | s | v IH | fields IH] using Value_nested_ind;
    try by constructor.
  - simpl. apply Forall_forall. intros key Hkey.
    apply list_elem_of_In, in_flat_map in Hkey as (y & Hy & Hkey).
    apply in_map_iff in Hy as (x & <- & Hx).
    rewrite Forall_forall in IH. specialize (IH x (proj2 (list_elem_of_In _ _) Hx)).
    rewrite Forall_forall in IH. by apply IH, list_elem_of_In.
  - rewrite sanitizeJSON_JObject, keys_JObject.
    destruct (sanitize_loop sanitizeJSON fields []) as (_ & Hkeys & Hvals).
    apply Forall_forall. intros key Hkey.
    apply list_elem_of_In, in_flat_map in Hkey as ([k' x'] & Hin & Hkey).
    apply list_elem_of_In in Hin. simpl in Hkey. destruct Hkey as [<-|Hkey].
    + assert (k' ∈ (fold_left (λ result kv,
                map_store result (sanitize_key kv.1) (sanitizeJSON kv.2))
                fields []).*1) as Hk'
        by (apply list_elem_of_fmap; by exists (k', x')).
      apply Hkeys in Hk' as [?%elem_of_nil|(k & -> & _)%list_elem_of_fmap]; [done|].
      apply dollar_key_sanitize_key.
    + apply Hvals in Hin as [?%elem_of_nil|(k & x & Hin & _ & ->)]; [done|].
      rewrite Forall_forall in IH.
      assert (x ∈ fields.*2) as Hx by (apply list_elem_of_fmap; by exists (k, x)).
      specialize (IH x Hx). rewrite Forall_forall in IH.
      by apply IH, list_elem_of_In.
Qed.

Lemma sanitize_loop_clean (f : Value → Value) (v result : list (string * Value)) :
  NoDup (result.*1 ++ v.*1) →
  Forall (λ kv, dollar_key kv.1 = false ∧ f kv.2 = kv.2) v →
  fold_left (λ result kv, map_store result (sanitize_key kv.1) (f kv.2)) v result
  = result ++ v.
Proof.
  revert result. induction v as [|[k x] v IH]; intros result Hnd Hv; simpl.
  - by rewrite app_nil_r.
  - apply Forall_cons in Hv as [[Hk Hx] Hv]. simpl in Hk, Hx.
    rewrite sanitize_key_id, Hx by done.
    rewrite fmap_cons in Hnd. simpl in Hnd.
    rewrite map_store_new.
    + rewrite IH; [by rewrite <-app_assoc| |done].
      by rewrite fmap_app, <-app_assoc.
    + apply NoDup_app in Hnd as (_ & Hdis & _). intros Hin.
      apply (Hdis k Hin). by left.
Qed.

Lemma clean_JObject (v : list (string * Value)) :
  clean (JObject v) =
  forallb (λ kv, negb (dollar_key kv.1) && clean kv.2) v
  && bool_decide (NoDup (v.*1)).
Proof. done. Qed.

Lemma sanitizeJSON_clean_id data : clean data = true → sanitizeJSON data = data.
Proof.
  induction data as [| b | f | s | v IH | fields IH] using Value_nested_ind;
    try done.
  - simpl. intros Hv. f_equal. rewrite forallb_forall in Hv.
    rewrite Forall_forall in IH. induction v as [|x v IHv]; [done|]. simpl.
    rewrite IH; [|by left|apply Hv; by left]. f_equal. apply IHv.
    + intros y Hy. apply IH. by right.
    + intros y Hy. apply Hv. by right.
  - rewrite clean_JObject, sanitizeJSON_JObject.
    intros [Hv Hnd%bool_decide_eq_true]%andb_true_iff. f_equal.
    rewrite sanitize_loop_clean; [done..|].
    rewrite forallb_forall in Hv. rewrite Forall_forall in IH.
    apply Forall_forall. intros [k x] Hin.
    destruct (proj1 (andb_true_iff _ _) (Hv _ (proj1 (list_elem_of_In _ _) Hin)))
      as [Hk Hx].
    split; [by apply negb_true_iff|].
    apply IH; [|done]. apply list_elem_of_fmap. by exists (k, x).
Qed.

Lemma sanitizeJSON_is_clean data : clean (sanitizeJSON data) = true.
Proof.
  induction data as [| b | f | s | v IH | fields IH] using Value_nested_ind;
    try done.
  - simpl. apply forallb_forall. intros y (x & <- & Hx)%in_map_iff.
    rewrite Forall_forall in IH. by apply IH, list_elem_of_In.
  - rewrite sanitizeJSON_JObject, clean_JObject.
    destruct (sanitize_loop sanitizeJSON fields []) as (Hnd & _ & Hvals).
    apply andb_true_iff. split.
    + apply forallb_forall. intros [k' x'] Hin%list_elem_of_In.
      apply Hvals in Hin as [?%elem_of_nil|(k & x & Hin & <- & ->)]; [done|].
      simpl. rewrite dollar_key_sanitize_key. simpl.
      rewrite Forall_forall in IH. apply IH.
      apply list_elem_of_fmap. by exists (k, x).
    + apply bool_decide_eq_true, Hnd. constructor.
Qed.

(** X17. sanitizeJSON changes only what it has to: it returns a tree
    without a '$' key as it is, and as its own result is such a tree,
    applying it twice is the same as applying it once. *)
Theorem sanitizeJSON_idempotent data :
  clean (sanitizeJSON data) = true ∧
  sanitizeJSON (sanitizeJSON data) = sanitizeJSON data ∧
  (clean data = true → sanitizeJSON data = data).
Proof.
  split; [apply sanitizeJSON_is_clean|].
  split; [apply sanitizeJSON_clean_id, sanitizeJSON_is_clean|].
  apply sanitizeJSON_clean_id.
Qed.

Lemma remove_dups_shorter (l : list string) :
  (length (remove_dups l) ≤ length l)%nat ∧
  (¬ NoDup l → (length (remove_dups l) < length l)%nat).
Proof.
  induction l as [|x l [IHle IHlt]]; simpl.
  - split; [done|]. intros H. destruct H. constructor.
  - case_decide as Hx; simpl.
    + split; lia.
    + split; [lia|]. intros Hnd.
      assert (¬ NoDup l) by (intros ?; apply Hnd; by constructor).
      specialize (IHlt ltac:(done)). lia.
Qed.

(** X18. What sanitizeJSON makes of one object: its keys are the renamed
    keys of the input, each once, and every value is the sanitized value
    of an entry that was renamed to its key.  So the object keeps its size
    when the renamed keys are distinct, and it loses entries when two keys
    are renamed to the same key, as "$type" and "_type" are. *)
Theorem sanitizeJSON_renames fields :
  ∃ fields',
    sanitizeJSON (JObject fields) = JObject fields' ∧
    NoDup (fields'.*1) ∧
    (∀ k', k' ∈ fields'.*1 ↔ k' ∈ sanitize_key <$> fields.*1) ∧
    (∀ k' x', (k', x') ∈ fields' →
       ∃ k x, (k, x) ∈ fields ∧ sanitize_key k = k' ∧ x' = sanitizeJSON x) ∧
    (NoDup (sanitize_key <$> fields.*1) → length fields' = length fields) ∧
    (¬ NoDup (sanitize_key <$> fields.*1) →
     (length fields' < length fields)%nat).
Proof.
  eexists. split; [apply sanitizeJSON_JObject|].
  destruct (sanitize_loop sanitizeJSON fields []) as (Hnd & Hkeys & Hvals).
  set (fields' := fold_left _ fields []) in *.
  assert (NoDup (fields'.*1)) as Hnd' by (apply Hnd; constructor).
  assert (∀ k', k' ∈ fields'.*1 ↔ k' ∈ sanitize_key <$> fields.*1) as Hkeys'.
  { intros k'. rewrite Hkeys. split; [by intros [?%elem_of_nil|?]|by right]. }
  assert (fields'.*1 ≡ₚ remove_dups (sanitize_key <$> fields.*1)) as Hperm.
  { apply NoDup_Permutation; [done|apply NoDup_remove_dups|].
    intros k'. by rewrite elem_of_remove_dups. }
  apply Permutation_length in Hperm. rewrite length_fmap in Hperm.
  destruct (remove_dups_shorter (sanitize_key <$> fields.*1)) as [_ Hlt].
  rewrite !length_fmap in Hlt.
  split; [done|]. split; [done|]. split; [|split].
  - intros k' x' [?%elem_of_nil|?]%Hvals; done.
  - intros Hnd0. rewrite Hperm.
    apply NoDup_Permutation in Hkeys'; [|done..].
    apply Permutation_length in Hkeys'. rewrite !length_fmap in Hkeys'. lia.
  - intros Hdup. rewrite Hperm. by apply Hlt.
Qed.

(** ** examples/helloworld: the hello method *)

Lemma session_invariant_next_free sessionData :
  session_invariant sessionData →
  PendingOperations sessionData !! NextExportID sessionData = None ∧
  PendingResults sessionData !! NextExportID sessionData = None.
Proof.
  intros (_ & _ & Hbelow). split.
  - destruct (PendingOperations sessionData !! _) eqn:E; [|done].
    assert (1 ≤ NextExportID sessionData < NextExportID sessionData)
      by (apply Hbelow; left; by eexists). lia.
  - destruct (PendingResults sessionData !! _) eqn:E; [|done].
    assert (1 ≤ NextExportID sessionData < NextExportID sessionData)
      by (apply Hbelow; right; by eexists). lia.
Qed.

Lemma unmarshal_strings_of_strings names :
  unmarshal_strings (JArray (JString <$> names)) = Ok names.
Proof.
  unfold unmarshal_strings. induction names as [|name names IH]; [done|].
  rewrite fmap_cons. cbn [unmarshal_string_list unmarshal_string]. by rewrite IH.
Qed.

Lemma refs_of_strings names : refs (JArray (JString <$> names)) = [].
Proof.
  simpl.
  assert (pipeline_ref (JString <$> names) = None) as ->.
  { destruct names as [|n1 [|n2 names]]; try done. simpl.
    by destruct (String.eqb n1 "pipeline"). }
  by induction names.
Qed.

(** X19. The hello server end to end: the push of hello with a list of
    strings and the pull of its id are answered by one resolve that greets
    the first string, or the world when the list is empty; the call of
    any other method is answered by the MethodError reject
    "method not found". *)
Theorem hello_greets {World : Type} (st : Machine (World:=World)) :
  session_invariant (session st) →
  let exportID := NextExportID (session st) in
  (∀ names, ∃ fuel0, ∀ fuel, (fuel0 ≤ fuel)%nat → ∃ st',
     serve (BaseRpcTarget_Dispatch NewHelloServer) fuel
       [push_message (call_body "hello" (JArray (JString <$> names)));
        pull_message exportID] st
     = Some ([JArray (resolve_response exportID
                        (JString match names with
                                 | [] => "Hello, World!"
                                 | name :: _ => "Hello, " +:+ name +:+ "!"
                                 end))], st')) ∧
  (∀ method args, method ≠ "hello" → refs args = [] →
     ∃ fuel0, ∀ fuel, (fuel0 ≤ fuel)%nat → ∃ st',
       serve (BaseRpcTarget_Dispatch NewHelloServer) fuel
         [push_message (call_body method args); pull_message exportID] st
       = Some ([JArray (createErrorResponse exportID "MethodError"
                          ("method not found: " +:+ method))], st')).
Proof.
  intros [Hop Hres]%session_invariant_next_free exportID. split.
  - intros names.
    destruct (push_pull_serve (BaseRpcTarget_Dispatch NewHelloServer) "hello"
                (JArray (JString <$> names)) st
                (Ok (JString match names with
                             | [] => "Hello, World!"
                             | name :: _ => "Hello, " +:+ name +:+ "!"
                             end)) (target st) Hop Hres (refs_of_strings names))
      as [fuel0 H].
    { unfold BaseRpcTarget_Dispatch, NewHelloServer, Method_register,
        NewBaseRpcTarget, BaseRpcTarget, Handler.
      rewrite lookup_insert_eq. unfold hello.
      rewrite unmarshal_strings_of_strings. by destruct names. }
    exists fuel0. intros fuel Hle. eexists. exact (H fuel Hle).
  - intros method args Hm Hrefs.
    destruct (push_pull_serve (BaseRpcTarget_Dispatch NewHelloServer) method
                args st (Err (MethodNotFound method)) (target st) Hop Hres Hrefs)
      as [fuel0 H].
    { unfold BaseRpcTarget_Dispatch, NewHelloServer, Method_register,
        NewBaseRpcTarget, BaseRpcTarget, Handler.
      by rewrite lookup_insert_ne, lookup_empty. }
    exists fuel0. intros fuel Hle. eexists. exact (H fuel Hle).
Qed.

Lemma hello_greets_witness :
  session_invariant (session example_start) ∧
  ∃ fuel0 st',
    serve (BaseRpcTarget_Dispatch NewHelloServer) fuel0
      [push_message (call_body "hello" (JArray (JString <$> ["World"; "Moon"])));
       pull_message 1] example_start
    = Some ([JArray (resolve_response 1 (JString "Hello, World!"))], st').
Proof.
  split; [exact NewSessionData_invariant|].
  destruct (proj1 (hello_greets example_start NewSessionData_invariant)
              ["World"; "Moon"]) as [fuel0 H].
  destruct (H fuel0 (Nat.le_refl fuel0)) as [st' Hs].
  exists fuel0, st'. exact Hs.
Defined.

Lemma sanitizeJSON_renames_witness :
  ¬ NoDup (sanitize_key <$> [("$type", JString "post"); ("_type", JNull)].*1) ∧
  ∃ fields',
    sanitizeJSON (JObject [("$type", JString "post"); ("_type", JNull)])
    = JObject fields' ∧
    (length fields' < 2)%nat.
Proof.
  assert (¬ NoDup (sanitize_key <$> [("$type", JString "post"); ("_type", JNull)].*1))
    as Hdup.
  { intros [Hnot _]%NoDup_cons. apply Hnot. by left. }
  split; [exact Hdup|].
  destruct (sanitizeJSON_renames [("$type", JString "post"); ("_type", JNull)])
    as (fields' & Heq & _ & _ & _ & _ & Hlt).
  exists fields'. split; [exact Heq|exact (Hlt Hdup)].
Defined.
